(** * Minesweeper knowledge base (Project 1, minesweeper.py)

    A shallow embedding of the classes [Sentence] and [MinesweeperAI]:
    cells are pairs of Python integers, Python sets are finite sets,
    the list [self.knowledge] is a list of sentence values, and the
    mutation of an object is the passing of its new value. *)

From stdpp Require Import gmap sets list.
From Stdlib Require Import ZArith Lia Ascii.

Local Open Scope Z_scope.

(** ** Cells and sentences *)

(** A cell is the tuple [(i, j)] of a row and a column. *)
Abbreviation cell := (Z * Z)%type.

(** [class Sentence]: [self.cells] and [self.count]. *)
Record Sentence : Type := mkSentence {
  cells : gset cell;
  count : Z
}.

(** [Sentence.__eq__]: the cell sets and the counts are equal; this is
    the equality of the record. *)
#[global] Instance Sentence_eq_dec : EqDecision Sentence.
Proof. solve_decision. Defined.

(** [len(self.cells)] as a Python integer. *)
Definition len (s : gset cell) : Z := Z.of_nat (size s).

(** Truth value of a set: a set is true when it is not empty. *)
Definition truthy (s : gset cell) : bool := bool_decide (s ≠ ∅).

Module Sentence.

(** [Sentence.known_mines] *)
Definition known_mines (s : Sentence) : gset cell :=
  if bool_decide (count s = len (cells s)) then cells s else ∅.

(** [Sentence.known_safes] *)
Definition known_safes (s : Sentence) : gset cell :=
  if bool_decide (count s = 0) && truthy (cells s) then cells s else ∅.

(** [Sentence.mark_mine] *)
Definition mark_mine (c : cell) (s : Sentence) : Sentence :=
  if bool_decide (c ∈ cells s)
  then mkSentence (cells s ∖ {[c]}) (count s - 1)
  else s.

(** [Sentence.mark_safe] *)
Definition mark_safe (c : cell) (s : Sentence) : Sentence :=
  if bool_decide (c ∈ cells s)
  then mkSentence (cells s ∖ {[c]}) (count s)
  else s.

End Sentence.

(** ** The player *)

(** [class MinesweeperAI] *)
Record AI : Type := mkAI {
  height : Z;
  width : Z;
  moves_made : gset cell;
  mines : gset cell;
  safes : gset cell;
  knowledge : list Sentence
}.

(** [MinesweeperAI.__init__] *)
Definition init (h w : Z) : AI :=
  mkAI h w ∅ ∅ ∅ [].

(** [MinesweeperAI.mark_mine] *)
Definition mark_mine (c : cell) (ai : AI) : AI :=
  mkAI (height ai) (width ai) (moves_made ai)
       ({[c]} ∪ mines ai) (safes ai)
       (Sentence.mark_mine c <$> knowledge ai).

(** [MinesweeperAI.mark_safe] *)
Definition mark_safe (c : cell) (ai : AI) : AI :=
  mkAI (height ai) (width ai) (moves_made ai)
       (mines ai) ({[c]} ∪ safes ai)
       (Sentence.mark_safe c <$> knowledge ai).

(** [for x in s: body], on a set: the body runs once for every element,
    in the order in which the set lists them. *)
Definition for_each {A} (body : cell → A → A) (s : gset cell) (a : A) : A :=
  foldl (λ acc x, body x acc) a (elements s).

(** [range(a - 1, a + 2)] *)
Definition around (a : Z) : list Z := [a - 1; a; a + 1].

(** Lines 207-213 of [add_knowledge]: the neighbours of [c] on the board. *)
Definition neighboring_cells (h w : Z) (c : cell) : gset cell :=
  foldl (λ acc r,
    foldl (λ acc' k,
      if bool_decide ((r, k) ≠ c) && bool_decide (0 ≤ r < h)
         && bool_decide (0 ≤ k < w)
      then {[(r, k)]} ∪ acc' else acc') acc (around c.2))
    ∅ (around c.1).

(** Lines 215-221: the cells to leave out and the count that remains. *)
Definition invalid_step (ai : AI) (nc : cell) (st : gset cell * Z)
  : gset cell * Z :=
  let st1 := if bool_decide (nc ∈ mines ai)
             then ({[nc]} ∪ st.1, st.2 - 1) else st in
  if bool_decide (nc ∈ safes ai) then ({[nc]} ∪ st1.1, st1.2) else st1.

(** Lines 207-224: the sentence built for the cell that was clicked. *)
Definition new_sentence (ai : AI) (c : cell) (n : Z) : Sentence :=
  let nb := neighboring_cells (height ai) (width ai) c in
  let st := for_each (invalid_step ai) nb (∅, n) in
  mkSentence (nb ∖ st.1) st.2.

(** [x in l] on a list of sentences. *)
Definition sentence_in (s : Sentence) (l : list Sentence) : bool :=
  bool_decide (s ∈ l).

(** Lines 226-227 *)
Definition append_new (s : Sentence) (ai : AI) : AI :=
  if sentence_in s (knowledge ai) then ai
  else mkAI (height ai) (width ai) (moves_made ai) (mines ai) (safes ai)
            (knowledge ai ++ [s]).

(** ** One pass of the loop [while kb_updated] *)

(** State of the scan of lines 238-252. *)
Record scan_state : Type := mkScan {
  sc_updated : bool;
  sc_mines : gset cell;
  sc_safes : gset cell;
  sc_done : list Sentence
}.

(** Lines 239-252 for one sentence; [ms] is [self.mines]. *)
Definition scan_step (ms : gset cell) (st : scan_state) (s : Sentence)
  : scan_state :=
  let st1 :=
    if truthy (Sentence.known_mines s)
    then mkScan true (sc_mines st ∪ Sentence.known_mines s) (sc_safes st)
                (sc_done st)
    else if truthy (Sentence.known_safes s)
    then mkScan true (sc_mines st) (sc_safes st ∪ Sentence.known_safes s)
                (sc_done st)
    else st in
  let discarded := filter (λ c, c ∈ ms) (cells s) in
  mkScan (sc_updated st1 || truthy discarded) (sc_mines st1) (sc_safes st1)
         (sc_done st1 ++ [mkSentence (cells s ∖ discarded) (count s)]).

(** Lines 238-252 *)
Definition scan (ai : AI) : scan_state :=
  foldl (scan_step (mines ai)) (mkScan false ∅ ∅ []) (knowledge ai).

(** Line 260 *)
Definition drop_empty (l : list Sentence) : list Sentence :=
  filter (λ s, cells s ≠ ∅) l.

(** Lines 265-269 for one pair [s1], [s2]; [kn] is [self.knowledge]. *)
Definition infer_step (kn : list Sentence) (s1 : Sentence)
    (st : bool * list Sentence) (s2 : Sentence) : bool * list Sentence :=
  if bool_decide (cells s1 ≠ cells s2) && bool_decide (cells s2 ⊆ cells s1)
  then
    let inference := mkSentence (cells s1 ∖ cells s2) (count s1 - count s2) in
    if negb (sentence_in inference kn) && negb (sentence_in inference st.2)
    then (true, st.2 ++ [inference])
    else st
  else st.

(** Lines 262-269 *)
Definition infer (kn : list Sentence) (upd : bool) : bool * list Sentence :=
  foldl (λ st s1, foldl (infer_step kn s1) st kn) (upd, []) kn.

(** Lines 234-271: the body of the loop; the flag is [kb_updated]. *)
Definition pass (ai : AI) : AI * bool :=
  let sc := scan ai in
  let ai1 := mkAI (height ai) (width ai) (moves_made ai) (mines ai)
                  (safes ai) (sc_done sc) in
  let ai2 := for_each mark_mine (sc_mines sc) ai1 in
  let ai3 := for_each mark_safe (sc_safes sc) ai2 in
  let kn := drop_empty (knowledge ai3) in
  let inf := infer kn (sc_updated sc) in
  (mkAI (height ai3) (width ai3) (moves_made ai3) (mines ai3) (safes ai3)
        (kn ++ inf.2), inf.1).

(** Lines 233-271: [while kb_updated], with a bound on the number of
    passes; [None] when the bound is reached before a pass leaves the flag
    false. *)
Fixpoint infer_loop (fuel : nat) (ai : AI) : option AI :=
  match fuel with
  | O => None
  | S fuel' =>
      let r := pass ai in
      if r.2 then infer_loop fuel' r.1 else Some r.1
  end.

(** Lines 197-227 *)
Definition observe (c : cell) (n : Z) (ai : AI) : AI :=
  let ai1 := mkAI (height ai) (width ai) ({[c]} ∪ moves_made ai)
                  (mines ai) (safes ai) (knowledge ai) in
  let ai2 := mark_safe c ai1 in
  append_new (new_sentence ai2 c n) ai2.

(** [MinesweeperAI.add_knowledge] *)
Definition add_knowledge (fuel : nat) (c : cell) (n : Z) (ai : AI)
  : option AI :=
  infer_loop fuel (observe c n ai).

(** ** Moves *)

(** [s.pop()] on a non-empty set: some element of the set is returned. *)
Inductive set_pop (s : gset cell) : cell → gset cell → Prop :=
  | set_pop_intro x : x ∈ s → set_pop s x (s ∖ {[x]}).

(** [MinesweeperAI.make_safe_move]: the value returned and the player
    afterwards. *)
Inductive make_safe_move (ai : AI) : option cell → AI → Prop :=
  | safe_move_pop x rest :
      truthy (safes ai ∖ moves_made ai) = true →
      set_pop (safes ai ∖ moves_made ai) x rest →
      make_safe_move ai (Some x) ai
  | safe_move_none :
      truthy (safes ai ∖ moves_made ai) = false →
      make_safe_move ai None ai.

(** [range(n)] *)
Definition range (n : Z) : list Z := Z.of_nat <$> seq 0 (Z.to_nat n).

(** Lines 296-300 of [make_random_move] *)
Definition all_cells (ai : AI) : gset cell :=
  foldl (λ acc r, foldl (λ acc' c, {[(r, c)]} ∪ acc') acc (range (height ai)))
        ∅ (range (width ai)).

(** Lines 296-303 *)
Definition available_cells (ai : AI) : gset cell :=
  all_cells ai ∖ moves_made ai ∖ mines ai.

(** [MinesweeperAI.make_random_move] *)
Inductive make_random_move (ai : AI) : option cell → AI → Prop :=
  | random_move_pop x rest :
      truthy (available_cells ai) = true →
      set_pop (available_cells ai) x rest →
      make_random_move ai (Some x) ai
  | random_move_none :
      truthy (available_cells ai) = false →
      make_random_move ai None ai.

(** The cells of the board: rows [0..height-1], columns [0..width-1]. *)
Definition on_board (h w : Z) (c : cell) : Prop :=
  0 ≤ c.1 < h ∧ 0 ≤ c.2 < w.

(** ** The board game *)

(** [class Minesweeper]: the height, the width and [self.board], the rows
    of booleans that say where the mines are.  The sets [self.mines] and
    [self.mines_found] play no part in what follows. *)
Record Minesweeper : Type := mkMinesweeper {
  g_height : Z;
  g_width : Z;
  board : list (list bool)
}.

(** [self.board[i][j]] for indexes that are not negative.  [__init__]
    builds [height] rows of [width] entries, and an entry that is missing
    reads as no mine. *)
Definition board_at (g : Minesweeper) (i j : Z) : bool :=
  default false (board g !! Z.to_nat i ≫= λ row, row !! Z.to_nat j).

(** [Minesweeper.is_mine], for a cell of the board. *)
Definition is_mine (g : Minesweeper) (c : cell) : bool :=
  board_at g c.1 c.2.

(** [Minesweeper.nearby_mines] *)
Definition nearby_mines (g : Minesweeper) (c : cell) : Z :=
  foldl (λ n i,
    foldl (λ n' j,
      if bool_decide ((i, j) = c) then n'
      else if bool_decide (0 ≤ i < g_height g) && bool_decide (0 ≤ j < g_width g)
      then (if board_at g i j then n' + 1 else n')
      else n') n (around c.2))
    0 (around c.1).

(** ** Notions used by the statements *)

(** The cell is on the board of [g] and holds a mine. *)
Definition mine_at (g : Minesweeper) (c : cell) : bool :=
  bool_decide (0 ≤ c.1 < g_height g) && bool_decide (0 ≤ c.2 < g_width g)
  && is_mine g c.

(** Number of the cells of [X] that hold a mine. *)
Definition mines_in (g : Minesweeper) (X : gset cell) : Z :=
  len (filter (λ c, mine_at g c = true) X).

(** A sentence tells the truth about the board [g]. *)
Definition truthful (g : Minesweeper) (s : Sentence) : Prop :=
  count s = mines_in g (cells s).

(** What the player knows agrees with the board [g]. *)
Record agrees (g : Minesweeper) (ai : AI) : Prop := mkAgrees {
  agrees_height : height ai = g_height g;
  agrees_width : width ai = g_width g;
  agrees_mines : ∀ c, c ∈ mines ai → mine_at g c = true;
  agrees_safes : ∀ c, c ∈ safes ai → mine_at g c = false;
  agrees_truthful : Forall (truthful g) (knowledge ai);
  agrees_purged : Forall (λ s, cells s ## mines ai) (knowledge ai)
}.

(** The players that a game on the board [g] produces: the runner clicks
    a cell that holds no mine and reports the number of mines around it,
    [ai.add_knowledge(move, game.nearby_mines(move))]. *)
Inductive played (g : Minesweeper) : AI → Prop :=
  | played_init : played g (init (g_height g) (g_width g))
  | played_click ai c fuel ai' :
      played g ai →
      mine_at g c = false →
      add_knowledge fuel c (nearby_mines g c) ai = Some ai' →
      played g ai'.

(** A call sequence of [add_knowledge], each call with its own bound. *)
Definition add_all (fuel : nat) (calls : list (cell * Z)) (ai : AI)
  : option AI :=
  foldl (λ o cn, o ≫= add_knowledge fuel cn.1 cn.2) (Some ai) calls.

(** The sentence invariant of the data model: [0 <= count <= |cells|]. *)
Definition in_range (s : Sentence) : Prop :=
  0 ≤ count s ≤ len (cells s).

(** All the subsets of the set of the cells of a list. *)
Fixpoint subsets (l : list cell) : list (gset cell) :=
  match l with
  | [] => [∅]
  | x :: l' => subsets l' ++ ((λ X, {[x]} ∪ X) <$> subsets l')
  end.

(** All the sets of cells that are included in [V]. *)
Definition powerset (V : gset cell) : gset (gset cell) :=
  list_to_set (subsets (elements V)).

(** The cells that occur in a list of sentences. *)
Definition cells_of (kn : list Sentence) : gset cell :=
  ⋃ (cells <$> kn).

(** The cell sets of the sentences of a list that are not empty. *)
Definition shapes (kn : list Sentence) : gset (gset cell) :=
  list_to_set (cells <$> drop_empty kn).

(** Lines 226-227 the way the specification words them: the sentence is
    inserted only when no equal sentence exists and its set is not empty. *)
Definition append_new_spec (s : Sentence) (ai : AI) : AI :=
  if sentence_in s (knowledge ai) || bool_decide (cells s = ∅) then ai
  else mkAI (height ai) (width ai) (moves_made ai) (mines ai) (safes ai)
            (knowledge ai ++ [s]).

(** [add_knowledge] with the insertion of the specification. *)
Definition add_knowledge_spec (fuel : nat) (c : cell) (n : Z) (ai : AI)
  : option AI :=
  let ai1 := mkAI (height ai) (width ai) ({[c]} ∪ moves_made ai)
                  (mines ai) (safes ai) (knowledge ai) in
  let ai2 := mark_safe c ai1 in
  infer_loop fuel (append_new_spec (new_sentence ai2 c n) ai2).

(** The nine cells that the two loops [range(row - 1, row + 2)] and
    [range(column - 1, column + 2)] visit, in the order of the visit. *)
Definition box (c : cell) : list cell :=
  concat ((λ r, (λ k, (r, k)) <$> around c.2) <$> around c.1).

(** The marks of a list of cells on one sentence. *)
Definition mark_mines (l : list cell) (s : Sentence) : Sentence :=
  foldl (λ s' c, Sentence.mark_mine c s') s l.

Definition mark_safes (l : list cell) (s : Sentence) : Sentence :=
  foldl (λ s' c, Sentence.mark_safe c s') s l.

(** Lines 246-252 on one sentence. *)
Definition purge (ms : gset cell) (s : Sentence) : Sentence :=
  mkSentence (cells s ∖ filter (λ c, c ∈ ms) (cells s)) (count s).

(** The sentence that lines 265-266 derive from [s1] and [s2]. *)
Definition difference (s1 s2 : Sentence) : Sentence :=
  mkSentence (cells s1 ∖ cells s2) (count s1 - count s2).

(** The test of line 265. *)
Definition proper_part (s1 s2 : Sentence) : Prop :=
  cells s1 ≠ cells s2 ∧ cells s2 ⊆ cells s1.

(** The scan of a pass concludes nothing from the sentence; [ms] is
    [self.mines]. *)
Definition idle (ms : gset cell) (s : Sentence) : Prop :=
  Sentence.known_mines s = ∅ ∧ Sentence.known_safes s = ∅ ∧ cells s ## ms.

(** The sentences that the inferences of a pass start from. *)
Definition marked (ai : AI) : list Sentence :=
  drop_empty (mark_safes (elements (sc_safes (scan ai)))
    <$> (mark_mines (elements (sc_mines (scan ai))) <$> sc_done (scan ai))).

(** The cell [C] is safe already, or a sentence holds it and either holds
    nothing else or another sentence holds its other cells. *)
Definition awaited (C : cell) (ai : AI) : Prop :=
  C ∈ safes ai
  ∨ ∃ s1, s1 ∈ knowledge ai ∧ C ∈ cells s1
          ∧ (cells s1 = {[C]}
             ∨ ∃ s2, s2 ∈ knowledge ai ∧ cells s2 = cells s1 ∖ {[C]}).

(** ** Players of the scenarios *)

(** A 1 x 2 board after [add_knowledge((0, 0), 1)]. *)
Definition ai_1x2 : AI := mkAI 1 2 {[(0, 0)]} {[(0, 1)]} {[(0, 0)]} [].

(** A 1 x 3 board after [add_knowledge((0, 0), 0)]. *)
Definition ai_1x3 : AI :=
  mkAI 1 3 {[(0, 0)]} ∅ {[(0, 0); (0, 1)]} [].

(** A 2 x 2 board after [add_knowledge((5, 5), 0)]. *)
Definition ai_2x2_off : AI := mkAI 2 2 {[(5, 5)]} ∅ {[(5, 5)]} [].

(** A 2 x 2 board after [add_knowledge((0, 0), 2)] and
    [add_knowledge((0, 1), 0)]. *)
Definition ai_2x2 : AI :=
  mkAI 2 2 {[(0, 0); (0, 1)]} {[(1, 0); (1, 1)]}
       {[(0, 0); (0, 1); (1, 0); (1, 1)]} [].

(** A 1 x 4 board after [add_knowledge((0, 0), 1)] and
    [add_knowledge((0, 2), 0)]. *)
Definition ai_1x4 : AI :=
  mkAI 1 4 {[(0, 0); (0, 2)]} {[(0, 1)]} {[(0, 0); (0, 2)]}
       [mkSentence {[(0, 3)]} (-1)].

(** A 2 x 3 board after [add_knowledge((0, 1), 1)] and
    [add_knowledge((1, 1), 5)]. *)
Definition ai_2x3 : AI :=
  mkAI 2 3 {[(0, 1); (1, 1)]} ∅ {[(0, 1); (1, 1)]}
       [mkSentence {[(0, 0); (0, 2); (1, 0); (1, 2)]} 1;
        mkSentence {[(0, 0); (0, 2); (1, 0); (1, 2)]} 5].

(** The three cell sets of the sentences of that player once the cell
    [(1, 0)] is clicked. *)
Definition far_cells : gset cell := {[(0, 0); (0, 2); (1, 2)]}.
Definition corner_cell : gset cell := {[(0, 0)]}.
Definition right_cells : gset cell := {[(0, 2); (1, 2)]}.

(** The sentences that the passes then produce without end. *)
Definition unsettled (s : Sentence) : Prop :=
  (cells s = far_cells ∧ (count s = 1 ∨ count s = 5))
  ∨ (cells s = corner_cell ∧ count s mod 4 = 2)
  ∨ (cells s = right_cells ∧ count s mod 4 = 3).

Record stuck (ai : AI) : Prop := mkStuck {
  stuck_mines : mines ai = ∅;
  stuck_one : mkSentence far_cells 1 ∈ knowledge ai;
  stuck_five : mkSentence far_cells 5 ∈ knowledge ai;
  stuck_corner : ∃ q, mkSentence corner_cell q ∈ knowledge ai;
  stuck_all : Forall unsettled (knowledge ai)
}.

(** A 2 x 2 board with one mine, at [(1, 1)], and the player after the
    click on [(0, 0)]. *)
Definition game_2x2 : Minesweeper :=
  mkMinesweeper 2 2 [[false; false]; [false; true]].

Definition ai_game_2x2 : AI :=
  mkAI 2 2 {[(0, 0)]} ∅ {[(0, 0)]}
       [mkSentence {[(0, 1); (1, 0); (1, 1)]} 1].

(** A 2 x 3 board with one mine, at [(0, 1)], and the player after the
    clicks on [(1, 2)] and [(0, 0)], both of which report one mine. *)
Definition game_2x3 : Minesweeper :=
  mkMinesweeper 2 3 [[false; true; false]; [false; false; false]].

Definition ai_game_2x3 : AI :=
  mkAI 2 3 {[(0, 0); (1, 2)]} ∅ {[(0, 0); (1, 2)]}
       [mkSentence {[(0, 1); (0, 2); (1, 1)]} 1;
        mkSentence {[(0, 1); (1, 0); (1, 1)]} 1].

(** That player after [add_knowledge((0, 2), 2)], a count that no board
    gives together with the two earlier ones. *)
Definition ai_preempted : AI :=
  mkAI 2 3 {[(0, 0); (0, 2); (1, 2)]} {[(0, 1); (1, 1)]}
       {[(0, 0); (0, 2); (1, 2)]} [mkSentence {[(1, 0)]} (-1)].

(** ** Notions used by the further properties *)

(** The players that calls of [add_knowledge] produce from a new player
    for a board of height [h] and width [w], whatever the cells and the
    counts of the calls. *)
Inductive called (h w : Z) : AI → Prop :=
  | called_init : called h w (init h w)
  | called_add ai c n fuel ai' :
      called h w ai →
      add_knowledge fuel c n ai = Some ai' →
      called h w ai'.

(** The shape that every call keeps: the moves made are safe cells, the
    known mines and the cells of the sentences are cells of the board,
    and no sentence holds a cell that is already known. *)
Record tidy (h w : Z) (ai : AI) : Prop := mkTidy {
  tidy_height : height ai = h;
  tidy_width : width ai = w;
  tidy_moves : moves_made ai ⊆ safes ai;
  tidy_mines : ∀ c, c ∈ mines ai → on_board h w c;
  tidy_safes : ∀ c, c ∈ safes ai → on_board h w c ∨ c ∈ moves_made ai;
  tidy_cells :
    Forall (λ s, cells s ## mines ai ∧ cells s ## safes ai
                 ∧ ∀ c, c ∈ cells s → on_board h w c) (knowledge ai)
}.

(** The player of the 1 x 4 board after its first call. *)
Definition ai_1x4_first : AI := mkAI 1 4 {[(0, 0)]} {[(0, 1)]} {[(0, 0)]} [].

(** A 1 x 3 board with one mine, at [(0, 2)]. *)
Definition game_1x3 : Minesweeper :=
  mkMinesweeper 1 3 [[false; false; true]].

(** [l[i]] as Python reads a list: a negative index counts from the end,
    and [None] stands for [IndexError]. *)
Definition py_index {A} (l : list A) (i : Z) : option A :=
  if bool_decide (0 ≤ i) then l !! Z.to_nat i
  else if bool_decide (- Z.of_nat (length l) ≤ i)
       then l !! Z.to_nat (Z.of_nat (length l) + i)
       else None.

(** The board that [Minesweeper.__init__] builds has [height] rows of
    [width] entries. *)
Definition well_formed (g : Minesweeper) : Prop :=
  Z.of_nat (length (board g)) = g_height g
  ∧ Forall (λ row, Z.of_nat (length row) = g_width g) (board g).

Module Board.

(** [Minesweeper.is_mine]: [self.board[i][j]], with no test of the
    indexes. *)
Definition is_mine (g : Minesweeper) (c : cell) : option bool :=
  py_index (board g) c.1 ≫= λ row, py_index row c.2.

(** Lines 70-76 of [Minesweeper.nearby_mines] for one cell [(i, j)]. *)
Definition nearby_step (g : Minesweeper) (c : cell) (i : Z)
    (n : option Z) (j : Z) : option Z :=
  n ≫= λ n',
    if bool_decide ((i, j) = c) then Some n'
    else if bool_decide (0 ≤ i < g_height g)
            && bool_decide (0 ≤ j < g_width g)
    then py_index (board g) i ≫= λ row : list bool,
         py_index row j ≫= λ b : bool, Some (if b then n' + 1 else n')
    else Some n'.

(** [Minesweeper.nearby_mines], reading the board as Python does. *)
Definition nearby_mines (g : Minesweeper) (c : cell) : option Z :=
  foldl (λ n i, foldl (nearby_step g c i) n (around c.2))
        (Some 0) (around c.1).

End Board.

(** The players that calls produce from a new player, with the calls
    that returned, the last one first. *)
Inductive recorded (h w : Z) : list (cell * Z) → AI → Prop :=
  | recorded_init : recorded h w [] (init h w)
  | recorded_add hist ai c n fuel ai' :
      recorded h w hist ai →
      add_knowledge fuel c n ai = Some ai' →
      recorded h w ((c, n) :: hist) ai'.

(** The sentence that lines 207-224 build for the cell [c] and the count
    [n] when the known mines are [M] and the safe cells are [S]. *)
Definition sentence_for (h w : Z) (M S : gset cell) (c : cell) (n : Z)
  : Sentence :=
  mkSentence (neighboring_cells h w c ∖ (M ∪ S))
             (n - len (filter (λ x, x ∈ M) (neighboring_cells h w c))).

(** Every call of the list has its sentence, as the sets now are, in the
    knowledge, unless that sentence has no cell left. *)
Definition remembers (h w : Z) (hist : list (cell * Z)) (ai : AI) : Prop :=
  ∀ c n, (c, n) ∈ hist →
    c ∈ moves_made ai
    ∧ (sentence_for h w (mines ai) (safes ai) c n ∈ knowledge ai
       ∨ cells (sentence_for h w (mines ai) (safes ai) c n) = ∅).

(** What [Minesweeper.__init__] comes to: the game and its set
    [self.mines]; the [ValueError] of [random.randrange] on an empty
    range; or a loop that still runs when the draws are used up. *)
Inductive construction : Type :=
  | Constructed (g : Minesweeper) (M : gset cell)
  | ValueError
  | Drawing.

(** Lines 18-23: the field with no mines. *)
Definition empty_field (h w : Z) : list (list bool) :=
  foldl (λ b _, b ++ [foldl (λ row _, row ++ [false]) [] (range w)])
        [] (range h).

(** Lines 26-31: the loop [while len(self.mines) != mines].  Each turn
    takes the two numbers that [random.randrange(height)] and
    [random.randrange(width)] return from the list of draws. *)
Fixpoint place_mines (h w m : Z) (draws : list cell)
    (b : list (list bool)) (M : gset cell) : construction :=
  if bool_decide (len M = m) then Constructed (mkMinesweeper h w b) M
  else if negb (bool_decide (0 < h) && bool_decide (0 < w)) then ValueError
  else match draws with
       | [] => Drawing
       | (i, j) :: draws' =>
           if board_at (mkMinesweeper h w b) i j
           then place_mines h w m draws' b M
           else place_mines h w m draws'
                  (alter (λ row, <[Z.to_nat j := true]> row) (Z.to_nat i) b)
                  ({[(i, j)]} ∪ M)
       end.

(** [Minesweeper.__init__], with the draws of the random generator. *)
Definition new_game (h w m : Z) (draws : list cell) : construction :=
  place_mines h w m draws (empty_field h w) ∅.


(** [s * n] on a string, as a list of characters: nothing when [n] is
    not positive. *)
Definition times (s : list ascii) (n : Z) : list ascii :=
  concat (replicate (Z.to_nat n) s).

(** ["--" * width + "-"] *)
Definition border (w : Z) : list ascii :=
  times ["-"; "-"]%char w ++ ["-"]%char.

(** What line 45 or line 47 prints for one entry. *)
Definition entry_text (b : bool) : list ascii :=
  if b then ["|"; "X"]%char else ["|"; " "]%char.

Module Printing.

(** Lines 43-48 of [Minesweeper.print]: the line of the row [i]. *)
Definition print_row (g : Minesweeper) (i : Z) : option (list ascii) :=
  foldl (λ line j,
           line ≫= λ t : list ascii,
           py_index (board g) i ≫= λ row : list bool,
           py_index row j ≫= λ b : bool, Some (t ++ entry_text b))
        (Some []) (range (g_width g))
  ≫= λ t : list ascii, Some (t ++ ["|"]%char).

(** [Minesweeper.print]: the lines written, in order; [None] stands for
    the [IndexError] of a board that lacks an entry. *)
Definition print (g : Minesweeper) : option (list (list ascii)) :=
  foldl (λ out i,
           out ≫= λ ls : list (list ascii),
           print_row g i ≫= λ r : list ascii,
           Some (ls ++ [border (g_width g); r]))
        (Some []) (range (g_height g))
  ≫= λ ls : list (list ascii), Some (ls ++ [border (g_width g)]).

End Printing.

(** The line of the row [i], in closed form. *)
Definition row_text (g : Minesweeper) (i : Z) : list ascii :=
  concat ((λ j, ["|"%char; if board_at g i j then "X"%char else " "%char])
            <$> range (g_width g)) ++ ["|"]%char.

(** * Properties *)

(** ** Loops *)

Section loops.
Context {A B : Type}.

(** A property that every turn of a loop keeps holds when the loop ends. *)
Lemma foldl_invariant (P : A → Prop) (f : A → B → A) (l : list B) (a : A) :
  P a → (∀ a' x, x ∈ l → P a' → P (f a' x)) → P (foldl f a l).
Proof.
  revert a. induction l as [|x l IH]; intros a Ha Hstep; simpl; [done|].
  apply IH.
  - apply Hstep; [left | done].
  - intros a' y Hy. apply Hstep. by right.
Qed.

Lemma foldl_pointwise (f f' : A → B → A) (l : list B) (a : A) :
  (∀ a' x, f a' x = f' a' x) → foldl f a l = foldl f' a l.
Proof.
  intros Hf. revert a. induction l as [|x l IH]; intros a; simpl; [done|].
  by rewrite Hf, IH.
Qed.

Lemma foldl_snoc (f : A → B → A) (l : list B) (x : B) (a : A) :
  foldl f a (l ++ [x]) = f (foldl f a l) x.
Proof. by rewrite foldl_app. Qed.
End loops.

Lemma truthy_true (X : gset cell) : truthy X = true ↔ X ≠ ∅.
Proof. unfold truthy. by rewrite bool_decide_eq_true. Qed.

Lemma truthy_false (X : gset cell) : truthy X = false ↔ X = ∅.
Proof.
  unfold truthy. rewrite bool_decide_eq_false.
  split; [|by intros ->; auto].
  intros H. destruct (decide (X = ∅)); [done | by destruct H].
Qed.

Lemma len_nonneg (X : gset cell) : 0 ≤ len X.
Proof. unfold len. lia. Qed.

Lemma len_empty : len ∅ = 0.
Proof. unfold len. by rewrite size_empty. Qed.

Lemma len_zero (X : gset cell) : len X = 0 → X = ∅.
Proof.
  unfold len. intros H. apply leibniz_equiv, size_empty_inv. lia.
Qed.

(** ** Marks on a sentence *)

Lemma cells_mark_mine c s :
  cells (Sentence.mark_mine c s) = cells s ∖ {[c]}.
Proof. unfold Sentence.mark_mine. case_bool_decide; simpl; set_solver. Qed.

Lemma cells_mark_safe c s :
  cells (Sentence.mark_safe c s) = cells s ∖ {[c]}.
Proof. unfold Sentence.mark_safe. case_bool_decide; simpl; set_solver. Qed.

Lemma count_mark_safe c s : count (Sentence.mark_safe c s) = count s.
Proof. unfold Sentence.mark_safe. by case_bool_decide. Qed.

Lemma cells_mark_mines l s :
  cells (mark_mines l s) = cells s ∖ list_to_set l.
Proof.
  unfold mark_mines. revert s.
  induction l as [|c l IH]; intros s; simpl; [set_solver|].
  rewrite IH, cells_mark_mine. set_solver.
Qed.

Lemma cells_mark_safes l s :
  cells (mark_safes l s) = cells s ∖ list_to_set l.
Proof.
  unfold mark_safes. revert s.
  induction l as [|c l IH]; intros s; simpl; [set_solver|].
  rewrite IH, cells_mark_safe. set_solver.
Qed.

Lemma count_mark_safes l s : count (mark_safes l s) = count s.
Proof.
  unfold mark_safes. revert s.
  induction l as [|c l IH]; intros s; simpl; [done|].
  by rewrite IH, count_mark_safe.
Qed.

Lemma mark_mines_empty l s : cells s = ∅ → mark_mines l s = s.
Proof.
  intros Hs. unfold mark_mines.
  apply (foldl_invariant (λ s', s' = s)); [done|].
  intros s' c _ ->. unfold Sentence.mark_mine.
  rewrite Hs. by rewrite bool_decide_eq_false_2 by set_solver.
Qed.

Lemma mark_safes_empty l s : cells s = ∅ → mark_safes l s = s.
Proof.
  intros Hs. unfold mark_safes.
  apply (foldl_invariant (λ s', s' = s)); [done|].
  intros s' c _ ->. unfold Sentence.mark_safe.
  rewrite Hs. by rewrite bool_decide_eq_false_2 by set_solver.
Qed.

(** ** Marks on the player *)

Lemma foldl_mark_mine l ai :
  foldl (λ acc x, mark_mine x acc) ai l
  = mkAI (height ai) (width ai) (moves_made ai)
         (list_to_set l ∪ mines ai) (safes ai)
         (mark_mines l <$> knowledge ai).
Proof.
  revert ai. induction l as [|c l IH]; intros ai; simpl.
  - destruct ai; simpl. f_equal; [set_solver|].
    unfold mark_mines. simpl. by rewrite list_fmap_id.
  - rewrite IH. unfold mark_mine at 1 2 3 4 5 6. simpl. f_equal; [set_solver|].
    rewrite <- list_fmap_compose. done.
Qed.

Lemma foldl_mark_safe l ai :
  foldl (λ acc x, mark_safe x acc) ai l
  = mkAI (height ai) (width ai) (moves_made ai)
         (mines ai) (list_to_set l ∪ safes ai)
         (mark_safes l <$> knowledge ai).
Proof.
  revert ai. induction l as [|c l IH]; intros ai; simpl.
  - destruct ai; simpl. f_equal; [set_solver|].
    unfold mark_safes. simpl. by rewrite list_fmap_id.
  - rewrite IH. unfold mark_safe at 1 2 3 4 5 6. simpl. f_equal; [set_solver|].
    rewrite <- list_fmap_compose. done.
Qed.

Lemma for_each_mark_mine X ai :
  for_each mark_mine X ai
  = mkAI (height ai) (width ai) (moves_made ai) (X ∪ mines ai) (safes ai)
         (mark_mines (elements X) <$> knowledge ai).
Proof.
  unfold for_each. rewrite foldl_mark_mine. f_equal.
  by rewrite list_to_set_elements_L.
Qed.

Lemma for_each_mark_safe X ai :
  for_each mark_safe X ai
  = mkAI (height ai) (width ai) (moves_made ai) (mines ai) (X ∪ safes ai)
         (mark_safes (elements X) <$> knowledge ai).
Proof.
  unfold for_each. rewrite foldl_mark_safe. f_equal.
  by rewrite list_to_set_elements_L.
Qed.

Lemma len_inter_insert (X L : gset cell) (c : cell) :
  c ∈ X → c ∉ L → len (X ∩ ({[c]} ∪ L)) = 1 + len ((X ∖ {[c]}) ∩ L).
Proof.
  intros Hin HcL.
  assert (X ∩ ({[c]} ∪ L) = {[c]} ∪ (X ∖ {[c]}) ∩ L) as ->.
  { apply leibniz_equiv, set_equiv. intros x.
    destruct (decide (x = c)) as [->|Hx]; set_solver. }
  unfold len. rewrite size_union by set_solver.
  rewrite size_singleton. lia.
Qed.

(** The order in which the loops of lines 254-258 visit a set does not
    matter: the marks of a list without repetition depend on the set of
    its elements only. *)
Lemma mark_mines_eq l s :
  NoDup l →
  mark_mines l s
  = mkSentence (cells s ∖ list_to_set l)
               (count s - len (cells s ∩ list_to_set l)).
Proof.
  intros Hl. revert s. induction Hl as [|c l Hc Hl IH]; intros s.
  - destruct s as [X k]. unfold mark_mines. simpl. f_equal.
    + set_solver.
    + assert (X ∩ ∅ = (∅ : gset cell)) as -> by set_solver.
      rewrite len_empty. lia.
  - change (mark_mines (c :: l) s)
      with (mark_mines l (Sentence.mark_mine c s)).
    rewrite IH, cells_mark_mine, list_to_set_cons. clear IH.
    f_equal; [set_solver|].
    unfold Sentence.mark_mine. case_bool_decide as Hin; simpl.
    + rewrite len_inter_insert; [lia | done |].
      by rewrite elem_of_list_to_set.
    + do 2 f_equal. clear -Hin. set_solver.
Qed.

Lemma mark_safes_eq l s :
  mark_safes l s = mkSentence (cells s ∖ list_to_set l) (count s).
Proof.
  rewrite <- (cells_mark_safes l s), <- (count_mark_safes l s).
  by destruct (mark_safes l s).
Qed.

Lemma for_each_mark_mine_eq X ai :
  for_each mark_mine X ai
  = mkAI (height ai) (width ai) (moves_made ai) (X ∪ mines ai) (safes ai)
         ((λ s, mkSentence (cells s ∖ X) (count s - len (cells s ∩ X)))
            <$> knowledge ai).
Proof.
  rewrite for_each_mark_mine. f_equal. apply list_fmap_ext.
  intros i s _. rewrite mark_mines_eq by apply NoDup_elements.
  by rewrite list_to_set_elements_L.
Qed.

Lemma for_each_mark_safe_eq X ai :
  for_each mark_safe X ai
  = mkAI (height ai) (width ai) (moves_made ai) (mines ai) (X ∪ safes ai)
         ((λ s, mkSentence (cells s ∖ X) (count s)) <$> knowledge ai).
Proof.
  rewrite for_each_mark_safe. f_equal. apply list_fmap_ext.
  intros i s _. by rewrite mark_safes_eq, list_to_set_elements_L.
Qed.

(** ** The scan of a pass *)

Lemma purge_disjoint ms s : cells s ## ms → purge ms s = s.
Proof.
  intros Hd. unfold purge. destruct s as [X n]; simpl in *. f_equal.
  set_solver.
Qed.

Lemma purge_cells ms s : cells (purge ms s) = cells s ∖ ms.
Proof. unfold purge; simpl. set_solver. Qed.

Lemma known_mines_subseteq s : Sentence.known_mines s ⊆ cells s.
Proof. unfold Sentence.known_mines. case_bool_decide; set_solver. Qed.

Lemma known_safes_subseteq s : Sentence.known_safes s ⊆ cells s.
Proof. unfold Sentence.known_safes. destruct (_ && _); set_solver. Qed.

Lemma known_mines_elem c s :
  c ∈ Sentence.known_mines s ↔ count s = len (cells s) ∧ c ∈ cells s.
Proof. unfold Sentence.known_mines. case_bool_decide; set_solver. Qed.

Lemma known_safes_elem c s :
  c ∈ Sentence.known_safes s ↔ count s = 0 ∧ c ∈ cells s.
Proof.
  unfold Sentence.known_safes, truthy.
  repeat case_bool_decide; simpl; set_solver.
Qed.

Lemma purge_all_disjoint ms l :
  Forall (λ s, cells s ## ms) l → purge ms <$> l = l.
Proof.
  induction 1 as [|s l Hs _ IH]; [done|].
  by rewrite fmap_cons, purge_disjoint, IH.
Qed.

(** What one turn of the scan does to each of its four variables. *)
Lemma scan_step_mines ms st s :
  sc_mines (scan_step ms st s) = sc_mines st ∪ Sentence.known_mines s.
Proof.
  unfold scan_step.
  destruct (truthy (Sentence.known_mines s)) eqn:Hm; simpl; [done|].
  apply truthy_false in Hm. rewrite Hm.
  destruct (truthy (Sentence.known_safes s)); simpl; set_solver.
Qed.

Lemma scan_step_safes ms st s :
  sc_safes (scan_step ms st s)
  = sc_safes st ∪ (if truthy (Sentence.known_mines s) then ∅
                   else Sentence.known_safes s).
Proof.
  unfold scan_step.
  destruct (truthy (Sentence.known_mines s)) eqn:Hm; simpl; [set_solver|].
  destruct (truthy (Sentence.known_safes s)) eqn:Hs; simpl; [done|].
  apply truthy_false in Hs. rewrite Hs. set_solver.
Qed.

Lemma scan_step_updated ms st s :
  sc_updated (scan_step ms st s)
  = sc_updated st || truthy (Sentence.known_mines s)
    || truthy (Sentence.known_safes s)
    || truthy (filter (λ c, c ∈ ms) (cells s)).
Proof.
  unfold scan_step.
  destruct (truthy (Sentence.known_mines s)); simpl;
    [by rewrite orb_true_r|].
  destruct (truthy (Sentence.known_safes s)); simpl;
    [by rewrite orb_true_r|].
  by rewrite !orb_false_r.
Qed.

Lemma scan_step_done ms st s :
  sc_done (scan_step ms st s) = sc_done st ++ [purge ms s].
Proof.
  unfold scan_step.
  destruct (truthy (Sentence.known_mines s)); simpl; [done|].
  by destruct (truthy (Sentence.known_safes s)).
Qed.

Lemma scan_done ms st l :
  sc_done (foldl (scan_step ms) st l) = sc_done st ++ (purge ms <$> l).
Proof.
  induction l as [|s l IH] using rev_ind; simpl; [by rewrite app_nil_r|].
  rewrite foldl_snoc, scan_step_done, IH, fmap_app. simpl.
  by rewrite app_assoc.
Qed.

Lemma scan_mines ms st l c :
  c ∈ sc_mines (foldl (scan_step ms) st l)
  ↔ c ∈ sc_mines st ∨ ∃ s, s ∈ l ∧ c ∈ Sentence.known_mines s.
Proof.
  induction l as [|s l IH] using rev_ind; simpl.
  - split; [auto|]. intros [?|(s & Hs & _)]; [done|]. by apply elem_of_nil in Hs.
  - rewrite foldl_snoc, scan_step_mines, elem_of_union, IH.
    setoid_rewrite elem_of_app. setoid_rewrite list_elem_of_singleton.
    naive_solver.
Qed.

Lemma scan_safes ms st l c :
  c ∈ sc_safes (foldl (scan_step ms) st l)
  ↔ c ∈ sc_safes st
    ∨ ∃ s, s ∈ l ∧ Sentence.known_mines s = ∅ ∧ c ∈ Sentence.known_safes s.
Proof.
  induction l as [|s l IH] using rev_ind; simpl.
  - split; [auto|]. intros [?|(s & Hs & _)]; [done|]. by apply elem_of_nil in Hs.
  - rewrite foldl_snoc, scan_step_safes, elem_of_union, IH.
    setoid_rewrite elem_of_app. setoid_rewrite list_elem_of_singleton.
    destruct (truthy (Sentence.known_mines s)) eqn:Hm.
    + apply truthy_true in Hm. set_solver.
    + apply truthy_false in Hm. naive_solver.
Qed.

Lemma scan_updated ms st l :
  sc_updated (foldl (scan_step ms) st l) = false
  ↔ sc_updated st = false ∧ Forall (idle ms) l.
Proof.
  induction l as [|s l IH] using rev_ind; simpl.
  - split; [by auto | by intros []].
  - rewrite foldl_snoc, scan_step_updated, !orb_false_iff, IH, !truthy_false.
    rewrite Forall_app, Forall_singleton. unfold idle.
    assert (filter (λ c, c ∈ ms) (cells s) = ∅ ↔ cells s ## ms)
      by set_solver.
    naive_solver.
Qed.

(** When nothing can be concluded, the scan changes nothing. *)
Lemma scan_idle ai :
  Forall (idle (mines ai)) (knowledge ai) →
  scan ai = mkScan false ∅ ∅ (knowledge ai).
Proof.
  intros Hidle. unfold scan.
  pose proof (scan_updated (mines ai) (mkScan false ∅ ∅ []) (knowledge ai))
    as Hu.
  pose proof (scan_done (mines ai) (mkScan false ∅ ∅ []) (knowledge ai))
    as Hd.
  destruct (foldl _ _ _) as [u M S d] eqn:E; simpl in *.
  assert (u = false) as -> by (apply Hu; auto).
  assert (M = ∅) as ->.
  { apply leibniz_equiv, elem_of_equiv_empty. intros c Hc.
    assert (c ∈ sc_mines (foldl (scan_step (mines ai)) (mkScan false ∅ ∅ [])
       (knowledge ai))) as Hc' by (by rewrite E).
    apply scan_mines in Hc' as [Hc'|(s & Hs & Hc')]; [set_solver|].
    rewrite Forall_forall in Hidle. destruct (Hidle s Hs) as (Hm & _).
    rewrite Hm in Hc'. set_solver. }
  assert (S = ∅) as ->.
  { apply leibniz_equiv, elem_of_equiv_empty. intros c Hc.
    assert (c ∈ sc_safes (foldl (scan_step (mines ai)) (mkScan false ∅ ∅ [])
       (knowledge ai))) as Hc' by (by rewrite E).
    apply scan_safes in Hc' as [Hc'|(s & Hs & _ & Hc')]; [set_solver|].
    rewrite Forall_forall in Hidle. destruct (Hidle s Hs) as (_ & Hm & _).
    rewrite Hm in Hc'. set_solver. }
  f_equal. rewrite Hd. apply purge_all_disjoint.
  eapply Forall_impl; [exact Hidle|]. by intros s (_ & _ & Hs).
Qed.

(** ** The inferences of a pass *)

Lemma infer_step_eq kn s1 st s2 :
  infer_step kn s1 st s2
  = if decide (proper_part s1 s2 ∧ difference s1 s2 ∉ kn
               ∧ difference s1 s2 ∉ st.2)
    then (true, st.2 ++ [difference s1 s2]) else st.
Proof.
  unfold infer_step, sentence_in, proper_part, difference.
  repeat (case_bool_decide || case_decide); simpl; naive_solver.
Qed.

Lemma infer_step_mono kn s1 st s2 i :
  i ∈ st.2 → i ∈ (infer_step kn s1 st s2).2.
Proof.
  rewrite infer_step_eq. case_decide; simpl; [|done].
  intros Hi. apply elem_of_app. by left.
Qed.

Lemma infer_step_covers kn s1 st s2 :
  proper_part s1 s2 →
  difference s1 s2 ∈ kn ∨ difference s1 s2 ∈ (infer_step kn s1 st s2).2.
Proof.
  intros Hp. rewrite infer_step_eq. case_decide as Hc; simpl.
  - right. apply elem_of_app. right. by apply list_elem_of_singleton.
  - destruct (decide (difference s1 s2 ∈ kn)); [by left|].
    destruct (decide (difference s1 s2 ∈ st.2)); [by right|].
    destruct Hc. done.
Qed.

Lemma infer_row_mono kn s1 l st i :
  i ∈ st.2 → i ∈ (foldl (infer_step kn s1) st l).2.
Proof.
  intros Hi. apply (foldl_invariant (λ st', i ∈ st'.2)); [done|].
  intros st' s2 _. apply infer_step_mono.
Qed.

Lemma infer_row_covers kn s1 l st s2 :
  s2 ∈ l → proper_part s1 s2 →
  difference s1 s2 ∈ kn
  ∨ difference s1 s2 ∈ (foldl (infer_step kn s1) st l).2.
Proof.
  revert st. induction l as [|x l IH]; intros st Hin Hp; simpl.
  - by apply elem_of_nil in Hin.
  - apply elem_of_cons in Hin as [->|Hin]; [|by apply IH].
    destruct (infer_step_covers kn s1 st x Hp) as [?|Hi]; [by left|].
    right. by apply infer_row_mono.
Qed.

Lemma infer_rows_mono kn l st i :
  i ∈ st.2 →
  i ∈ (foldl (λ st' s1, foldl (infer_step kn s1) st' kn) st l).2.
Proof.
  intros Hi. apply (foldl_invariant (λ st', i ∈ st'.2)); [done|].
  intros st' s1 _. apply infer_row_mono.
Qed.

Lemma infer_rows_covers kn l st s1 s2 :
  s1 ∈ l → s2 ∈ kn → proper_part s1 s2 →
  difference s1 s2 ∈ kn
  ∨ difference s1 s2
    ∈ (foldl (λ st' s1, foldl (infer_step kn s1) st' kn) st l).2.
Proof.
  revert st. induction l as [|x l IH]; intros st Hin1 Hin2 Hp; simpl.
  - by apply elem_of_nil in Hin1.
  - apply elem_of_cons in Hin1 as [->|Hin1]; [|by apply IH].
    destruct (infer_row_covers kn x kn st s2 Hin2 Hp) as [?|Hi]; [by left|].
    right. by apply infer_rows_mono.
Qed.

(** Every sentence that line 265 lets through is in the knowledge or among
    the inferences when the two loops end. *)
Lemma infer_complete kn upd s1 s2 :
  s1 ∈ kn → s2 ∈ kn → proper_part s1 s2 →
  difference s1 s2 ∈ kn ∨ difference s1 s2 ∈ (infer kn upd).2.
Proof. apply infer_rows_covers. Qed.

(** Every inference is new and comes from two sentences of the knowledge. *)
Lemma infer_sound kn upd i :
  i ∈ (infer kn upd).2 →
  i ∉ kn ∧ ∃ s1 s2, s1 ∈ kn ∧ s2 ∈ kn ∧ proper_part s1 s2
                    ∧ i = difference s1 s2.
Proof.
  unfold infer. revert i.
  apply (foldl_invariant (λ st, ∀ i, i ∈ st.2 → i ∉ kn ∧ ∃ s1 s2, s1 ∈ kn
    ∧ s2 ∈ kn ∧ proper_part s1 s2 ∧ i = difference s1 s2)).
  - simpl. intros i Hi. by apply elem_of_nil in Hi.
  - intros st s1 Hs1 Hst.
    apply (foldl_invariant (λ st, ∀ i, i ∈ st.2 → i ∉ kn ∧ ∃ s1 s2, s1 ∈ kn
      ∧ s2 ∈ kn ∧ proper_part s1 s2 ∧ i = difference s1 s2)); [done|].
    intros st' s2 Hs2 Hst' i. rewrite infer_step_eq.
    case_decide as Hc; simpl; [|by apply Hst'].
    rewrite elem_of_app, list_elem_of_singleton.
    intros [Hi| ->]; [by apply Hst'|]. naive_solver.
Qed.

(** The flag is raised by the inferences when one is added. *)
Lemma infer_flag kn upd :
  (infer kn upd).1 = true ↔ upd = true ∨ (infer kn upd).2 ≠ [].
Proof.
  unfold infer.
  apply (foldl_invariant (λ st, st.1 = true ↔ upd = true ∨ st.2 ≠ [])).
  - simpl. naive_solver.
  - intros st s1 _ Hst.
    apply (foldl_invariant (λ st, st.1 = true ↔ upd = true ∨ st.2 ≠ []));
      [done|].
    intros st' s2 _ Hst'. rewrite infer_step_eq.
    case_decide; simpl; [|done].
    split; [|done]. intros _. right. by destruct (st'.2).
Qed.

Lemma difference_nonempty s1 s2 :
  proper_part s1 s2 → cells (difference s1 s2) ≠ ∅.
Proof.
  intros [Hne Hsub] He. simpl in He. apply Hne.
  apply leibniz_equiv. apply set_equiv. intros c. split; [|by apply Hsub].
  intros Hc. destruct (decide (c ∈ cells s2)) as [|Hn]; [done|].
  assert (c ∈ cells s1 ∖ cells s2) as Hd by set_solver.
  rewrite He in Hd. set_solver.
Qed.

Lemma infer_nonempty kn upd i : i ∈ (infer kn upd).2 → cells i ≠ ∅.
Proof.
  intros Hi. apply infer_sound in Hi as (_ & s1 & s2 & _ & _ & Hp & ->).
  by apply difference_nonempty.
Qed.

Lemma drop_empty_elem s l : s ∈ drop_empty l ↔ cells s ≠ ∅ ∧ s ∈ l.
Proof. unfold drop_empty. by rewrite list_elem_of_filter. Qed.

Lemma drop_empty_all l : Forall (λ s, cells s ≠ ∅) l → drop_empty l = l.
Proof.
  unfold drop_empty. induction 1 as [|s l Hs _ IH]; [done|].
  by rewrite filter_cons_True, IH.
Qed.

(** ** One pass *)

Arguments pass : simpl never.

Lemma pass_eq ai :
  pass ai
  = (mkAI (height ai) (width ai) (moves_made ai)
          (sc_mines (scan ai) ∪ mines ai) (sc_safes (scan ai) ∪ safes ai)
          (marked ai ++ (infer (marked ai) (sc_updated (scan ai))).2),
     (infer (marked ai) (sc_updated (scan ai))).1).
Proof.
  unfold pass, marked. by rewrite for_each_mark_safe, for_each_mark_mine.
Qed.

Lemma pass_idle ai :
  Forall (idle (mines ai)) (knowledge ai) →
  pass ai
  = (mkAI (height ai) (width ai) (moves_made ai) (mines ai) (safes ai)
          (drop_empty (knowledge ai)
           ++ (infer (drop_empty (knowledge ai)) false).2),
     (infer (drop_empty (knowledge ai)) false).1).
Proof.
  intros Hidle. rewrite pass_eq. unfold marked.
  rewrite (scan_idle ai Hidle). simpl.
  rewrite elements_empty. unfold mark_mines, mark_safes. simpl.
  rewrite !list_fmap_id. f_equal. f_equal; set_solver.
Qed.

Lemma pass_safes_mono ai : safes ai ⊆ safes (pass ai).1.
Proof. rewrite pass_eq. simpl. set_solver. Qed.

Lemma pass_mines_mono ai : mines ai ⊆ mines (pass ai).1.
Proof. rewrite pass_eq. simpl. set_solver. Qed.

Lemma pass_moves_made ai : moves_made (pass ai).1 = moves_made ai.
Proof. by rewrite pass_eq. Qed.

Lemma infer_loop_S fuel ai :
  infer_loop (S fuel) ai
  = if (pass ai).2 then infer_loop fuel (pass ai).1 else Some (pass ai).1.
Proof. reflexivity. Qed.

Lemma infer_loop_safes_mono fuel ai ai' :
  infer_loop fuel ai = Some ai' → safes ai ⊆ safes ai'.
Proof.
  revert ai. induction fuel as [|fuel IH]; intros ai; [done|].
  rewrite infer_loop_S.
  pose proof (pass_safes_mono ai) as Hm.
  destruct (pass ai).2.
  - intros H. apply IH in H. set_solver.
  - intros [= <-]. done.
Qed.

(** More passes than needed change nothing. *)
Lemma infer_loop_more fuel fuel' ai ai' :
  infer_loop fuel ai = Some ai' → (fuel ≤ fuel')%nat →
  infer_loop fuel' ai = Some ai'.
Proof.
  revert fuel' ai. induction fuel as [|fuel IH]; intros fuel' ai; [done|].
  rewrite infer_loop_S.
  intros H Hle. destruct fuel' as [|fuel']; [lia|]. rewrite infer_loop_S.
  destruct (pass ai).2; [|done]. apply (IH fuel'); [done | lia].
Qed.

(** Every sentence that a pass leaves has cells. *)
Lemma pass_nonempty ai : Forall (λ s, cells s ≠ ∅) (knowledge (pass ai).1).
Proof.
  rewrite pass_eq. simpl. apply Forall_app. split; apply Forall_forall.
  - intros s Hs. unfold marked in Hs. by apply drop_empty_elem in Hs as [? _].
  - intros s. apply infer_nonempty.
Qed.

Lemma infer_loop_nonempty fuel ai ai' :
  infer_loop fuel ai = Some ai' → Forall (λ s, cells s ≠ ∅) (knowledge ai').
Proof.
  revert ai. induction fuel as [|fuel IH]; intros ai; [done|].
  rewrite infer_loop_S.
  pose proof (pass_nonempty ai) as Hn.
  destruct (pass ai).2; [apply IH|]. by intros [= <-].
Qed.

Lemma len_singleton (c : cell) : len {[c]} = 1.
Proof. unfold len. by rewrite size_singleton. Qed.

(** A sentence [{C} = 0] makes the scan of the next pass mark [C] safe. *)
Lemma pass_marks_safe ai C :
  mkSentence {[C]} 0 ∈ knowledge ai → C ∈ safes (pass ai).1.
Proof.
  intros Hin. rewrite pass_eq. simpl. apply elem_of_union. left.
  unfold scan. apply scan_safes. right.
  exists (mkSentence {[C]} 0). split; [done|]. split.
  - unfold Sentence.known_mines. simpl.
    rewrite len_singleton. by rewrite bool_decide_eq_false_2.
  - apply known_safes_elem. simpl. split; [done|set_solver].
Qed.

(** ** Moves *)

Lemma set_pop_elem (X : gset cell) x rest : set_pop X x rest → x ∈ X.
Proof. by destruct 1. Qed.

Lemma set_pop_total (X : gset cell) : X ≠ ∅ → ∃ x rest, set_pop X x rest.
Proof.
  intros HX. apply set_choose_L in HX as [x Hx].
  exists x, (X ∖ {[x]}). by constructor.
Qed.

(** C7. [make_safe_move] always returns; it returns an element of
    [safes - moves_made] when that set is not empty and [None] when
    [safes] is included in [moves_made]; the cell it returns is never in
    [moves_made]; and the player is left as it was. *)
Theorem make_safe_move_pure (ai : AI) :
  (∃ r, make_safe_move ai r ai)
  ∧ ∀ r ai', make_safe_move ai r ai' →
      ai' = ai
      ∧ (safes ai ∖ moves_made ai ≠ ∅ →
         ∃ x, r = Some x ∧ x ∈ safes ai ∖ moves_made ai)
      ∧ (safes ai ⊆ moves_made ai → r = None)
      ∧ (∀ x, r = Some x → x ∈ safes ai ∧ x ∉ moves_made ai).
Proof.
  split.
  - destruct (truthy (safes ai ∖ moves_made ai)) eqn:Ht.
    + pose proof Ht as Hne. apply truthy_true, set_pop_total in Hne
        as (x & rest & Hpop).
      exists (Some x). by eapply safe_move_pop.
    + exists None. by constructor.
  - intros r ai' Hmove.
    destruct Hmove as [x rest Ht Hpop | Ht].
    + apply set_pop_elem in Hpop. apply truthy_true in Ht.
      split; [done|]. split; [by eauto|]. split.
      * intros Hsub. set_solver.
      * intros y [= <-]. set_solver.
    + apply truthy_false in Ht.
      split; [done|]. split; [done|]. split; [done|]. by intros.
Qed.

(** C10. [make_random_move] always returns and leaves the player as it
    was: [moves_made], [safes], [mines] and [knowledge] are the same
    after the call. *)
Theorem make_random_move_frame (ai : AI) :
  (∃ r, make_random_move ai r ai)
  ∧ ∀ r ai', make_random_move ai r ai' →
      moves_made ai' = moves_made ai ∧ safes ai' = safes ai
      ∧ mines ai' = mines ai ∧ knowledge ai' = knowledge ai ∧ ai' = ai.
Proof.
  split.
  - destruct (truthy (available_cells ai)) eqn:Ht.
    + pose proof Ht as Hne. apply truthy_true, set_pop_total in Hne
        as (x & rest & Hpop).
      exists (Some x). by eapply random_move_pop.
    + exists None. by constructor.
  - by intros r ai' [x rest Ht Hpop | Ht].
Qed.

(** The cells that lines 298-300 of [make_random_move] build: the first
    component runs over [range(self.width)] and the second one over
    [range(self.height)]. *)
Lemma range_elem (n i : Z) : i ∈ range n ↔ 0 ≤ i < n.
Proof.
  unfold range. rewrite list_elem_of_fmap. split.
  - intros (k & -> & Hk). apply elem_of_seq in Hk. lia.
  - intros Hi. exists (Z.to_nat i). split; [lia|]. apply elem_of_seq. lia.
Qed.

Lemma all_cells_elem (ai : AI) (c : cell) :
  c ∈ all_cells ai ↔ 0 ≤ c.1 < width ai ∧ 0 ≤ c.2 < height ai.
Proof.
  unfold all_cells. rewrite <- !range_elem.
  generalize (range (width ai)) (range (height ai)). intros rows cols.
  assert (∀ r (acc : gset cell),
            c ∈ foldl (λ acc' k, {[(r, k)]} ∪ acc') acc cols
                   ↔ c ∈ acc ∨ (c.1 = r ∧ c.2 ∈ cols)) as Hrow.
  { intros r. induction cols as [|k cols IH]; intros acc; simpl.
    - rewrite elem_of_nil. naive_solver.
    - rewrite IH, elem_of_union, elem_of_singleton, elem_of_cons.
      destruct c as [c1 c2]; simpl. naive_solver. }
  assert (∀ acc : gset cell,
            c ∈ foldl (λ acc r, foldl (λ acc' k, {[(r, k)]} ∪ acc')
                                       acc cols) acc rows
                 ↔ c ∈ acc ∨ (c.1 ∈ rows ∧ c.2 ∈ cols)) as Hall.
  { induction rows as [|r rows IH]; intros acc; simpl.
    - rewrite elem_of_nil. naive_solver.
    - rewrite IH, Hrow, elem_of_cons. naive_solver. }
  rewrite Hall. set_solver.
Qed.

(** What [make_random_move] returns on any board: a cell that is not a
    move made nor a known mine, with its first component below the width
    and its second one below the height. *)
Lemma make_random_move_result ai r ai' :
  make_random_move ai r ai' →
  match r with
  | Some x => (0 ≤ x.1 < width ai ∧ 0 ≤ x.2 < height ai)
              ∧ x ∉ moves_made ai ∧ x ∉ mines ai
  | None => ∀ x, 0 ≤ x.1 < width ai → 0 ≤ x.2 < height ai →
                 x ∈ moves_made ai ∪ mines ai
  end.
Proof.
  intros [x rest Ht Hpop | Ht].
  - apply set_pop_elem in Hpop. unfold available_cells in Hpop.
    apply elem_of_difference in Hpop as [Hpop Hm].
    apply elem_of_difference in Hpop as [Hpop Hmv].
    by apply all_cells_elem in Hpop.
  - apply truthy_false in Ht. intros x H1 H2.
    destruct (decide (x ∈ moves_made ai ∪ mines ai)) as [|Hn]; [done|].
    assert (x ∈ available_cells ai) as Hx.
    { unfold available_cells. rewrite !elem_of_difference.
      rewrite all_cells_elem. clear -H1 H2 Hn. set_solver. }
    rewrite Ht in Hx. by apply not_elem_of_empty in Hx.
Qed.

(** On a square board the cell returned is a cell of the board. *)
Lemma make_random_move_square ai x ai' :
  height ai = width ai → make_random_move ai (Some x) ai' →
  on_board (height ai) (width ai) x ∧ x ∉ moves_made ai ∪ mines ai.
Proof.
  intros Hsq Hmove. apply make_random_move_result in Hmove
    as ([H1 H2] & Hmv & Hm).
  unfold on_board. rewrite Hsq in *. split; [done|].
  clear -Hmv Hm. set_solver.
Qed.

(** C6. On the 1 x 2 board, after [add_knowledge((0, 0), 1)],
    [make_random_move] returns [(1, 0)] and nothing else: a cell that is
    not on the board, while the cell [(0, 1)] of the board is the known
    mine. *)
Theorem make_random_move_off_board :
  add_knowledge 2 (0, 0) 1 (init 1 2) = Some ai_1x2
  ∧ make_random_move ai_1x2 (Some (1, 0)) ai_1x2
  ∧ (∀ r ai', make_random_move ai_1x2 r ai' → r = Some (1, 0))
  ∧ ¬ on_board (height ai_1x2) (width ai_1x2) (1, 0).
Proof.
  assert (available_cells ai_1x2 = {[(1, 0)]}) as Hav
    by (vm_compute; reflexivity).
  split; [vm_compute; reflexivity|]. split; [|split].
  - eapply random_move_pop.
    + rewrite Hav. by apply truthy_true.
    + constructor. rewrite Hav. set_solver.
  - intros r ai' [x rest Ht Hpop | Ht].
    + apply set_pop_elem in Hpop. rewrite Hav in Hpop.
      apply elem_of_singleton in Hpop. by subst.
    + rewrite Hav in Ht. apply truthy_false in Ht. set_solver.
  - unfold on_board. simpl. lia.
Qed.

(** ** The sentence of an observation *)

Lemma known_mines_empty s : cells s = ∅ → Sentence.known_mines s = ∅.
Proof. intros Hs. unfold Sentence.known_mines. rewrite Hs. by case_bool_decide. Qed.

Lemma known_safes_empty s : cells s = ∅ → Sentence.known_safes s = ∅.
Proof.
  intros Hs. unfold Sentence.known_safes. rewrite Hs.
  by destruct (_ && _).
Qed.

Lemma scan_step_empty ms st e :
  cells e = ∅ →
  scan_step ms st e
  = mkScan (sc_updated st) (sc_mines st) (sc_safes st) (sc_done st ++ [e]).
Proof.
  intros He. unfold scan_step.
  rewrite known_mines_empty, known_safes_empty by done.
  assert (truthy ∅ = false) as -> by by apply truthy_false.
  assert (filter (λ c, c ∈ ms) (cells e) = ∅) as -> by set_solver.
  assert (truthy ∅ = false) as -> by by apply truthy_false.
  rewrite orb_false_r. f_equal. f_equal.
  destruct e as [X k]; simpl in *. f_equal. set_solver.
Qed.

Lemma drop_empty_snoc l e : cells e = ∅ → drop_empty (l ++ [e]) = drop_empty l.
Proof.
  intros He. unfold drop_empty. rewrite filter_app.
  rewrite filter_cons_False by (by intros Hn). simpl.
  by rewrite app_nil_r.
Qed.

(** A sentence without cells at the end of the knowledge does not change
    what a pass computes: line 260 removes it, and nothing reads it
    before. *)
Lemma pass_snoc_empty h w mv ms sf kn e :
  cells e = ∅ →
  pass (mkAI h w mv ms sf (kn ++ [e])) = pass (mkAI h w mv ms sf kn).
Proof.
  intros He. rewrite !pass_eq.
  assert (scan (mkAI h w mv ms sf (kn ++ [e]))
          = mkScan (sc_updated (scan (mkAI h w mv ms sf kn)))
                   (sc_mines (scan (mkAI h w mv ms sf kn)))
                   (sc_safes (scan (mkAI h w mv ms sf kn)))
                   (sc_done (scan (mkAI h w mv ms sf kn)) ++ [e])) as Hscan.
  { unfold scan. simpl. rewrite foldl_snoc. by apply scan_step_empty. }
  assert (marked (mkAI h w mv ms sf (kn ++ [e]))
          = marked (mkAI h w mv ms sf kn)) as Hmarked.
  { unfold marked. rewrite Hscan. simpl.
    rewrite !fmap_app. simpl.
    rewrite (mark_mines_empty _ e He), (mark_safes_empty _ e He).
    by apply drop_empty_snoc. }
  rewrite Hmarked, Hscan. done.
Qed.

Lemma AI_eta ai :
  mkAI (height ai) (width ai) (moves_made ai) (mines ai) (safes ai)
       (knowledge ai) = ai.
Proof. by destruct ai. Qed.

Lemma infer_loop_pass fuel ai1 ai2 :
  pass ai1 = pass ai2 → infer_loop fuel ai1 = infer_loop fuel ai2.
Proof.
  intros Hp. destruct fuel as [|fuel]; [done|].
  by rewrite !infer_loop_S, Hp.
Qed.

(** C5. [add_knowledge] gives the result that it would give if lines
    226-227 inserted the new sentence only when no equal sentence exists
    and its cell set is not empty: a new sentence without cells is removed
    by line 260 of the first pass before anything reads it, and no
    sentence without cells is in the knowledge when [add_knowledge]
    returns. *)
Theorem empty_sentence_dropped (fuel : nat) (c : cell) (n : Z) (ai : AI) :
  add_knowledge fuel c n ai = add_knowledge_spec fuel c n ai
  ∧ ∀ ai', add_knowledge fuel c n ai = Some ai' →
           Forall (λ s, cells s ≠ ∅) (knowledge ai').
Proof.
  split; [|intros ai'; apply infer_loop_nonempty].
  unfold add_knowledge, add_knowledge_spec, observe.
  set (ai2 := mark_safe c _). set (s := new_sentence ai2 c n).
  unfold append_new, append_new_spec.
  destruct (sentence_in s (knowledge ai2)); [done|].
  rewrite orb_false_l. case_bool_decide as He; [|done].
  apply infer_loop_pass. rewrite (pass_snoc_empty _ _ _ _ _ _ _ He).
  by rewrite AI_eta.
Qed.

(** ** Counting the mines of a set of cells *)

Section board.
Variable g : Minesweeper.

Lemma mines_in_split X Y :
  Y ⊆ X → mines_in g X = mines_in g (X ∖ Y) + mines_in g Y.
Proof.
  intros Hsub. unfold mines_in, len.
  rewrite <- Nat2Z.inj_add, <- size_union by set_solver.
  do 2 f_equal. apply leibniz_equiv. apply set_equiv. intros c.
  rewrite elem_of_union, !elem_of_filter, elem_of_difference.
  destruct (decide (c ∈ Y)); naive_solver.
Qed.

Lemma mines_in_bounds X : 0 ≤ mines_in g X ≤ len X.
Proof.
  unfold mines_in, len. split; [lia|].
  apply inj_le, subseteq_size. set_solver.
Qed.

Lemma mines_in_empty : mines_in g ∅ = 0.
Proof. pose proof (mines_in_bounds ∅). rewrite len_empty in *. lia. Qed.

Lemma mines_in_all X :
  (∀ c, c ∈ X → mine_at g c = true) → mines_in g X = len X.
Proof.
  intros HX. unfold mines_in. f_equal. apply leibniz_equiv.
  apply set_equiv. intros c. rewrite elem_of_filter. naive_solver.
Qed.

Lemma mines_in_none X :
  (∀ c, c ∈ X → mine_at g c = false) → mines_in g X = 0.
Proof.
  intros HX. unfold mines_in.
  assert (filter (λ c, mine_at g c = true) X = ∅) as ->; [|apply len_empty].
  apply leibniz_equiv. apply elem_of_equiv_empty. intros c.
  rewrite elem_of_filter. intros [Hm Hc]. rewrite (HX c Hc) in Hm. done.
Qed.

Lemma mines_in_zero X c : mines_in g X = 0 → c ∈ X → mine_at g c = false.
Proof.
  intros H0 Hc. apply len_zero in H0.
  destruct (mine_at g c) eqn:Hm; [|done].
  assert (c ∈ filter (λ c, mine_at g c = true) X)
    as Hin by (by apply elem_of_filter).
  rewrite H0 in Hin. set_solver.
Qed.

Lemma mines_in_full X c :
  mines_in g X = len X → c ∈ X → mine_at g c = true.
Proof.
  intros Hfull Hc. destruct (mine_at g c) eqn:Hm; [done|].
  pose proof (mines_in_split X {[c]}) as Hs.
  rewrite (mines_in_none {[c]}) in Hs by set_solver.
  pose proof (mines_in_bounds (X ∖ {[c]})) as Hb.
  assert (len X = len (X ∖ {[c]}) + 1) as Hl.
  { unfold len. rewrite size_difference by set_solver.
    rewrite size_singleton.
    assert (size X ≠ 0%nat); [|lia].
    intros H0. apply size_empty_inv in H0. set_solver. }
  assert ({[c]} ⊆ X) as Hsub by set_solver. specialize (Hs Hsub). lia.
Qed.

Lemma mines_in_remove X c :
  c ∈ X →
  mines_in g (X ∖ {[c]}) = mines_in g X - (if mine_at g c then 1 else 0).
Proof.
  intros Hc. rewrite (mines_in_split X {[c]}) by set_solver.
  destruct (mine_at g c) eqn:Hm.
  - rewrite (mines_in_all {[c]}), len_singleton; [lia|].
    intros c' Hc'. apply elem_of_singleton in Hc'. by subst.
  - rewrite (mines_in_none {[c]}); [lia|].
    intros c' Hc'. apply elem_of_singleton in Hc'. by subst.
Qed.

(** ** Sentences that tell the truth *)

Lemma truthful_in_range s : truthful g s → in_range s.
Proof. unfold truthful, in_range. intros ->. apply mines_in_bounds. Qed.

Lemma truthful_mark_mine c s :
  mine_at g c = true → truthful g s → truthful g (Sentence.mark_mine c s).
Proof.
  unfold truthful, Sentence.mark_mine. intros Hm Hs.
  case_bool_decide; simpl; [|done].
  rewrite mines_in_remove, Hm by done. lia.
Qed.

Lemma truthful_mark_safe c s :
  mine_at g c = false → truthful g s → truthful g (Sentence.mark_safe c s).
Proof.
  unfold truthful, Sentence.mark_safe. intros Hm Hs.
  case_bool_decide; simpl; [|done].
  rewrite mines_in_remove, Hm by done. lia.
Qed.

Lemma truthful_difference s1 s2 :
  cells s2 ⊆ cells s1 → truthful g s1 → truthful g s2 →
  truthful g (difference s1 s2).
Proof.
  unfold truthful, difference. simpl. intros Hsub -> ->.
  rewrite (mines_in_split (cells s1) (cells s2)) by done. lia.
Qed.

Lemma truthful_known_mines s c :
  truthful g s → c ∈ Sentence.known_mines s → mine_at g c = true.
Proof.
  unfold truthful. intros Hs Hc. apply known_mines_elem in Hc as [Hn Hc].
  apply (mines_in_full (cells s)); [congruence | done].
Qed.

Lemma truthful_known_safes s c :
  truthful g s → c ∈ Sentence.known_safes s → mine_at g c = false.
Proof.
  unfold truthful. intros Hs Hc. apply known_safes_elem in Hc as [Hn Hc].
  apply (mines_in_zero (cells s)); [congruence | done].
Qed.

(** Two sentences that tell the truth about the same cells are equal. *)
Lemma truthful_same_cells s1 s2 :
  truthful g s1 → truthful g s2 → cells s1 = cells s2 → s1 = s2.
Proof.
  unfold truthful. destruct s1, s2; simpl. intros -> -> ->. done.
Qed.

End board.

(** ** The neighbours of a cell *)

Lemma fold_row_set (p : cell → bool) (r : Z) (ks : list Z) (acc : gset cell) :
  foldl (λ acc' k, if p (r, k) then {[(r, k)]} ∪ acc' else acc') acc ks
  = list_to_set (filter (λ x, p x = true) ((λ k, (r, k)) <$> ks)) ∪ acc.
Proof.
  revert acc. induction ks as [|k ks IH]; intros acc; csimpl; [set_solver|].
  rewrite IH, filter_cons.
  destruct (p (r, k)) eqn:Hp.
  - rewrite decide_True by done. set_solver.
  - rewrite decide_False by (by intros ?). done.
Qed.

Lemma fold_rows_set (p : cell → bool) (rs ks : list Z) (acc : gset cell) :
  foldl (λ acc r,
    foldl (λ acc' k, if p (r, k) then {[(r, k)]} ∪ acc' else acc') acc ks)
    acc rs
  = list_to_set (filter (λ x, p x = true)
      (concat ((λ r, (λ k, (r, k)) <$> ks) <$> rs))) ∪ acc.
Proof.
  revert acc. induction rs as [|r rs IH]; intros acc; csimpl; [set_solver|].
  rewrite IH, fold_row_set, filter_app, list_to_set_app_L. set_solver.
Qed.

Lemma fold_row_count (q : cell → bool) (r : Z) (ks : list Z) (n : Z) :
  foldl (λ n' k, if q (r, k) then n' + 1 else n') n ks
  = n + Z.of_nat (length (filter (λ x, q x = true) ((λ k, (r, k)) <$> ks))).
Proof.
  revert n. induction ks as [|k ks IH]; intros n; csimpl; [lia|].
  rewrite IH, filter_cons.
  destruct (q (r, k)) eqn:Hq.
  - rewrite decide_True by done. rewrite length_cons. lia.
  - rewrite decide_False by (by intros ?). done.
Qed.

Lemma fold_rows_count (q : cell → bool) (rs ks : list Z) (n : Z) :
  foldl (λ n r, foldl (λ n' k, if q (r, k) then n' + 1 else n') n ks) n rs
  = n + Z.of_nat (length (filter (λ x, q x = true)
          (concat ((λ r, (λ k, (r, k)) <$> ks) <$> rs)))).
Proof.
  revert n. induction rs as [|r rs IH]; intros n; csimpl; [lia|].
  rewrite IH, fold_row_count, filter_app, length_app. lia.
Qed.

Lemma box_NoDup c : NoDup (box c).
Proof.
  destruct c as [r k]. unfold box, around. simpl.
  repeat (apply NoDup_cons; split;
    [rewrite ?elem_of_cons, elem_of_nil; intros H;
     repeat (destruct H as [H|H]); try done; simplify_eq; lia|]).
  apply NoDup_nil_2.
Qed.

Lemma neighboring_cells_box h w c :
  neighboring_cells h w c
  = list_to_set (filter (λ x, x ≠ c ∧ on_board h w x) (box c)).
Proof.
  pose (p := λ x : cell, bool_decide (x ≠ c) && bool_decide (0 ≤ x.1 < h)
                         && bool_decide (0 ≤ x.2 < w)).
  assert (neighboring_cells h w c
          = foldl (λ acc r, foldl (λ acc' k,
              if p (r, k) then {[(r, k)]} ∪ acc' else acc') acc (around c.2))
              ∅ (around c.1)) as -> by reflexivity.
  rewrite fold_rows_set, union_empty_r_L. unfold p. f_equal. apply list_filter_iff. intros x.
  unfold on_board. rewrite !andb_true_iff, !bool_decide_eq_true. tauto.
Qed.

Lemma neighboring_cells_elem h w c x :
  x ∈ neighboring_cells h w c
  ↔ x ≠ c ∧ on_board h w x ∧ c.1 - 1 ≤ x.1 ≤ c.1 + 1
    ∧ c.2 - 1 ≤ x.2 ≤ c.2 + 1.
Proof.
  rewrite neighboring_cells_box, elem_of_list_to_set, list_elem_of_filter.
  destruct c as [r k], x as [i j]. unfold box, around. simpl.
  rewrite !elem_of_cons, elem_of_nil. split.
  - intros [[Hne Hb] Hin]. split; [done|]. split; [done|].
    repeat (destruct Hin as [Hin|Hin]); try done; simplify_eq; lia.
  - intros (Hne & Hb & Hi & Hj). split; [done|].
    assert (i = r - 1 ∨ i = r ∨ i = r + 1) as Hi' by lia.
    assert (j = k - 1 ∨ j = k ∨ j = k + 1) as Hj' by lia.
    destruct Hi' as [->|[->| ->]], Hj' as [->|[->| ->]]; tauto.
Qed.

Lemma filter_list_to_set (P : cell → Prop) `{!∀ x, Decision (P x)} l :
  filter P (list_to_set l : gset cell) = list_to_set (filter P l).
Proof.
  apply leibniz_equiv, set_equiv. intros x.
  rewrite elem_of_filter, !elem_of_list_to_set, list_elem_of_filter. done.
Qed.

Lemma size_filter_list_to_set (P : cell → Prop) `{!∀ x, Decision (P x)} l :
  NoDup l → size (filter P (list_to_set l : gset cell)) = length (filter P l).
Proof.
  intros Hl. rewrite filter_list_to_set.
  apply size_list_to_set. by apply NoDup_filter.
Qed.

Lemma length_filter_elements (P : cell → Prop) `{!∀ x, Decision (P x)}
    (X : gset cell) :
  length (filter P (elements X)) = size (filter P X).
Proof.
  rewrite <- (list_to_set_elements_L X) at 2.
  rewrite size_filter_list_to_set; [done | apply NoDup_elements].
Qed.

(** [nearby_mines] counts the mines of the neighbours that
    [add_knowledge] collects. *)
Lemma nearby_mines_eq g c :
  nearby_mines g c = mines_in g (neighboring_cells (g_height g) (g_width g) c).
Proof.
  pose (q := λ x : cell, negb (bool_decide (x = c))
    && (bool_decide (0 ≤ x.1 < g_height g)
        && bool_decide (0 ≤ x.2 < g_width g))
    && board_at g x.1 x.2).
  assert (nearby_mines g c
          = foldl (λ n r, foldl (λ n' k, if q (r, k) then n' + 1 else n')
                            n (around c.2)) 0 (around c.1)) as ->.
  { unfold nearby_mines. apply foldl_pointwise. intros n i.
    apply foldl_pointwise. intros n' j. unfold q. simpl.
    case_bool_decide; simpl; [done|].
    by destruct (_ && _), (board_at g i j). }
  rewrite fold_rows_count. unfold q.
  unfold mines_in, len. rewrite neighboring_cells_box.
    rewrite size_filter_list_to_set
      by (apply NoDup_filter, box_NoDup).
    rewrite list_filter_filter. rewrite Z.add_0_l. do 2 f_equal.
    apply list_filter_iff. intros x. unfold mine_at, is_mine, on_board.
    rewrite !andb_true_iff, negb_true_iff, bool_decide_eq_false,
      !bool_decide_eq_true. tauto.
Qed.

(** ** The sentence of a click *)

Lemma foldl_invalid_step ai l I k :
  foldl (λ acc x, invalid_step ai x acc) (I, k) l
  = (list_to_set (filter (λ x, x ∈ mines ai ∪ safes ai) l) ∪ I,
     k - Z.of_nat (length (filter (λ x, x ∈ mines ai) l))).
Proof.
  revert I k. induction l as [|x l IH]; intros I k; csimpl.
  - f_equal; [set_solver | lia].
  - destruct (invalid_step ai x (I, k)) as [I' k'] eqn:E. rewrite IH.
    unfold invalid_step in E. simpl in E. rewrite !filter_cons.
    destruct (decide (x ∈ mines ai)) as [Hm|Hm],
             (decide (x ∈ safes ai)) as [Hs|Hs];
      repeat case_bool_decide; try done; simpl in E; simplify_eq;
      repeat case_decide; try set_solver;
      rewrite ?length_cons; f_equal; first [lia | set_solver].
Qed.

(** Lines 207-224 in closed form: the neighbours that are neither known
    mines nor known safe cells, and the count less the known mines among
    the neighbours. *)
Lemma new_sentence_eq ai c n :
  new_sentence ai c n
  = mkSentence
      (neighboring_cells (height ai) (width ai) c ∖ (mines ai ∪ safes ai))
      (n - len (filter (λ x, x ∈ mines ai)
                  (neighboring_cells (height ai) (width ai) c))).
Proof.
  unfold new_sentence, for_each. rewrite foldl_invalid_step. simpl.
  rewrite length_filter_elements. unfold len. f_equal.
  apply leibniz_equiv, set_equiv. intros x.
  rewrite !elem_of_difference, elem_of_union, elem_of_list_to_set,
    list_elem_of_filter, elem_of_elements. set_solver.
Qed.

Lemma sentence_in_true s l : sentence_in s l = true ↔ s ∈ l.
Proof. unfold sentence_in. apply bool_decide_eq_true. Qed.

Lemma observe_moves_made c n ai :
  moves_made (observe c n ai) = {[c]} ∪ moves_made ai.
Proof. unfold observe, append_new. by destruct (sentence_in _ _). Qed.

Lemma observe_safes c n ai : safes (observe c n ai) = {[c]} ∪ safes ai.
Proof. unfold observe, append_new. by destruct (sentence_in _ _). Qed.

Lemma observe_mines c n ai : mines (observe c n ai) = mines ai.
Proof. unfold observe, append_new. by destruct (sentence_in _ _). Qed.

Lemma infer_loop_moves_made fuel ai ai' :
  infer_loop fuel ai = Some ai' → moves_made ai' = moves_made ai.
Proof.
  revert ai. induction fuel as [|fuel IH]; intros ai; [done|].
  rewrite infer_loop_S. pose proof (pass_moves_made ai) as Hm.
  destruct (pass ai).2.
  - intros H. apply IH in H. congruence.
  - by intros [= <-].
Qed.

(** The cell of a call is a move made and a safe cell when the call
    returns. *)
Lemma add_knowledge_records fuel c n ai ai' :
  add_knowledge fuel c n ai = Some ai' → c ∈ moves_made ai' ∧ c ∈ safes ai'.
Proof.
  unfold add_knowledge. intros H. split.
  - apply infer_loop_moves_made in H. rewrite H, observe_moves_made.
    set_solver.
  - apply infer_loop_safes_mono in H. rewrite observe_safes in H.
    set_solver.
Qed.

Lemma filter_elem_subseteq (K X : gset cell) : filter (λ x, x ∈ K) X ⊆ X.
Proof. set_solver. Qed.

Lemma difference_filter_elem (K X : gset cell) :
  X ∖ filter (λ x, x ∈ K) X = X ∖ K.
Proof. set_solver. Qed.

Section game.
Variable g : Minesweeper.

(** ** A click keeps the player in agreement with the board *)

Lemma agrees_observe ai c :
  agrees g ai → mine_at g c = false →
  agrees g (observe c (nearby_mines g c) ai).
Proof.
  intros [Hh Hw Hm Hs Ht Hp] Hc.
  assert (agrees g (mark_safe c (mkAI (height ai) (width ai)
    ({[c]} ∪ moves_made ai) (mines ai) (safes ai) (knowledge ai))))
    as Hag2.
  { split; simpl; try done.
    - intros x [->%elem_of_singleton|Hx]%elem_of_union; auto.
    - apply Forall_fmap. eapply Forall_impl; [exact Ht|].
      intros s. simpl. by apply truthful_mark_safe.
    - apply Forall_fmap. eapply Forall_impl; [exact Hp|].
      intros s. simpl. rewrite cells_mark_safe. set_solver. }
  unfold observe. set (ai2 := mark_safe c _) in *.
  set (s := new_sentence ai2 c (nearby_mines g c)).
  assert (truthful g s ∧ cells s ## mines ai2) as [Hts Hps].
  { unfold s. rewrite new_sentence_eq. unfold truthful. simpl.
    split; [|set_solver].
    destruct Hag2 as [Hh2 Hw2 Hm2 Hs2 _ _].
    simpl in Hm2, Hs2. rewrite nearby_mines_eq, <- Hh, <- Hw.
    set (nb := neighboring_cells _ _ _).
    set (known := mines ai ∪ ({[c]} ∪ safes ai)).
    rewrite (mines_in_split g nb (filter (λ x, x ∈ known) nb))
      by apply filter_elem_subseteq.
    rewrite difference_filter_elem.
    assert (mines_in g (filter (λ x, x ∈ known) nb)
            = len (filter (λ x, x ∈ mines ai) nb)) as ->; [|lia].
    unfold mines_in, known. f_equal. apply leibniz_equiv, set_equiv.
    intros x. rewrite !elem_of_filter, elem_of_union. split.
    - intros (Hx & [Hxm|Hxs] & Hnb); [done|].
      rewrite (Hs2 x Hxs) in Hx. done.
    - intros [Hxm Hnb]. auto. }
  unfold append_new. destruct (sentence_in s (knowledge ai2)); [done|].
  destruct Hag2 as [Hh2 Hw2 Hm2 Hs2 Ht2 Hp2].
  split; simpl; try done.
  - apply Forall_app. split; [done|]. by apply Forall_singleton.
  - apply Forall_app. split; [done|]. by apply Forall_singleton.
Qed.

End game.

Lemma cells_of_elem kn x : x ∈ cells_of kn ↔ ∃ s, s ∈ kn ∧ x ∈ cells s.
Proof.
  unfold cells_of. rewrite elem_of_union_list. split.
  - intros (X & HX & Hx). apply list_elem_of_fmap in HX as (s & -> & Hs).
    eauto.
  - intros (s & Hs & Hx). exists (cells s). split; [|done].
    apply list_elem_of_fmap. eauto.
Qed.

Lemma shapes_elem kn X :
  X ∈ shapes kn ↔ ∃ s, s ∈ kn ∧ cells s = X ∧ X ≠ ∅.
Proof.
  unfold shapes. rewrite elem_of_list_to_set, list_elem_of_fmap. split.
  - intros (s & -> & Hs). apply drop_empty_elem in Hs as [Hne Hs]. eauto.
  - intros (s & Hs & <- & Hne). exists s. split; [done|].
    by apply drop_empty_elem.
Qed.

Lemma subsets_elem l X : X ⊆ list_to_set l → X ∈ subsets l.
Proof.
  revert X. induction l as [|x l IH]; intros X HX; simpl.
  - apply list_elem_of_singleton. apply leibniz_equiv.
    rewrite list_to_set_nil in HX. clear -HX. set_solver.
  - apply elem_of_app. destruct (decide (x ∈ X)) as [Hx|Hx].
    + right. apply list_elem_of_fmap. exists (X ∖ {[x]}). split.
      * by apply union_difference_singleton_L.
      * apply IH. rewrite list_to_set_cons in HX. clear -HX. set_solver.
    + left. apply IH. rewrite list_to_set_cons in HX. clear -HX Hx.
      set_solver.
Qed.

Lemma powerset_elem V X : X ⊆ V → X ∈ powerset V.
Proof.
  intros HX. unfold powerset. apply elem_of_list_to_set, subsets_elem.
  by rewrite list_to_set_elements_L.
Qed.

Lemma shapes_powerset kn V : cells_of kn ⊆ V → shapes kn ⊆ powerset V.
Proof.
  intros HV X HX. apply shapes_elem in HX as (s & Hs & <- & _).
  apply powerset_elem. intros x Hx. apply HV, cells_of_elem. eauto.
Qed.

Section inference.
Variable g : Minesweeper.

Lemma truthful_mark_mines l s :
  (∀ c, c ∈ l → mine_at g c = true) → truthful g s →
  truthful g (mark_mines l s).
Proof.
  intros Hl Hs. unfold mark_mines.
  apply (foldl_invariant (truthful g)); [done|].
  intros s' c Hc. apply truthful_mark_mine. by apply Hl.
Qed.

Lemma truthful_mark_safes l s :
  (∀ c, c ∈ l → mine_at g c = false) → truthful g s →
  truthful g (mark_safes l s).
Proof.
  intros Hl Hs. unfold mark_safes.
  apply (foldl_invariant (truthful g)); [done|].
  intros s' c Hc. apply truthful_mark_safe. by apply Hl.
Qed.

(** Under agreement, the scan removes no cell, every cell that it
    collects as a mine is a mine of the board, and every cell that it
    collects as safe holds no mine. *)
Lemma agrees_scan_done ai : agrees g ai → sc_done (scan ai) = knowledge ai.
Proof.
  intros Hag. unfold scan. rewrite scan_done. simpl.
  apply purge_all_disjoint, Hag.
Qed.

Lemma agrees_scan_mines ai c :
  agrees g ai → c ∈ sc_mines (scan ai) →
  mine_at g c = true ∧ c ∈ cells_of (knowledge ai).
Proof.
  intros Hag Hc. unfold scan in Hc.
  apply scan_mines in Hc as [Hc|(s & Hs & Hc)]; [set_solver|].
  pose proof (agrees_truthful _ _ Hag) as Ht.
  rewrite Forall_forall in Ht. split.
  - eapply truthful_known_mines; [by apply Ht | done].
  - apply cells_of_elem. exists s. split; [done|].
    by apply known_mines_subseteq.
Qed.

Lemma agrees_scan_safes ai c :
  agrees g ai → c ∈ sc_safes (scan ai) →
  mine_at g c = false ∧ c ∈ cells_of (knowledge ai).
Proof.
  intros Hag Hc. unfold scan in Hc.
  apply scan_safes in Hc as [Hc|(s & Hs & _ & Hc)]; [set_solver|].
  pose proof (agrees_truthful _ _ Hag) as Ht.
  rewrite Forall_forall in Ht. split.
  - eapply truthful_known_safes; [by apply Ht | done].
  - apply cells_of_elem. exists s. split; [done|].
    by apply known_safes_subseteq.
Qed.

(** The sentences that remain after the marks of a pass. *)
Lemma marked_elem ai s' :
  agrees g ai → s' ∈ marked ai →
  cells s' ≠ ∅ ∧ truthful g s'
  ∧ ∃ s, s ∈ knowledge ai
         ∧ cells s' = cells s ∖ sc_mines (scan ai) ∖ sc_safes (scan ai).
Proof.
  intros Hag. unfold marked. rewrite (agrees_scan_done ai Hag).
  rewrite drop_empty_elem, <- list_fmap_compose.
  intros [Hne (s & -> & Hs)%list_elem_of_fmap]. simpl in *.
  split; [done|]. split.
  - apply truthful_mark_safes.
    { intros c Hc%elem_of_elements. by apply (agrees_scan_safes ai). }
    apply truthful_mark_mines.
    { intros c Hc%elem_of_elements. by apply (agrees_scan_mines ai). }
    pose proof (agrees_truthful _ _ Hag) as Ht.
    rewrite Forall_forall in Ht. by apply Ht.
  - exists s. split; [done|].
    by rewrite cells_mark_safes, cells_mark_mines,
      !list_to_set_elements_L.
Qed.

(** A pass keeps the player in agreement with the board. *)
Lemma agrees_pass ai : agrees g ai → agrees g (pass ai).1.
Proof.
  intros Hag. rewrite pass_eq. split; simpl.
  - apply Hag.
  - apply Hag.
  - intros c [Hc|Hc]%elem_of_union.
    + by apply (agrees_scan_mines ai).
    + by apply (agrees_mines _ _ Hag).
  - intros c [Hc|Hc]%elem_of_union.
    + by apply (agrees_scan_safes ai).
    + by apply (agrees_safes _ _ Hag).
  - apply Forall_app. split; apply Forall_forall.
    + intros s Hs. by apply (marked_elem ai) in Hs as (_ & Hs & _).
    + intros i (_ & s1 & s2 & H1 & H2 & [_ Hsub] & ->)%infer_sound.
      apply (marked_elem ai) in H1 as (_ & H1 & _); [|done].
      apply (marked_elem ai) in H2 as (_ & H2 & _); [|done].
      by apply truthful_difference.
  - pose proof (agrees_purged _ _ Hag) as Hp.
    rewrite Forall_forall in Hp.
    assert (∀ s', s' ∈ marked ai →
              cells s' ## sc_mines (scan ai) ∪ mines ai) as Hm.
    { intros s' (_ & _ & s & Hs & ->)%(marked_elem ai); [|done].
      specialize (Hp s Hs). clear -Hp. set_solver. }
    apply Forall_app. split; apply Forall_forall; [done|].
    intros i (_ & s1 & s2 & H1 & H2 & _ & ->)%infer_sound.
    specialize (Hm s1 H1). simpl. clear -Hm. set_solver.
Qed.

(** The cells of the sentences after a pass were cells of sentences
    before it, and none of them is a cell that the scan collected. *)
Lemma pass_cells_of ai x :
  agrees g ai → x ∈ cells_of (knowledge (pass ai).1) →
  x ∈ cells_of (knowledge ai) ∧ x ∉ sc_mines (scan ai)
  ∧ x ∉ sc_safes (scan ai).
Proof.
  intros Hag. rewrite pass_eq. simpl.
  assert (∀ s', s' ∈ marked ai → x ∈ cells s' →
            x ∈ cells_of (knowledge ai) ∧ x ∉ sc_mines (scan ai)
            ∧ x ∉ sc_safes (scan ai)) as Hm.
  { intros s' (_ & _ & s & Hs & ->)%(marked_elem ai) Hx; [|done].
    split; [apply cells_of_elem; exists s|]; clear -Hx Hs; set_solver. }
  intros (s' & [Hs'|Hs']%elem_of_app & Hx)%cells_of_elem; [by eauto|].
  apply infer_sound in Hs' as (_ & s1 & s2 & H1 & _ & _ & ->).
  apply (Hm s1 H1). simpl in Hx. clear -Hx. set_solver.
Qed.

End inference.

Section termination.
Variable g : Minesweeper.

(** When the scan collects nothing, every sentence is idle. *)
Lemma agrees_idle ai :
  agrees g ai → sc_mines (scan ai) = ∅ → sc_safes (scan ai) = ∅ →
  Forall (idle (mines ai)) (knowledge ai).
Proof.
  intros Hag HM HS. pose proof (agrees_purged _ _ Hag) as Hp.
  rewrite Forall_forall in Hp. apply Forall_forall. intros s Hs.
  assert (Sentence.known_mines s = ∅) as Hkm.
  { apply leibniz_equiv, elem_of_equiv_empty. intros c Hc.
    assert (c ∈ sc_mines (scan ai)) as Hin
      by (unfold scan; apply scan_mines; eauto).
    rewrite HM in Hin. by apply not_elem_of_empty in Hin. }
  split; [done|]. split; [|by apply Hp].
  apply leibniz_equiv, elem_of_equiv_empty. intros c Hc.
  assert (c ∈ sc_safes (scan ai)) as Hin
    by (unfold scan; apply scan_safes; eauto).
  rewrite HS in Hin. by apply not_elem_of_empty in Hin.
Qed.

(** A pass that raises the flag either resolves a cell, which then
    leaves the sentences for good, or adds a sentence over a set of
    cells that no sentence had. *)
Lemma pass_progress ai :
  agrees g ai → (pass ai).2 = true →
  cells_of (knowledge (pass ai).1) ⊂ cells_of (knowledge ai)
  ∨ (cells_of (knowledge (pass ai).1) ⊆ cells_of (knowledge ai)
     ∧ shapes (knowledge ai) ⊂ shapes (knowledge (pass ai).1)).
Proof.
  intros Hag Hflag.
  assert (cells_of (knowledge (pass ai).1) ⊆ cells_of (knowledge ai))
    as Hsub.
  { intros x Hx. by apply (pass_cells_of g ai x Hag) in Hx as [? _]. }
  destruct (decide (sc_mines (scan ai) ∪ sc_safes (scan ai) = ∅))
    as [He|Hne].
  - right. split; [done|].
    assert (sc_mines (scan ai) = ∅) as HM by (clear -He; set_solver).
    assert (sc_safes (scan ai) = ∅) as HS by (clear -He; set_solver).
    pose proof (agrees_idle ai Hag HM HS) as Hidle.
    rewrite (pass_idle ai Hidle) in Hflag |- *. simpl in *.
    set (kn := drop_empty (knowledge ai)) in *.
    apply infer_flag in Hflag as [?|Hinf]; [done|].
    destruct (infer kn false).2 as [|i inf] eqn:Einf; [done|].
    assert (i ∈ (infer kn false).2) as Hi by (rewrite Einf; left).
    pose proof (infer_nonempty _ _ _ Hi) as Hine.
    apply infer_sound in Hi as (Hnew & s1 & s2 & H1 & H2 & [_ Hp] & ->).
    pose proof (agrees_truthful _ _ Hag) as Ht.
    rewrite Forall_forall in Ht.
    assert (∀ s, s ∈ kn → truthful g s) as Htk.
    { intros s [_ Hs]%drop_empty_elem. by apply Ht. }
    assert (truthful g (difference s1 s2)) as Hti
      by (apply truthful_difference; auto).
    split.
    + intros X (s & Hs & <- & HX)%shapes_elem. apply shapes_elem.
      exists s. split; [|done]. apply elem_of_app. left.
      by apply drop_empty_elem.
    + intros Hback.
      assert (cells (difference s1 s2) ∈ shapes (knowledge ai)) as Hin.
      { apply Hback, shapes_elem. exists (difference s1 s2).
        split; [|done]. apply elem_of_app. right. left. }
      apply shapes_elem in Hin as (s & Hs & Hcs & _).
      apply Hnew.
      assert (s = difference s1 s2) as <-.
      { apply (truthful_same_cells g); auto. }
      apply drop_empty_elem. split; [by rewrite Hcs | done].
  - left. split; [done|]. intros Hback.
    apply set_choose_L in Hne as [c Hc].
    assert (c ∈ cells_of (knowledge ai)) as Hin.
    { apply elem_of_union in Hc as [Hc|Hc].
      - by apply (agrees_scan_mines g ai).
      - by apply (agrees_scan_safes g ai). }
    apply Hback in Hin.
    apply (pass_cells_of g ai c Hag) in Hin as (_ & HnM & HnS).
    apply elem_of_union in Hc as [Hc|Hc]; done.
Qed.

(** The loop [while kb_updated] ends on every player that agrees with
    the board, and the player still agrees with it afterwards. *)
Lemma infer_loop_terminates ai :
  agrees g ai →
  ∃ fuel ai', infer_loop fuel ai = Some ai' ∧ agrees g ai'.
Proof.
  remember (S (size (cells_of (knowledge ai)))) as n eqn:Hn.
  assert (size (cells_of (knowledge ai)) < n)%nat as Hlt by lia.
  clear Hn. revert ai Hlt.
  induction n as [|n IHn]; intros ai Hlt Hag; [lia|].
  set (V := cells_of (knowledge ai)).
  assert (∀ m ai2, agrees g ai2 → cells_of (knowledge ai2) ⊆ V →
            (size (powerset V ∖ shapes (knowledge ai2)) < m)%nat →
            ∃ fuel ai', infer_loop fuel ai2 = Some ai' ∧ agrees g ai')
    as Hinner.
  { induction m as [|m IHm]; intros ai2 Hag2 HV Hm; [lia|].
    pose proof (agrees_pass g ai2 Hag2) as Hag3.
    destruct (pass ai2).2 eqn:Hflag.
    - destruct (pass_progress ai2 Hag2 Hflag) as [Hless|[Hsub Hmore]].
      + destruct (IHn (pass ai2).1) as (fuel & ai' & Hrun & Hag');
          [|done|].
        { apply subset_size in Hless.
          apply subseteq_size in HV. fold V in Hlt. lia. }
        exists (S fuel), ai'. by rewrite infer_loop_S, Hflag.
      + destruct (IHm (pass ai2).1) as (fuel & ai' & Hrun & Hag');
          [done| |  |].
        { by etrans. }
        { assert (powerset V ∖ shapes (knowledge (pass ai2).1)
                  ⊂ powerset V ∖ shapes (knowledge ai2)) as Hstrict.
          { destruct Hmore as [Hinc Hnot]. split.
            - clear -Hinc. set_solver.
            - intros Hback. apply Hnot. intros X HX.
              destruct (decide (X ∈ shapes (knowledge ai2)))
                as [|Hout]; [done|].
              assert (X ∈ powerset V) as HP.
              { eapply (shapes_powerset _ V); [|exact HX]. by etrans. }
              assert (X ∈ powerset V ∖ shapes (knowledge ai2)) as HD
                by (apply elem_of_difference; done).
              apply Hback in HD. apply elem_of_difference in HD as [_ HD].
              done. }
          apply subset_size in Hstrict. lia. }
        exists (S fuel), ai'. by rewrite infer_loop_S, Hflag.
    - exists 1%nat, (pass ai2).1. by rewrite infer_loop_S, Hflag. }
  apply (Hinner (S (size (powerset V ∖ shapes (knowledge ai))))); auto.
Qed.

End termination.

(** ** Games *)

Section games.
Variable g : Minesweeper.

Lemma agrees_init : agrees g (init (g_height g) (g_width g)).
Proof. split; simpl; try done; by constructor. Qed.

Lemma infer_loop_agrees fuel ai ai' :
  agrees g ai → infer_loop fuel ai = Some ai' → agrees g ai'.
Proof.
  revert ai. induction fuel as [|fuel IH]; intros ai Hag; [done|].
  rewrite infer_loop_S. pose proof (agrees_pass g ai Hag) as Hag'.
  destruct (pass ai).2; [by apply IH|]. by intros [= <-].
Qed.

(** Every player that a game produces agrees with the board. *)
Lemma played_agrees ai : played g ai → agrees g ai.
Proof.
  induction 1 as [|ai c fuel ai' _ IH Hc Hrun]; [apply agrees_init|].
  eapply infer_loop_agrees; [|exact Hrun]. by apply agrees_observe.
Qed.

(** A click of a game returns, and the game goes on. *)
Lemma click_returns ai c :
  played g ai → mine_at g c = false →
  ∃ fuel ai', add_knowledge fuel c (nearby_mines g c) ai = Some ai'
              ∧ played g ai'.
Proof.
  intros Hpl Hc. pose proof (played_agrees ai Hpl) as Hag.
  destruct (infer_loop_terminates g (observe c (nearby_mines g c) ai))
    as (fuel & ai' & Hrun & _); [by apply agrees_observe|].
  exists fuel, ai'. split; [done|]. by eapply played_click.
Qed.

End games.

(** The player of the 2 x 2 game after the click on [(0, 0)]. *)
Lemma played_game_2x2 : played game_2x2 ai_game_2x2.
Proof.
  apply (played_click game_2x2 (init 2 2) (0, 0) 1 ai_game_2x2).
  - apply (played_init game_2x2).
  - vm_compute. reflexivity.
  - vm_compute. reflexivity.
Qed.

(** C2, amended. In a game on a board, where every call is
    [add_knowledge(cell, nearby_mines(cell))] for a cell that holds no
    mine, [safes] and [mines] are disjoint after each call. *)
Theorem played_safes_mines_disjoint (g : Minesweeper) (ai : AI) :
  played g ai → safes ai ∩ mines ai = ∅.
Proof.
  intros Hag%played_agrees. apply leibniz_equiv, elem_of_equiv_empty.
  intros c [Hs Hm]%elem_of_intersection.
  apply (agrees_safes _ _ Hag) in Hs. apply (agrees_mines _ _ Hag) in Hm.
  congruence.
Qed.

(** The 2 x 2 game after its first click: the two sets are disjoint. *)
Lemma played_safes_mines_disjoint_witness :
  played game_2x2 ai_game_2x2
  ∧ safes ai_game_2x2 ∩ mines ai_game_2x2 = ∅.
Proof.
  split; [apply played_game_2x2|].
  apply (played_safes_mines_disjoint game_2x2 ai_game_2x2).
  apply played_game_2x2.
Defined.

(** C2 as stated fails: on a 2 x 2 board, after
    [add_knowledge((0, 0), 2)] and [add_knowledge((0, 1), 0)], the cells
    [(1, 0)] and [(1, 1)] are in [safes] and in [mines]. *)
Lemma safes_mines_overlap :
  add_all 3 [((0, 0), 2); ((0, 1), 0)] (init 2 2) = Some ai_2x2
  ∧ (1, 0) ∈ safes ai_2x2 ∩ mines ai_2x2.
Proof. split; [vm_compute; reflexivity|]. unfold ai_2x2. simpl. set_solver. Qed.

(** C3, amended. In a game on a board, where every call is
    [add_knowledge(cell, nearby_mines(cell))] for a cell that holds no
    mine, every sentence of the knowledge has [0 <= count <= len(cells)]
    after each call. *)
Theorem played_sentences_in_range (g : Minesweeper) (ai : AI) :
  played g ai → Forall in_range (knowledge ai).
Proof.
  intros Hag%played_agrees. eapply Forall_impl; [apply Hag|].
  apply truthful_in_range.
Qed.

(** The 2 x 2 game after its first click: its sentence
    [{(0,1), (1,0), (1,1)} = 1] is in range. *)
Lemma played_sentences_in_range_witness :
  played game_2x2 ai_game_2x2
  ∧ Forall in_range (knowledge ai_game_2x2).
Proof.
  split; [apply played_game_2x2|].
  apply (played_sentences_in_range game_2x2 ai_game_2x2).
  apply played_game_2x2.
Defined.

(** C3 as stated fails: on a 1 x 4 board, after
    [add_knowledge((0, 0), 1)] and [add_knowledge((0, 2), 0)], the
    knowledge holds the sentence [{(0, 3)} = -1]. *)
Lemma sentence_count_negative :
  add_all 3 [((0, 0), 1); ((0, 2), 0)] (init 1 4) = Some ai_1x4
  ∧ mkSentence {[(0, 3)]} (-1) ∈ knowledge ai_1x4
  ∧ ¬ in_range (mkSentence {[(0, 3)]} (-1)).
Proof.
  split; [vm_compute; reflexivity|]. split; [left|].
  unfold in_range. simpl. lia.
Qed.

(** C4, amended. In a game on a board, the loop [while kb_updated] of
    every call [add_knowledge(cell, nearby_mines(cell))] for a cell that
    holds no mine ends after finitely many passes: the call returns, and
    it returns the same player with any larger bound on the passes. *)
Theorem played_add_knowledge_terminates (g : Minesweeper) (ai : AI)
    (c : cell) :
  played g ai → mine_at g c = false →
  ∃ fuel ai',
    add_knowledge fuel c (nearby_mines g c) ai = Some ai'
    ∧ played g ai'
    ∧ ∀ fuel', (fuel ≤ fuel')%nat →
        add_knowledge fuel' c (nearby_mines g c) ai = Some ai'.
Proof.
  intros Hpl Hc.
  destruct (click_returns g ai c Hpl Hc) as (fuel & ai' & Hrun & Hpl').
  exists fuel, ai'. split; [done|]. split; [done|].
  intros fuel' Hle. by eapply infer_loop_more.
Qed.

(** The 2 x 2 game after its first click: the click on [(0, 1)]
    returns. *)
Lemma played_add_knowledge_terminates_witness :
  played game_2x2 ai_game_2x2 ∧ mine_at game_2x2 (0, 1) = false
  ∧ ∃ fuel ai',
      add_knowledge fuel (0, 1) (nearby_mines game_2x2 (0, 1)) ai_game_2x2
      = Some ai'
      ∧ played game_2x2 ai'
      ∧ ∀ fuel', (fuel ≤ fuel')%nat →
          add_knowledge fuel' (0, 1) (nearby_mines game_2x2 (0, 1))
            ai_game_2x2 = Some ai'.
Proof.
  split; [apply played_game_2x2|]. split; [vm_compute; reflexivity|].
  apply (played_add_knowledge_terminates game_2x2 ai_game_2x2 (0, 1)).
  - apply played_game_2x2.
  - vm_compute. reflexivity.
Defined.

(** ** A call that does not return *)

(** Decidable facts about explicit sets of cells, by evaluation. *)
Ltac by_evaluation :=
  lazymatch goal with
  | |- ¬ ?P => apply (bool_decide_eq_false_1 P); vm_compute; reflexivity
  | |- ?P => apply (bool_decide_eq_true_1 P); vm_compute; reflexivity
  end.

Lemma far_minus_corner : far_cells ∖ corner_cell = right_cells.
Proof. by_evaluation. Qed.

Lemma far_minus_right : far_cells ∖ right_cells = corner_cell.
Proof. by_evaluation. Qed.

Lemma len_far : len far_cells = 3.
Proof. vm_compute. reflexivity. Qed.

Lemma len_corner : len corner_cell = 1.
Proof. vm_compute. reflexivity. Qed.

Lemma len_right : len right_cells = 2.
Proof. vm_compute. reflexivity. Qed.

Lemma unsettled_idle s : unsettled s → idle ∅ s ∧ cells s ≠ ∅.
Proof.
  assert (far_cells ≠ ∅) by by_evaluation.
  assert (corner_cell ≠ ∅) by by_evaluation.
  assert (right_cells ≠ ∅) by by_evaluation.
  unfold unsettled, idle, Sentence.known_mines, Sentence.known_safes.
  intros [[Hc Hn]|[[Hc Hn]|[Hc Hn]]]; rewrite Hc;
    rewrite ?len_far, ?len_corner, ?len_right.
  - rewrite !bool_decide_eq_false_2 by lia. simpl.
    repeat split; try done; try apply disjoint_empty_r.
  - assert (count s ≠ 1 ∧ count s ≠ 0) as [??]
      by (split; intros E; rewrite E in Hn; done).
    rewrite !bool_decide_eq_false_2 by done. simpl.
    repeat split; try done; try apply disjoint_empty_r.
  - assert (count s ≠ 2 ∧ count s ≠ 0) as [??]
      by (split; intros E; rewrite E in Hn; done).
    rewrite !bool_decide_eq_false_2 by done. simpl.
    repeat split; try done; try apply disjoint_empty_r.
Qed.

(** The only inferences between unsettled sentences take the corner or
    the right cells away from the far cells. *)
Lemma unsettled_difference s1 s2 :
  unsettled s1 → unsettled s2 → proper_part s1 s2 →
  unsettled (difference s1 s2).
Proof.
  assert (¬ corner_cell ⊆ right_cells) by by_evaluation.
  assert (¬ right_cells ⊆ corner_cell) by by_evaluation.
  assert (¬ far_cells ⊆ corner_cell) by by_evaluation.
  assert (¬ far_cells ⊆ right_cells) by by_evaluation.
  unfold unsettled, proper_part, difference. simpl.
  intros [[Hc1 Hn1]|[[Hc1 Hn1]|[Hc1 Hn1]]]
         [[Hc2 Hn2]|[[Hc2 Hn2]|[Hc2 Hn2]]] [Hne Hsub];
    rewrite Hc1, Hc2 in *; try done.
  - right. right. split; [apply far_minus_corner|].
    rewrite Zminus_mod, Hn2. by destruct Hn1 as [-> | ->].
  - right. left. split; [apply far_minus_right|].
    rewrite Zminus_mod, Hn2. by destruct Hn1 as [-> | ->].
Qed.

Lemma counts_bounded (l : list Sentence) :
  ∃ b, Forall (λ s, count s ≤ b) l.
Proof.
  induction l as [|s l [b Hb]]; [by exists 0|].
  exists (Z.max b (count s)). constructor; [lia|].
  eapply Forall_impl; [exact Hb|]. simpl. lia.
Qed.

(** A pass on a stuck player raises the flag and leaves a stuck player. *)
Lemma stuck_pass ai : stuck ai → (pass ai).2 = true ∧ stuck (pass ai).1.
Proof.
  intros [Hm H1 H5 [q Hq] Hall].
  assert (Forall (idle (mines ai)) (knowledge ai)) as Hidle.
  { rewrite Hm. eapply Forall_impl; [exact Hall|].
    intros s Hs. by apply unsettled_idle. }
  assert (drop_empty (knowledge ai) = knowledge ai) as Hdrop.
  { apply drop_empty_all. eapply Forall_impl; [exact Hall|].
    intros s Hs. by apply unsettled_idle. }
  rewrite (pass_idle ai Hidle), Hdrop. simpl.
  set (kn := knowledge ai) in *. rewrite Forall_forall in Hall.
  split.
  - apply infer_flag. right. intros Hnone.
    assert (∀ s1 s2, s1 ∈ kn → s2 ∈ kn → proper_part s1 s2 →
              difference s1 s2 ∈ kn) as Hclosed.
    { intros s1 s2 Hs1 Hs2 Hp.
      destruct (infer_complete kn false s1 s2 Hs1 Hs2 Hp) as [?|Hi];
        [done|]. rewrite Hnone in Hi. by apply elem_of_nil in Hi. }
    assert (proper_part (mkSentence far_cells 1) (mkSentence corner_cell 0)
            ∧ proper_part (mkSentence far_cells 5)
                (mkSentence right_cells 0)) as [[Hp1 Hp2] [Hp3 Hp4]].
    { unfold proper_part. simpl. repeat split; by_evaluation. }
    assert (∀ k, mkSentence corner_cell k ∈ kn →
                 mkSentence corner_cell (k + 4) ∈ kn) as Hup.
    { intros k Hk.
      assert (mkSentence right_cells (1 - k) ∈ kn) as Hr.
      { specialize (Hclosed _ _ H1 Hk). unfold difference in Hclosed.
        simpl in Hclosed. rewrite far_minus_corner in Hclosed.
        apply Hclosed. by split. }
      specialize (Hclosed _ _ H5 Hr). unfold difference in Hclosed.
      simpl in Hclosed. rewrite far_minus_right in Hclosed.
      replace (k + 4) with (5 - (1 - k)) by lia. apply Hclosed. by split. }
    assert (∀ n : nat, mkSentence corner_cell (q + 4 * Z.of_nat n) ∈ kn)
      as Hmany.
    { induction n as [|n IH].
      - by replace (q + 4 * Z.of_nat 0) with q by lia.
      - replace (q + 4 * Z.of_nat (S n)) with (q + 4 * Z.of_nat n + 4)
          by lia. by apply Hup. }
    destruct (counts_bounded kn) as [b Hb]. rewrite Forall_forall in Hb.
    specialize (Hb _ (Hmany (Z.to_nat (b - q) + 1)%nat)). simpl in Hb. lia.
  - split; simpl; try done.
    + apply elem_of_app. by left.
    + apply elem_of_app. by left.
    + exists q. apply elem_of_app. by left.
    + apply Forall_app. split; apply Forall_forall; [done|].
      intros i (_ & s1 & s2 & Hs1 & Hs2 & Hp & ->)%infer_sound.
      apply unsettled_difference; auto.
Qed.

Lemma stuck_forever fuel ai : stuck ai → infer_loop fuel ai = None.
Proof.
  revert ai. induction fuel as [|fuel IH]; intros ai Hst; [done|].
  rewrite infer_loop_S. destruct (stuck_pass ai Hst) as [-> Hst'].
  by apply IH.
Qed.

(** C4 as stated fails: on a 2 x 3 board, after
    [add_knowledge((0, 1), 1)] and [add_knowledge((1, 1), 5)], the call
    [add_knowledge((1, 0), 2)] does not return: every pass of its loop
    adds a sentence. *)
Lemma inference_loop_diverges :
  add_all 1 [((0, 1), 1); ((1, 1), 5)] (init 2 3) = Some ai_2x3
  ∧ ∀ fuel, add_knowledge fuel (1, 0) 2 ai_2x3 = None.
Proof.
  split; [vm_compute; reflexivity|].
  intros fuel. unfold add_knowledge. apply stuck_forever.
  assert (observe (1, 0) 2 ai_2x3
          = mkAI 2 3 {[(0, 1); (1, 1); (1, 0)]} ∅
              {[(0, 1); (1, 1); (1, 0)]}
              [mkSentence far_cells 1; mkSentence far_cells 5;
               mkSentence corner_cell 2]) as ->
    by (vm_compute; reflexivity).
  split; simpl.
  - done.
  - left.
  - right. left.
  - exists 2. right. right. left.
  - apply Forall_cons. split; [left; auto|].
    apply Forall_cons. split; [left; auto|].
    apply Forall_cons. split; [right; left; auto|]. apply Forall_nil_2.
Qed.

(** ** The first call on a new player *)

Lemma infer_short kn upd : (length kn ≤ 1)%nat → infer kn upd = (upd, []).
Proof.
  destruct kn as [|s [|s' kn]]; simpl; [done| |lia]. intros _.
  unfold infer. simpl. rewrite infer_step_eq.
  rewrite decide_False; [done|]. by intros [[Hne _] _].
Qed.

Lemma drop_empty_length l : (length (drop_empty l) ≤ length l)%nat.
Proof. unfold drop_empty. apply length_filter. Qed.

Lemma truthy_filter_disjoint (ms X : gset cell) :
  X ## ms → truthy (filter (λ c, c ∈ ms) X) = false.
Proof. intros Hd. apply truthy_false. set_solver. Qed.

(** With one sentence and no known mine, the loop ends within two passes:
    the sentence is resolved by the first pass or it stays as it is. *)
Lemma single_sentence_loop ai s :
  knowledge ai = [s] → mines ai = ∅ → ∃ ai', infer_loop 2 ai = Some ai'.
Proof.
  intros Hkn Hms.
  assert (scan ai = scan_step ∅ (mkScan false ∅ ∅ []) s) as Hscan
    by (unfold scan; by rewrite Hkn, Hms).
  assert (sc_done (scan ai) = [s]) as Hdone.
  { rewrite Hscan, scan_step_done. simpl. f_equal.
    apply purge_disjoint, disjoint_empty_r. }
  assert (marked ai
          = drop_empty [mark_safes (elements (sc_safes (scan ai)))
              (mark_mines (elements (sc_mines (scan ai))) s)]) as Hmarked
    by (unfold marked; by rewrite Hdone).
  assert (length (marked ai) ≤ 1)%nat as Hlen.
  { rewrite Hmarked. etrans; [apply drop_empty_length|]. done. }
  rewrite infer_loop_S, pass_eq. cbn [fst snd].
  rewrite (infer_short _ _ Hlen). cbn [fst snd]. rewrite app_nil_r.
  destruct (sc_updated (scan ai)) eqn:Hupd; [|by eauto].
  assert (marked ai = []) as Hnone.
  { rewrite Hmarked. unfold drop_empty.
    rewrite filter_cons_False; [done|]. intros Hne. apply Hne.
    rewrite cells_mark_safes, cells_mark_mines, !list_to_set_elements_L.
    apply leibniz_equiv, elem_of_equiv_empty. intros x Hx.
    apply elem_of_difference in Hx as [Hx HnS].
    apply elem_of_difference in Hx as [Hx HnM].
    rewrite Hscan, scan_step_updated in Hupd.
    rewrite (truthy_filter_disjoint ∅), orb_false_r in Hupd
      by apply disjoint_empty_r.
    rewrite Hscan, scan_step_mines in HnM.
    rewrite Hscan, scan_step_safes in HnS. simpl in Hupd, HnM, HnS.
    destruct (truthy (Sentence.known_mines s)) eqn:Hkm.
    - apply truthy_true in Hkm. apply HnM, elem_of_union. right.
      unfold Sentence.known_mines in *. by case_bool_decide.
    - simpl in Hupd. apply truthy_true in Hupd.
      apply HnS, elem_of_union. right.
      unfold Sentence.known_safes in *. by destruct (_ && _). }
  rewrite Hnone. rewrite infer_loop_S, pass_idle by (simpl; constructor).
  cbn [fst snd knowledge]. rewrite infer_short by (simpl; lia). eauto.
Qed.

Lemma observe_init c n h w :
  ∃ s, observe c n (init h w) = mkAI h w ({[c]} ∪ ∅) ∅ ({[c]} ∪ ∅) [s].
Proof. unfold observe, append_new. simpl. eauto. Qed.

(** C9, amended. [add_knowledge] raises no error for a cell outside the
    board.  On a new player the call returns, for any count, within two
    passes; in a game it returns for the count [nearby_mines(cell)]; and
    in both cases the cell is then in [moves_made] and in [safes]. *)
Theorem add_knowledge_off_board_returns (g : Minesweeper) (ai : AI)
    (c : cell) (n : Z) :
  ¬ on_board (g_height g) (g_width g) c →
  (∃ ai', add_knowledge 2 c n (init (g_height g) (g_width g)) = Some ai'
          ∧ c ∈ moves_made ai' ∧ c ∈ safes ai')
  ∧ (played g ai →
     ∃ fuel ai', add_knowledge fuel c (nearby_mines g c) ai = Some ai'
                 ∧ c ∈ moves_made ai' ∧ c ∈ safes ai').
Proof.
  intros Hoff. split.
  - destruct (observe_init c n (g_height g) (g_width g)) as [s Hobs].
    destruct (single_sentence_loop (observe c n (init (g_height g)
      (g_width g))) s) as [ai' Hrun]; [by rewrite Hobs..|].
    exists ai'. split; [done|].
    by apply (add_knowledge_records 2 c n (init (g_height g) (g_width g))).
  - intros Hpl.
    assert (mine_at g c = false) as Hc.
    { unfold mine_at. unfold on_board in Hoff.
      do 2 case_bool_decide; simpl; tauto. }
    destruct (click_returns g ai c Hpl Hc) as (fuel & ai' & Hrun & _).
    exists fuel, ai'. split; [done|].
    by apply (add_knowledge_records fuel c (nearby_mines g c) ai).
Qed.

(** The cell [(5, 5)] and the 2 x 2 game after its first click. *)
Lemma add_knowledge_off_board_returns_witness :
  ¬ on_board (g_height game_2x2) (g_width game_2x2) (5, 5)
  ∧ (∃ ai', add_knowledge 2 (5, 5) 0
              (init (g_height game_2x2) (g_width game_2x2)) = Some ai'
            ∧ (5, 5) ∈ moves_made ai' ∧ (5, 5) ∈ safes ai')
  ∧ (played game_2x2 ai_game_2x2 →
     ∃ fuel ai',
       add_knowledge fuel (5, 5) (nearby_mines game_2x2 (5, 5)) ai_game_2x2
       = Some ai'
       ∧ (5, 5) ∈ moves_made ai' ∧ (5, 5) ∈ safes ai').
Proof.
  assert (¬ on_board (g_height game_2x2) (g_width game_2x2) (5, 5)) as Hoff
    by (unfold on_board; simpl; lia).
  split; [exact Hoff|].
  exact (add_knowledge_off_board_returns game_2x2 ai_game_2x2 (5, 5) 0 Hoff).
Defined.

(** C9 as stated fails: on a 2 x 2 board, [add_knowledge((5, 5), 0)]
    returns, with [(5, 5)] in [moves_made] and in [safes]. *)
Lemma off_board_cell_accepted :
  add_knowledge 1 (5, 5) 0 (init 2 2) = Some ai_2x2_off
  ∧ (5, 5) ∈ moves_made ai_2x2_off ∧ (5, 5) ∈ safes ai_2x2_off
  ∧ ¬ on_board 2 2 (5, 5).
Proof.
  split; [vm_compute; reflexivity|].
  split; [by_evaluation|]. split; [by_evaluation|].
  unfold on_board. simpl. lia.
Qed.

(** C8, amended. On a new player for a 1 x 3 board, the call
    [add_knowledge((0, 0), 0)] returns after two passes; the only
    neighbour of [(0, 0)] is [(0, 1)], which is in [safes] when the call
    returns, and [(0, 2)] is not in [safes]. *)
Theorem probe_left_of_1x3 (fuel : nat) :
  add_knowledge (S (S fuel)) (0, 0) 0 (init 1 3) = Some ai_1x3
  ∧ neighboring_cells 1 3 (0, 0) = {[(0, 1)]}
  ∧ (0, 1) ∈ safes ai_1x3
  ∧ (0, 2) ∉ safes ai_1x3.
Proof.
  split; [|split; [vm_compute; reflexivity | split; by_evaluation]].
  apply (infer_loop_more 2); [vm_compute; reflexivity | lia].
Qed.

(** The click on the middle cell of the 1 x 3 board is the one that
    marks the two other cells safe. *)
Lemma probe_middle_of_1x3 :
  add_knowledge 2 (0, 1) 0 (init 1 3)
  = Some (mkAI 1 3 {[(0, 1)]} ∅ {[(0, 0); (0, 1); (0, 2)]} []).
Proof. vm_compute. reflexivity. Qed.

(** C8 as stated fails: the call leaves [(0, 2)] out of [safes]. *)
Lemma probe_left_of_1x3_not_both :
  add_knowledge 2 (0, 0) 0 (init 1 3) = Some ai_1x3
  ∧ (0, 2) ∉ safes ai_1x3.
Proof. split; [vm_compute; reflexivity | by_evaluation]. Qed.

(** ** Subset inference *)

Section awaited.
Variable g : Minesweeper.

(** A sentence that keeps a cell through the marks of a pass is among the
    sentences the inferences start from. *)
Lemma marked_covers ai s :
  agrees g ai → s ∈ knowledge ai →
  cells s ∖ sc_mines (scan ai) ∖ sc_safes (scan ai) ≠ ∅ →
  ∃ s', s' ∈ marked ai
        ∧ cells s' = cells s ∖ sc_mines (scan ai) ∖ sc_safes (scan ai).
Proof.
  intros Hag Hs Hne. unfold marked. rewrite (agrees_scan_done g ai Hag).
  exists (mark_safes (elements (sc_safes (scan ai)))
            (mark_mines (elements (sc_mines (scan ai))) s)).
  assert (cells (mark_safes (elements (sc_safes (scan ai)))
                   (mark_mines (elements (sc_mines (scan ai))) s))
          = cells s ∖ sc_mines (scan ai) ∖ sc_safes (scan ai)) as Hc.
  { by rewrite cells_mark_safes, cells_mark_mines, !list_to_set_elements_L. }
  split; [|done]. apply drop_empty_elem. split; [by rewrite Hc|].
  apply list_elem_of_fmap. eexists. split; [done|].
  apply list_elem_of_fmap. by eexists.
Qed.

Lemma awaited_pass ai C :
  agrees g ai → mine_at g C = false → awaited C ai →
  awaited C (pass ai).1.
Proof.
  intros Hag HC [Hs | (s1 & H1 & HC1 & Hrest)].
  { left. by apply pass_safes_mono. }
  destruct (decide (C ∈ sc_safes (scan ai))) as [Hin|Hout].
  { left. rewrite pass_eq. simpl. set_solver. }
  right.
  assert (C ∉ sc_mines (scan ai)) as Hnm.
  { intros Hm. apply (agrees_scan_mines g ai) in Hm as [Hm _]; [|done].
    congruence. }
  destruct (marked_covers ai s1 Hag H1) as (s1' & H1' & Hc1').
  { clear -HC1 Hout Hnm. set_solver. }
  exists s1'. rewrite pass_eq. simpl.
  split; [apply elem_of_app; by left|].
  split; [rewrite Hc1'; clear -HC1 Hout Hnm; set_solver|].
  destruct Hrest as [Hone | (s2 & H2 & Hc2)].
  { left. rewrite Hc1', Hone. clear -Hout Hnm. set_solver. }
  destruct (decide (cells s2 ∖ sc_mines (scan ai) ∖ sc_safes (scan ai) = ∅))
    as [He|Hne].
  - left. rewrite Hc1'. rewrite Hc2 in He. clear -He HC1 Hout Hnm.
    apply set_eq. intros x. destruct (decide (x = C)) as [->|Hx]; set_solver.
  - right. destruct (marked_covers ai s2 Hag H2 Hne) as (s2' & H2' & Hc2').
    exists s2'. split; [apply elem_of_app; by left|].
    rewrite Hc2', Hc1', Hc2. clear. set_solver.
Qed.

(** The loop does not stop while the cell is awaited and not yet safe. *)
Lemma awaited_last ai C :
  agrees g ai → mine_at g C = false → awaited C ai →
  (pass ai).2 = false → C ∈ safes ai.
Proof.
  intros Hag HC Haw Hflag.
  destruct Haw as [|(s1 & H1 & HC1 & Hrest)]; [done|]. exfalso.
  assert (Forall (idle (mines ai)) (knowledge ai)) as Hidle.
  { rewrite pass_eq in Hflag. simpl in Hflag.
    destruct (sc_updated (scan ai)) eqn:Hu.
    - assert ((infer (marked ai) true).1 = true) as Ht
        by (apply infer_flag; by left).
      congruence.
    - unfold scan in Hu. by apply scan_updated in Hu as [_ Hu]. }
  rewrite (pass_idle ai Hidle) in Hflag. simpl in Hflag.
  assert ((infer (drop_empty (knowledge ai)) false).2 = []) as Hnil.
  { destruct (infer (drop_empty (knowledge ai)) false).2 eqn:He; [done|].
    assert ((infer (drop_empty (knowledge ai)) false).1 = true) as Ht
      by (apply infer_flag; right; by rewrite He).
    congruence. }
  pose proof (agrees_truthful _ _ Hag) as Ht.
  rewrite Forall_forall in Ht, Hidle.
  assert (∀ s, s ∈ knowledge ai → cells s = {[C]} → False) as Hsingle.
  { intros s Hs Hc. destruct (Hidle s Hs) as (_ & Hks & _).
    assert (C ∈ Sentence.known_safes s) as Hin; [|rewrite Hks in Hin; set_solver].
    apply known_safes_elem. split; [|rewrite Hc; set_solver].
    rewrite (Ht s Hs), Hc. apply mines_in_none.
    by intros c ->%elem_of_singleton. }
  destruct Hrest as [Hone | (s2 & H2 & Hc2)]; [by eapply Hsingle|].
  destruct (decide (cells s2 = ∅)) as [He|Hne].
  { apply (Hsingle s1 H1). rewrite He in Hc2. clear -Hc2 HC1.
    apply set_eq. intros x. destruct (decide (x = C)) as [->|Hx]; set_solver. }
  assert (proper_part s1 s2) as Hp.
  { split; [|rewrite Hc2; clear; set_solver].
    intros Heq. rewrite <- Heq in Hc2. clear -Hc2 HC1. set_solver. }
  destruct (infer_complete (drop_empty (knowledge ai)) false s1 s2)
    as [Hk|Hi]; try done.
  - apply drop_empty_elem. split; [clear -HC1; set_solver | done].
  - by apply drop_empty_elem.
  - apply drop_empty_elem in Hk as [_ Hk]. apply (Hsingle _ Hk).
    unfold difference. simpl. rewrite Hc2. clear -HC1.
    apply set_eq. intros x. destruct (decide (x = C)) as [->|Hx]; set_solver.
  - rewrite Hnil in Hi. by apply elem_of_nil in Hi.
Qed.

Lemma awaited_loop fuel ai ai' C :
  agrees g ai → mine_at g C = false → awaited C ai →
  infer_loop fuel ai = Some ai' → C ∈ safes ai'.
Proof.
  revert ai. induction fuel as [|fuel IH]; intros ai Hag HC Haw; [done|].
  rewrite infer_loop_S. destruct (pass ai).2 eqn:Hflag.
  - apply IH; [by apply agrees_pass | done | by apply awaited_pass].
  - intros [= <-]. apply pass_safes_mono. by apply awaited_last.
Qed.

(** The two sentences of the subset inference, when they tell the truth,
    say that [C] holds no mine and make it awaited. *)
Lemma subset_pair_awaited ai A B C :
  C ≠ A → C ≠ B →
  mkSentence {[A; B; C]} 1 ∈ knowledge ai →
  mkSentence {[A; B]} 1 ∈ knowledge ai →
  agrees g ai → mine_at g C = false ∧ awaited C ai.
Proof.
  intros HCA HCB H1 H2 Hag.
  pose proof (agrees_truthful _ _ Hag) as Ht. rewrite Forall_forall in Ht.
  pose proof (Ht _ H1) as Ht1. pose proof (Ht _ H2) as Ht2.
  unfold truthful in Ht1, Ht2. simpl in Ht1, Ht2.
  split.
  - apply (mines_in_zero g {[C]}); [|set_solver].
    assert (({[A; B; C]} : gset cell) ∖ {[A; B]} = {[C]}) as Hd
      by (clear -HCA HCB; set_solver).
    pose proof (mines_in_split g {[A; B; C]} {[A; B]}) as Hs.
    rewrite Hd in Hs. rewrite <- Ht1, <- Ht2 in Hs.
    assert (({[A; B]} : gset cell) ⊆ {[A; B; C]}) as Hsub by set_solver.
    specialize (Hs Hsub). lia.
  - right. exists (mkSentence {[A; B; C]} 1). split; [done|]. simpl.
    split; [set_solver|]. right. exists (mkSentence {[A; B]} 1).
    split; [done|]. simpl. clear -HCA HCB. set_solver.
Qed.

End awaited.

Lemma played_game_2x3 : played game_2x3 ai_game_2x3.
Proof.
  apply (played_click game_2x3
           (mkAI 2 3 {[(1, 2)]} ∅ {[(1, 2)]}
                 [mkSentence {[(0, 1); (0, 2); (1, 1)]} 1])
           (0, 0) 1 ai_game_2x3).
  - apply (played_click game_2x3 (init 2 3) (1, 2) 1).
    + apply (played_init game_2x3).
    + vm_compute. reflexivity.
    + vm_compute. reflexivity.
  - vm_compute. reflexivity.
  - vm_compute. reflexivity.
Qed.

(** C1. Subset inference.  From [{A,B,C} = 1] and [{A,B} = 1] in the
    knowledge, lines 262-271 derive [{C} = 0]
    ([cells = S1.cells - S2.cells], [count = S1.count - S2.count]), and
    the scan of a pass that finds [{C} = 0] adds [C] to [safes].  When the
    pass that starts with the two sentences has no other conclusion to
    draw (no sentence with a count equal to the number of its cells or to
    zero, none with a known mine), it ends with [{C} = 0] in the knowledge
    and the flag raised, and the pass after it puts [C] in [safes].  In a
    game, a call of [add_knowledge] whose loop starts with the two
    sentences in the knowledge returns, and [C] is in [safes] when it
    does. *)
Theorem subset_inference_derives_safe (ai : AI) (A B C : cell) :
  C ≠ A → C ≠ B →
  mkSentence {[A; B; C]} 1 ∈ knowledge ai →
  mkSentence {[A; B]} 1 ∈ knowledge ai →
  difference (mkSentence {[A; B; C]} 1) (mkSentence {[A; B]} 1)
    = mkSentence {[C]} 0
  ∧ (∀ upd, mkSentence {[C]} 0
            ∈ knowledge ai ++ (infer (knowledge ai) upd).2)
  ∧ (∀ ai1, mkSentence {[C]} 0 ∈ knowledge ai1 → C ∈ safes (pass ai1).1)
  ∧ (Forall (idle (mines ai)) (knowledge ai) →
     mkSentence {[C]} 0 ∈ knowledge (pass ai).1
     ∧ (pass ai).2 = true
     ∧ C ∈ safes (pass (pass ai).1).1
     ∧ ∀ fuel ai', infer_loop fuel ai = Some ai' → C ∈ safes ai')
  ∧ (∀ g ai0 c,
       played g ai0 → mine_at g c = false →
       ai = observe c (nearby_mines g c) ai0 →
       ∃ fuel ai', add_knowledge fuel c (nearby_mines g c) ai0 = Some ai'
                   ∧ C ∈ safes ai').
Proof.
  intros HCA HCB H1 H2.
  assert (difference (mkSentence {[A; B; C]} 1) (mkSentence {[A; B]} 1)
          = mkSentence {[C]} 0) as Hd.
  { unfold difference. simpl. f_equal. set_solver. }
  assert (proper_part (mkSentence {[A; B; C]} 1) (mkSentence {[A; B]} 1))
    as Hp.
  { split; simpl; [|set_solver]. intros He.
    assert (C ∈ ({[A; B]} : gset cell)) by (rewrite <- He; set_solver).
    set_solver. }
  split; [done|]. split.
  { intros upd. rewrite <- Hd. apply elem_of_app.
    by apply infer_complete. }
  split; [intros ai1; apply pass_marks_safe|].
  split.
  - intros Hidle.
    assert (mkSentence {[C]} 0 ∉ knowledge ai) as Hnew.
    { intros Hin. rewrite Forall_forall in Hidle.
      destruct (Hidle _ Hin) as (_ & Hs & _).
      assert (C ∈ Sentence.known_safes (mkSentence {[C]} 0)) as HC
        by (apply known_safes_elem; simpl; set_solver).
      rewrite Hs in HC. set_solver. }
    assert (mkSentence {[C]} 0
            ∈ (infer (drop_empty (knowledge ai)) false).2) as Hinf.
    { rewrite <- Hd.
      destruct (infer_complete (drop_empty (knowledge ai)) false
        (mkSentence {[A; B; C]} 1) (mkSentence {[A; B]} 1)) as [Hk|Hi];
        try done.
      - apply drop_empty_elem. split; [simpl; set_solver | done].
      - apply drop_empty_elem. split; [simpl; set_solver | done].
      - rewrite Hd in Hk. apply drop_empty_elem in Hk as [_ Hk]. done. }
    assert (mkSentence {[C]} 0 ∈ knowledge (pass ai).1) as Hk1.
    { rewrite (pass_idle ai Hidle). simpl. apply elem_of_app. by right. }
    assert ((pass ai).2 = true) as Hflag.
    { rewrite (pass_idle ai Hidle). simpl. apply infer_flag. right.
      intros He. rewrite He in Hinf. by apply elem_of_nil in Hinf. }
    pose proof (pass_marks_safe _ _ Hk1) as Hsafe.
    repeat split; try done.
    intros fuel ai'. destruct fuel as [|fuel]; [done|].
    rewrite infer_loop_S, Hflag. destruct fuel as [|fuel]; [done|].
    rewrite infer_loop_S.
    destruct (pass (pass ai).1).2.
    + intros H. apply infer_loop_safes_mono in H. set_solver.
    + by intros [= <-].
  - intros g ai0 c Hpl Hc ->.
    assert (agrees g (observe c (nearby_mines g c) ai0)) as Hag
      by (apply agrees_observe; [by apply played_agrees | done]).
    destruct (subset_pair_awaited g _ A B C HCA HCB H1 H2 Hag)
      as [HC Haw].
    destruct (infer_loop_terminates g _ Hag) as (fuel & ai' & Hrun & _).
    exists fuel, ai'. split; [done|].
    by apply (awaited_loop g fuel _ ai' C Hag HC Haw).
Qed.

(** C1 as stated fails.  On a 2 x 3 board, after
    [add_knowledge((1, 2), 1)] and [add_knowledge((0, 0), 1)], the loop of
    [add_knowledge((0, 2), 2)] starts with [{(0,1), (1,1), (1,0)} = 1] and
    [{(0,1), (1,1)} = 1] in the knowledge, beside [{(0,1), (1,1)} = 2].
    The first pass marks [(0, 1)] and [(1, 1)] as mines and leaves
    [{(1,0)} = -1]; no pass derives [{(1,0)} = 0] and the call returns
    with [(1, 0)] out of [safes]. *)
Lemma subset_inference_preempted :
  add_all 1 [((1, 2), 1); ((0, 0), 1)] (init 2 3) = Some ai_game_2x3
  ∧ mkSentence {[(0, 1); (1, 1); (1, 0)]} 1
    ∈ knowledge (observe (0, 2) 2 ai_game_2x3)
  ∧ mkSentence {[(0, 1); (1, 1)]} 1
    ∈ knowledge (observe (0, 2) 2 ai_game_2x3)
  ∧ (pass (observe (0, 2) 2 ai_game_2x3)).2 = true
  ∧ knowledge (pass (observe (0, 2) 2 ai_game_2x3)).1
    = [mkSentence {[(1, 0)]} (-1)]
  ∧ pass (pass (observe (0, 2) 2 ai_game_2x3)).1 = (ai_preempted, false)
  ∧ add_knowledge 2 (0, 2) 2 ai_game_2x3 = Some ai_preempted
  ∧ mkSentence {[(1, 0)]} 0 ∉ knowledge ai_preempted
  ∧ (1, 0) ∉ safes ai_preempted.
Proof.
  split; [vm_compute; reflexivity|].
  split; [by_evaluation|]. split; [by_evaluation|].
  split; [vm_compute; reflexivity|]. split; [vm_compute; reflexivity|].
  split; [vm_compute; reflexivity|]. split; [vm_compute; reflexivity|].
  split; by_evaluation.
Qed.

(** The scenario of C1 in a game on the 2 x 3 board with one mine, at
    [(0, 1)]: after the clicks on [(1, 2)] and [(0, 0)], the loop of the
    click on [(0, 2)] starts with [{(0,1), (1,1), (1,0)} = 1] and
    [{(0,1), (1,1)} = 1] as all the knowledge. *)
Lemma subset_inference_derives_safe_witness :
  ((1, 0) ≠ ((0, 1) : cell) ∧ (1, 0) ≠ ((1, 1) : cell)
   ∧ mkSentence {[(0, 1); (1, 1); (1, 0)]} 1
     ∈ knowledge (observe (0, 2) 1 ai_game_2x3)
   ∧ mkSentence {[(0, 1); (1, 1)]} 1
     ∈ knowledge (observe (0, 2) 1 ai_game_2x3)
   ∧ Forall (idle (mines (observe (0, 2) 1 ai_game_2x3)))
            (knowledge (observe (0, 2) 1 ai_game_2x3)))
  ∧ mkSentence {[(1, 0)]} 0
    ∈ knowledge (pass (observe (0, 2) 1 ai_game_2x3)).1
  ∧ (pass (observe (0, 2) 1 ai_game_2x3)).2 = true
  ∧ (1, 0) ∈ safes (pass (pass (observe (0, 2) 1 ai_game_2x3)).1).1
  ∧ ∃ fuel ai', add_knowledge fuel (0, 2) 1 ai_game_2x3 = Some ai'
                ∧ (1, 0) ∈ safes ai'.
Proof.
  assert (((1, 0) : cell) ≠ (0, 1)) as HCA by done.
  assert (((1, 0) : cell) ≠ (1, 1)) as HCB by done.
  assert (mkSentence {[(0, 1); (1, 1); (1, 0)]} 1
          ∈ knowledge (observe (0, 2) 1 ai_game_2x3)) as H1
    by by_evaluation.
  assert (mkSentence {[(0, 1); (1, 1)]} 1
          ∈ knowledge (observe (0, 2) 1 ai_game_2x3)) as H2
    by by_evaluation.
  assert (Forall (idle (mines (observe (0, 2) 1 ai_game_2x3)))
            (knowledge (observe (0, 2) 1 ai_game_2x3))) as Hidle.
  { assert (knowledge (observe (0, 2) 1 ai_game_2x3)
            = [mkSentence {[(0, 1); (1, 1)]} 1;
               mkSentence {[(0, 1); (1, 1); (1, 0)]} 1]) as ->
      by (vm_compute; reflexivity).
    unfold idle. repeat constructor; by_evaluation. }
  split; [done|].
  destruct (subset_inference_derives_safe (observe (0, 2) 1 ai_game_2x3)
              (0, 1) (1, 1) (1, 0) HCA HCB H1 H2)
    as (_ & _ & _ & Hrun & Hgame).
  destruct (Hrun Hidle) as (Hk & Hf & Hs & _).
  split; [done|]. split; [done|]. split; [done|].
  apply (Hgame game_2x3 ai_game_2x3 (0, 2)).
  - apply played_game_2x3.
  - vm_compute. reflexivity.
  - vm_compute. reflexivity.
Defined.

(** * Further properties *)

(** ** What one sentence concludes *)

(** X1. A sentence never reports a cell both as a known mine and as a
    known safe cell, and it reports none when it has no cells; so the
    [elif] of line 242 hides no conclusion: the scan adds to its two sets
    all the known mines and all the known safe cells of every sentence. *)
Theorem known_mines_excludes_known_safes (s : Sentence) :
  Sentence.known_mines s ∩ Sentence.known_safes s = ∅
  ∧ (Sentence.known_mines s ≠ ∅ ∨ Sentence.known_safes s ≠ ∅ → cells s ≠ ∅)
  ∧ ∀ (ms : gset cell) (st : scan_state),
      sc_mines (scan_step ms st s) = sc_mines st ∪ Sentence.known_mines s
      ∧ sc_safes (scan_step ms st s) = sc_safes st ∪ Sentence.known_safes s.
Proof.
  assert (Sentence.known_mines s ≠ ∅ → Sentence.known_safes s = ∅) as Hex.
  { intros Hm. apply leibniz_equiv, elem_of_equiv_empty. intros c Hc.
    apply known_safes_elem in Hc as [H0 Hc].
    apply set_choose_L in Hm as [x Hx].
    apply known_mines_elem in Hx as [Hn Hx].
    rewrite H0 in Hn. symmetry in Hn. apply len_zero in Hn.
    rewrite Hn in Hc. by apply not_elem_of_empty in Hc. }
  split; [|split].
  - destruct (decide (Sentence.known_mines s = ∅)) as [->|Hm].
    + apply leibniz_equiv. apply intersection_empty_l.
    + rewrite (Hex Hm). apply leibniz_equiv. apply intersection_empty_r.
  - intros [Hm|Hs] He; [apply Hm | apply Hs].
    + by apply known_mines_empty.
    + by apply known_safes_empty.
  - intros ms st. split; [apply scan_step_mines|].
    rewrite scan_step_safes.
    destruct (truthy (Sentence.known_mines s)) eqn:Ht; [|done].
    apply truthy_true in Ht. by rewrite (Hex Ht).
Qed.

(** ** The shape of the player after any calls *)

(** The sentences that remain after the marks of a pass, whatever the
    player. *)
Lemma marked_cells ai s' :
  s' ∈ marked ai →
  cells s' ≠ ∅
  ∧ ∃ s, s ∈ knowledge ai
         ∧ cells s'
           = cells s ∖ mines ai ∖ sc_mines (scan ai) ∖ sc_safes (scan ai).
Proof.
  unfold marked. rewrite drop_empty_elem, <- list_fmap_compose.
  intros [Hne (s1 & -> & Hs1)%list_elem_of_fmap]. split; [done|].
  unfold scan in Hs1 at 1. rewrite scan_done in Hs1. simpl in Hs1.
  apply list_elem_of_fmap in Hs1 as (s & -> & Hs). exists s.
  split; [done|]. simpl.
  by rewrite cells_mark_safes, cells_mark_mines, !list_to_set_elements_L,
    purge_cells.
Qed.

Lemma scan_mines_cells ai c :
  c ∈ sc_mines (scan ai) → ∃ s, s ∈ knowledge ai ∧ c ∈ cells s.
Proof.
  unfold scan. intros [Hc|(s & Hs & Hc)]%scan_mines.
  - by apply not_elem_of_empty in Hc.
  - exists s. split; [done|]. by apply known_mines_subseteq.
Qed.

Lemma scan_safes_cells ai c :
  c ∈ sc_safes (scan ai) → ∃ s, s ∈ knowledge ai ∧ c ∈ cells s.
Proof.
  unfold scan. intros [Hc|(s & Hs & _ & Hc)]%scan_safes.
  - by apply not_elem_of_empty in Hc.
  - exists s. split; [done|]. by apply known_safes_subseteq.
Qed.

(** The cells of the sentences after a pass were cells of sentences
    before it; none of them is a known mine or a cell that the scan
    collected. *)
Lemma pass_knowledge_cells ai s' x :
  s' ∈ knowledge (pass ai).1 → x ∈ cells s' →
  (∃ s, s ∈ knowledge ai ∧ x ∈ cells s)
  ∧ x ∉ mines ai ∧ x ∉ sc_mines (scan ai) ∧ x ∉ sc_safes (scan ai).
Proof.
  rewrite pass_eq. simpl.
  assert (∀ s1, s1 ∈ marked ai → x ∈ cells s1 →
            (∃ s, s ∈ knowledge ai ∧ x ∈ cells s)
            ∧ x ∉ mines ai ∧ x ∉ sc_mines (scan ai)
            ∧ x ∉ sc_safes (scan ai)) as Hm.
  { intros s1 (_ & s & Hs & ->)%marked_cells Hx.
    split; [exists s; split; [done|]|]; clear -Hx; set_solver. }
  intros [Hs'|Hs']%elem_of_app Hx; [by eauto|].
  apply infer_sound in Hs' as (_ & s1 & s2 & H1 & _ & _ & ->).
  apply (Hm s1 H1). simpl in Hx. clear -Hx. set_solver.
Qed.

Lemma tidy_init h w : tidy h w (init h w).
Proof. split; simpl; try done; by constructor. Qed.

Lemma tidy_observe h w ai c n : tidy h w ai → tidy h w (observe c n ai).
Proof.
  intros [Hh Hw Hmv Hm Hs Hc].
  assert (tidy h w (mark_safe c (mkAI (height ai) (width ai)
    ({[c]} ∪ moves_made ai) (mines ai) (safes ai) (knowledge ai)))) as Ht2.
  { split; simpl; try done.
    - clear -Hmv. set_solver.
    - intros x [->%elem_of_singleton|Hx]%elem_of_union.
      + right. clear. set_solver.
      + destruct (Hs x Hx) as [?|?]; [by left|right]. set_solver.
    - apply Forall_fmap. eapply Forall_impl; [exact Hc|].
      intros s (H1 & H2 & H3). simpl. rewrite cells_mark_safe.
      split; [clear -H1; set_solver|].
      split; [clear -H2; set_solver|].
      intros x Hx. apply H3. clear -Hx. set_solver. }
  unfold observe. set (ai2 := mark_safe c _) in *.
  set (s := new_sentence ai2 c n).
  assert (cells s ## mines ai2 ∧ cells s ## safes ai2
          ∧ ∀ x, x ∈ cells s → on_board h w x) as Hnew.
  { unfold s. rewrite new_sentence_eq. simpl.
    split; [clear; set_solver|]. split; [clear; set_solver|].
    intros x [Hx _]%elem_of_difference.
    apply neighboring_cells_elem in Hx as (_ & Hb & _).
    by rewrite <- Hh, <- Hw. }
  unfold append_new. destruct (sentence_in s (knowledge ai2)); [done|].
  destruct Ht2 as [Hh2 Hw2 Hmv2 Hm2 Hs2 Hc2].
  split; simpl; try done.
  apply Forall_app. split; [done|]. by apply Forall_singleton.
Qed.

Lemma tidy_pass h w ai : tidy h w ai → tidy h w (pass ai).1.
Proof.
  intros [Hh Hw Hmv Hm Hs Hc]. rewrite Forall_forall in Hc.
  assert (∀ x, x ∈ sc_mines (scan ai) → on_board h w x) as HM.
  { intros x (s & Hin & Hx)%scan_mines_cells.
    destruct (Hc s Hin) as (_ & _ & Hb). by apply Hb. }
  assert (∀ x, x ∈ sc_safes (scan ai) → on_board h w x) as HS.
  { intros x (s & Hin & Hx)%scan_safes_cells.
    destruct (Hc s Hin) as (_ & _ & Hb). by apply Hb. }
  split.
  - by rewrite pass_eq.
  - by rewrite pass_eq.
  - rewrite pass_eq. simpl. clear -Hmv. set_solver.
  - rewrite pass_eq. simpl. intros x [Hx|Hx]%elem_of_union; auto.
  - rewrite pass_eq. simpl. intros x [Hx|Hx]%elem_of_union; auto.
  - apply Forall_forall. intros s' Hs'.
    assert (∀ x, x ∈ cells s' →
              (∃ s, s ∈ knowledge ai ∧ x ∈ cells s)
              ∧ x ∉ mines ai ∧ x ∉ sc_mines (scan ai)
              ∧ x ∉ sc_safes (scan ai)) as Hx
      by (intros x; by apply pass_knowledge_cells).
    rewrite pass_eq. simpl. split; [|split].
    + intros x Hin [HxM|HxM]%elem_of_union;
        destruct (Hx x Hin) as (_ & ? & ? & ?); done.
    + intros x Hin [HxS|HxS]%elem_of_union;
        destruct (Hx x Hin) as ((s & Hs0 & Hxs) & ? & ? & ?); [done|].
      destruct (Hc s Hs0) as (_ & Hd & _). by apply (Hd x).
    + intros x Hin. destruct (Hx x Hin) as ((s & Hs0 & Hxs) & _).
      destruct (Hc s Hs0) as (_ & _ & Hb). by apply Hb.
Qed.

Lemma tidy_infer_loop h w fuel ai ai' :
  tidy h w ai → infer_loop fuel ai = Some ai' → tidy h w ai'.
Proof.
  revert ai. induction fuel as [|fuel IH]; intros ai Ht; [done|].
  rewrite infer_loop_S. pose proof (tidy_pass h w ai Ht) as Ht'.
  destruct (pass ai).2; [by apply IH|]. by intros [= <-].
Qed.

Lemma called_tidy h w ai : called h w ai → tidy h w ai.
Proof.
  induction 1 as [|ai c n fuel ai' _ IH Hrun]; [apply tidy_init|].
  eapply tidy_infer_loop; [|exact Hrun]. by apply tidy_observe.
Qed.

Lemma called_nonempty h w ai :
  called h w ai → Forall (λ s, cells s ≠ ∅) (knowledge ai).
Proof.
  destruct 1 as [|ai c n fuel ai' _ Hrun]; [by constructor|].
  by eapply infer_loop_nonempty.
Qed.

Lemma called_1x4 : called 1 4 ai_1x4.
Proof.
  apply (called_add 1 4 ai_1x4_first (0, 2) 0 1).
  - apply (called_add 1 4 (init 1 4) (0, 0) 1 2); [apply called_init|].
    vm_compute. reflexivity.
  - vm_compute. reflexivity.
Qed.

(** X2. After any calls of [add_knowledge] on a new player, whatever the
    cells and the counts, every move made is a safe cell. *)
Theorem called_moves_made_safe (h w : Z) (ai : AI) :
  called h w ai → moves_made ai ⊆ safes ai.
Proof. intros Hc%called_tidy. apply Hc. Qed.

Lemma called_moves_made_safe_witness :
  called 1 4 ai_1x4 ∧ moves_made ai_1x4 ⊆ safes ai_1x4.
Proof.
  split; [apply called_1x4|].
  apply (called_moves_made_safe 1 4 ai_1x4). apply called_1x4.
Defined.

(** X3. After any calls, no sentence of the knowledge is empty and none
    holds a cell of [mines] or of [safes]; hence lines 246-252 of the
    next pass discard nothing. *)
Theorem called_sentences_unresolved (h w : Z) (ai : AI) :
  called h w ai →
  Forall (λ s, cells s ≠ ∅ ∧ cells s ## mines ai ∧ cells s ## safes ai)
         (knowledge ai)
  ∧ sc_done (scan ai) = knowledge ai.
Proof.
  intros Hc. pose proof (called_nonempty h w ai Hc) as Hne.
  apply called_tidy in Hc. destruct Hc as [_ _ _ _ _ Hc].
  rewrite Forall_forall in Hne, Hc. split.
  - apply Forall_forall. intros s Hs.
    destruct (Hc s Hs) as (? & ? & _). split; [by apply Hne | done].
  - unfold scan. rewrite scan_done. simpl. apply purge_all_disjoint.
    apply Forall_forall. intros s Hs. by destruct (Hc s Hs) as (? & _).
Qed.

Lemma called_sentences_unresolved_witness :
  called 1 4 ai_1x4
  ∧ Forall (λ s, cells s ≠ ∅ ∧ cells s ## mines ai_1x4
                 ∧ cells s ## safes ai_1x4) (knowledge ai_1x4)
  ∧ sc_done (scan ai_1x4) = knowledge ai_1x4.
Proof.
  split; [apply called_1x4|].
  apply (called_sentences_unresolved 1 4 ai_1x4). apply called_1x4.
Defined.

(** X4. After any calls, the height and the width are those of the new
    player, every cell of a sentence and every known mine is a cell of the
    board, and a safe cell that is not on the board is a move made. *)
Theorem called_on_board (h w : Z) (ai : AI) :
  called h w ai →
  height ai = h ∧ width ai = w
  ∧ (∀ c, c ∈ mines ai → on_board h w c)
  ∧ (∀ c, c ∈ safes ai → on_board h w c ∨ c ∈ moves_made ai)
  ∧ ∀ s c, s ∈ knowledge ai → c ∈ cells s → on_board h w c.
Proof.
  intros [Hh Hw _ Hm Hs Hc]%called_tidy. rewrite Forall_forall in Hc.
  split; [done|]. split; [done|]. split; [done|]. split; [done|].
  intros s c Hin Hx. destruct (Hc s Hin) as (_ & _ & Hb). by apply Hb.
Qed.

Lemma called_on_board_witness :
  called 1 4 ai_1x4
  ∧ height ai_1x4 = 1 ∧ width ai_1x4 = 4
  ∧ (∀ c, c ∈ mines ai_1x4 → on_board 1 4 c)
  ∧ (∀ c, c ∈ safes ai_1x4 → on_board 1 4 c ∨ c ∈ moves_made ai_1x4)
  ∧ ∀ s c, s ∈ knowledge ai_1x4 → c ∈ cells s → on_board 1 4 c.
Proof.
  split; [apply called_1x4|].
  apply (called_on_board 1 4 ai_1x4). apply called_1x4.
Defined.

(** ** The player when the loop ends *)

(** The loop ends with the result of a pass that left the flag down. *)
Lemma infer_loop_last fuel ai ai' :
  infer_loop fuel ai = Some ai' → ∃ a, pass a = (ai', false).
Proof.
  revert ai. induction fuel as [|fuel IH]; intros ai; [done|].
  rewrite infer_loop_S. destruct (pass ai) as [a' b] eqn:Hp. simpl.
  destruct b; [apply IH|]. intros [= <-]. by exists ai.
Qed.

(** A pass that leaves the flag down found every sentence idle and no
    inference to add. *)
Lemma pass_quiet a ai' :
  pass a = (ai', false) →
  Forall (idle (mines a)) (knowledge a)
  ∧ infer (drop_empty (knowledge a)) false = (false, [])
  ∧ ai' = mkAI (height a) (width a) (moves_made a) (mines a) (safes a)
               (drop_empty (knowledge a)).
Proof.
  intros Hp. assert ((pass a).2 = false) as Hflag by (by rewrite Hp).
  rewrite pass_eq in Hflag. simpl in Hflag.
  assert (sc_updated (scan a) = false) as Hupd.
  { destruct (sc_updated (scan a)) eqn:E; [|done].
    assert ((infer (marked a) true).1 = true) as Ht
      by (apply infer_flag; by left).
    congruence. }
  assert (Forall (idle (mines a)) (knowledge a)) as Hidle.
  { unfold scan in Hupd. by apply scan_updated in Hupd as [_ ?]. }
  rewrite (pass_idle a Hidle) in Hp.
  destruct (infer (drop_empty (knowledge a)) false) as [b inf] eqn:Einf.
  simpl in Hp. injection Hp as <- ->.
  assert (inf = []) as ->.
  { destruct inf as [|i inf]; [done|].
    assert ((infer (drop_empty (knowledge a)) false).1 = true) as Ht
      by (apply infer_flag; right; by rewrite Einf).
    rewrite Einf in Ht. done. }
  by rewrite app_nil_r.
Qed.

Lemma drop_empty_idemp l : drop_empty (drop_empty l) = drop_empty l.
Proof.
  apply drop_empty_all, Forall_forall. intros s Hs.
  by apply drop_empty_elem in Hs as [? _].
Qed.

(** One more pass on the player that the loop returns changes nothing. *)
Lemma infer_loop_fixed fuel ai ai' :
  infer_loop fuel ai = Some ai' → pass ai' = (ai', false).
Proof.
  intros (a & Hp)%infer_loop_last.
  apply pass_quiet in Hp as (Hidle & Hinf & ->).
  rewrite pass_idle; simpl.
  - by rewrite drop_empty_idemp, Hinf, app_nil_r.
  - rewrite Forall_forall in Hidle. apply Forall_forall.
    intros s [_ Hs]%drop_empty_elem. by apply Hidle.
Qed.

(** X5. Idempotence: one more pass on the player that the loop returns
    changes nothing and leaves the flag down, so that running the loop
    again returns the same player. *)
Theorem loop_result_stable (fuel : nat) (ai ai' : AI) :
  infer_loop fuel ai = Some ai' →
  pass ai' = (ai', false) ∧ ∀ n, infer_loop (S n) ai' = Some ai'.
Proof.
  intros Hpass%infer_loop_fixed.
  split; [done|]. intros n. by rewrite infer_loop_S, Hpass.
Qed.

Lemma loop_result_stable_witness :
  infer_loop 2 (observe (0, 0) 0 (init 1 3)) = Some ai_1x3
  ∧ pass ai_1x3 = (ai_1x3, false)
  ∧ ∀ n, infer_loop (S n) ai_1x3 = Some ai_1x3.
Proof.
  assert (infer_loop 2 (observe (0, 0) 0 (init 1 3)) = Some ai_1x3) as Hrun
    by (vm_compute; reflexivity).
  split; [exact Hrun|].
  exact (loop_result_stable 2 (observe (0, 0) 0 (init 1 3)) ai_1x3 Hrun).
Defined.

(** X6. Saturation: when the loop returns, no sentence of the knowledge
    has a count equal to the number of its cells or equal to zero, and for
    any two sentences of which one's cells strictly include the other's
    the sentence of the difference is in the knowledge. *)
Theorem loop_result_saturated (fuel : nat) (ai ai' : AI) :
  infer_loop fuel ai = Some ai' →
  Forall (λ s, cells s ≠ ∅ ∧ count s ≠ len (cells s) ∧ count s ≠ 0)
         (knowledge ai')
  ∧ ∀ s1 s2, s1 ∈ knowledge ai' → s2 ∈ knowledge ai' →
             cells s1 ≠ cells s2 → cells s2 ⊆ cells s1 →
             mkSentence (cells s1 ∖ cells s2) (count s1 - count s2)
             ∈ knowledge ai'.
Proof.
  intros (a & Hp)%infer_loop_last.
  apply pass_quiet in Hp as (Hidle & Hinf & ->). simpl.
  rewrite Forall_forall in Hidle. split.
  - apply Forall_forall. intros s [Hne Hs]%drop_empty_elem.
    destruct (Hidle s Hs) as (Hkm & Hks & _). split; [done|].
    unfold Sentence.known_mines, Sentence.known_safes in *. split.
    + intros E. rewrite bool_decide_eq_true_2 in Hkm by done. done.
    + intros E. rewrite bool_decide_eq_true_2 in Hks by done.
      assert (truthy (cells s) = true) as Ht by (by apply truthy_true).
      rewrite Ht in Hks. done.
  - intros s1 s2 H1 H2 Hne Hsub.
    destruct (infer_complete (drop_empty (knowledge a)) false s1 s2 H1 H2)
      as [Hin|Hin]; [by split|done|].
    rewrite Hinf in Hin. by apply elem_of_nil in Hin.
Qed.

Lemma loop_result_saturated_witness :
  infer_loop 1 (observe (0, 1) 1 (init 2 3))
  = Some (mkAI 2 3 {[(0, 1)]} ∅ {[(0, 1)]}
            [mkSentence {[(0, 0); (0, 2); (1, 0); (1, 1); (1, 2)]} 1])
  ∧ Forall (λ s, cells s ≠ ∅ ∧ count s ≠ len (cells s) ∧ count s ≠ 0)
      [mkSentence {[(0, 0); (0, 2); (1, 0); (1, 1); (1, 2)]} 1].
Proof.
  assert (infer_loop 1 (observe (0, 1) 1 (init 2 3))
          = Some (mkAI 2 3 {[(0, 1)]} ∅ {[(0, 1)]}
              [mkSentence {[(0, 0); (0, 2); (1, 0); (1, 1); (1, 2)]} 1]))
    as Hrun by (vm_compute; reflexivity).
  split; [exact Hrun|].
  exact (proj1 (loop_result_saturated 1 _ _ Hrun)).
Defined.

(** ** What a call changes *)

Lemma pass_dims ai : height (pass ai).1 = height ai ∧ width (pass ai).1 = width ai.
Proof. by rewrite pass_eq. Qed.

(** What the loop may add to the two sets comes from the cells of the
    sentences that it starts with. *)
Lemma infer_loop_frame fuel ai ai' :
  infer_loop fuel ai = Some ai' →
  height ai' = height ai ∧ width ai' = width ai
  ∧ mines ai ⊆ mines ai' ∧ safes ai ⊆ safes ai'
  ∧ mines ai' ⊆ mines ai ∪ cells_of (knowledge ai)
  ∧ safes ai' ⊆ safes ai ∪ cells_of (knowledge ai)
  ∧ cells_of (knowledge ai') ⊆ cells_of (knowledge ai).
Proof.
  revert ai. induction fuel as [|fuel IH]; intros ai; [done|].
  rewrite infer_loop_S.
  assert (height (pass ai).1 = height ai ∧ width (pass ai).1 = width ai
          ∧ mines ai ⊆ mines (pass ai).1 ∧ safes ai ⊆ safes (pass ai).1
          ∧ mines (pass ai).1 ⊆ mines ai ∪ cells_of (knowledge ai)
          ∧ safes (pass ai).1 ⊆ safes ai ∪ cells_of (knowledge ai)
          ∧ cells_of (knowledge (pass ai).1) ⊆ cells_of (knowledge ai))
    as (Hh & Hw & Hm & Hs & HM & HS & Hc).
  { destruct (pass_dims ai) as [? ?].
    split; [done|]. split; [done|].
    split; [apply pass_mines_mono|]. split; [apply pass_safes_mono|].
    split; [|split].
    - rewrite pass_eq. simpl. intros x [Hx|Hx]%elem_of_union.
      + apply elem_of_union. right. apply cells_of_elem.
        by apply scan_mines_cells.
      + apply elem_of_union. by left.
    - rewrite pass_eq. simpl. intros x [Hx|Hx]%elem_of_union.
      + apply elem_of_union. right. apply cells_of_elem.
        by apply scan_safes_cells.
      + apply elem_of_union. by left.
    - intros x (s' & Hs' & Hx)%cells_of_elem. apply cells_of_elem.
      by destruct (pass_knowledge_cells ai s' x Hs' Hx) as [? _]. }
  destruct (pass ai).2.
  - intros (Hh' & Hw' & Hm' & Hs' & HM' & HS' & Hc')%IH.
    split; [congruence|]. split; [congruence|].
    clear -Hm Hs HM HS Hc Hm' Hs' HM' HS' Hc'. set_solver.
  - intros [= <-]. done.
Qed.

Lemma observe_knowledge_cells c n ai :
  cells_of (knowledge (observe c n ai))
  ⊆ (cells_of (knowledge ai)
     ∪ neighboring_cells (height ai) (width ai) c) ∖ {[c]}.
Proof.
  assert (∀ x, x ∈ cells_of (Sentence.mark_safe c <$> knowledge ai) →
               x ∈ cells_of (knowledge ai) ∧ x ≠ c) as Hold.
  { intros x (s' & (s & -> & Hs)%list_elem_of_fmap & Hx)%cells_of_elem.
    rewrite cells_mark_safe in Hx. split; [|clear -Hx; set_solver].
    apply cells_of_elem. exists s. split; [done|]. clear -Hx. set_solver. }
  unfold observe, append_new.
  set (ai2 := mark_safe c _).
  destruct (sentence_in _ _); simpl.
  - intros x Hx. apply Hold in Hx as [Hx Hne]. clear -Hx Hne. set_solver.
  - intros x (s' & [Hs'|Hs']%elem_of_app & Hx)%cells_of_elem.
    + assert (x ∈ cells_of (Sentence.mark_safe c <$> knowledge ai)) as Hin
        by (apply cells_of_elem; eauto).
      apply Hold in Hin as [Hin Hne]. clear -Hin Hne. set_solver.
    + apply list_elem_of_singleton in Hs'. subst s'.
      rewrite new_sentence_eq in Hx. simpl in Hx.
      apply elem_of_difference in Hx as [Hx _].
      pose proof Hx as Hx'.
      apply neighboring_cells_elem in Hx' as (Hne & _).
      clear -Hx Hne. set_solver.
Qed.

(** X7. A call that returns keeps the height and the width, adds the cell
    of the call to [moves_made] and nothing else, never takes a cell out
    of [safes] or [mines], and adds to them only cells of the sentences it
    had or neighbours of the cell of the call; the cells of the sentences
    it leaves are among those too. *)
Theorem add_knowledge_frame (fuel : nat) (c : cell) (n : Z) (ai ai' : AI) :
  add_knowledge fuel c n ai = Some ai' →
  height ai' = height ai ∧ width ai' = width ai
  ∧ moves_made ai' = {[c]} ∪ moves_made ai
  ∧ mines ai ⊆ mines ai' ∧ {[c]} ∪ safes ai ⊆ safes ai'
  ∧ mines ai' ∪ safes ai' ∪ cells_of (knowledge ai')
    ⊆ mines ai ∪ safes ai ∪ {[c]} ∪ cells_of (knowledge ai)
      ∪ neighboring_cells (height ai) (width ai) c.
Proof.
  unfold add_knowledge. intros Hrun.
  pose proof (infer_loop_moves_made _ _ _ Hrun) as Hmv.
  apply infer_loop_frame in Hrun as (Hh & Hw & Hm & Hs & HM & HS & Hc).
  pose proof (observe_knowledge_cells c n ai) as Hobs.
  rewrite observe_mines in Hm, HM. rewrite observe_safes in Hs, HS.
  rewrite observe_moves_made in Hmv.
  assert (height (observe c n ai) = height ai
          ∧ width (observe c n ai) = width ai) as [Hh0 Hw0].
  { unfold observe, append_new. by destruct (sentence_in _ _). }
  split; [congruence|]. split; [congruence|]. split; [done|].
  split; [done|]. split; [done|].
  clear -HM HS Hc Hobs. set_solver.
Qed.

Lemma add_knowledge_frame_witness :
  add_knowledge 2 (0, 0) 1 (init 1 4) = Some ai_1x4_first
  ∧ height ai_1x4_first = height (init 1 4)
  ∧ width ai_1x4_first = width (init 1 4)
  ∧ moves_made ai_1x4_first = {[(0, 0)]} ∪ moves_made (init 1 4)
  ∧ mines (init 1 4) ⊆ mines ai_1x4_first
  ∧ {[(0, 0)]} ∪ safes (init 1 4) ⊆ safes ai_1x4_first
  ∧ mines ai_1x4_first ∪ safes ai_1x4_first
      ∪ cells_of (knowledge ai_1x4_first)
    ⊆ mines (init 1 4) ∪ safes (init 1 4) ∪ {[(0, 0)]}
      ∪ cells_of (knowledge (init 1 4))
      ∪ neighboring_cells (height (init 1 4)) (width (init 1 4)) (0, 0).
Proof.
  assert (add_knowledge 2 (0, 0) 1 (init 1 4) = Some ai_1x4_first) as Hrun
    by (vm_compute; reflexivity).
  split; [exact Hrun|].
  exact (add_knowledge_frame 2 (0, 0) 1 (init 1 4) ai_1x4_first Hrun).
Defined.

(** X8. One pass resolves every sentence whose count is the number of its
    cells or zero: the cells of the first are in [mines] after the pass,
    the cells of the second are in [safes], and no sentence that the pass
    leaves holds any of them. *)
Theorem pass_resolves (ai : AI) (s : Sentence) :
  s ∈ knowledge ai →
  (count s = len (cells s) → cells s ⊆ mines (pass ai).1)
  ∧ (count s = 0 → cells s ⊆ safes (pass ai).1)
  ∧ (count s = len (cells s) ∨ count s = 0 →
     Forall (λ s', cells s' ## cells s) (knowledge (pass ai).1)).
Proof.
  intros Hs.
  assert (count s = len (cells s) → cells s ⊆ sc_mines (scan ai)) as HM.
  { intros Hn x Hx. unfold scan. apply scan_mines. right. exists s.
    split; [done|]. by apply known_mines_elem. }
  assert (count s = 0 → cells s ⊆ sc_mines (scan ai) ∪ sc_safes (scan ai))
    as HS.
  { intros H0 x Hx. destruct (decide (count s = len (cells s))) as [Hn|Hn].
    - apply elem_of_union. left. by apply HM.
    - apply elem_of_union. right. unfold scan. apply scan_safes. right.
      exists s. split; [done|]. split.
      + unfold Sentence.known_mines. by rewrite bool_decide_eq_false_2.
      + by apply known_safes_elem. }
  split; [|split].
  - intros Hn. rewrite pass_eq. simpl. etrans; [by apply HM|].
    apply union_subseteq_l.
  - intros H0. destruct (decide (count s = len (cells s))) as [Hn|Hn].
    + rewrite H0 in Hn. symmetry in Hn. apply len_zero in Hn. rewrite Hn.
      apply empty_subseteq.
    + rewrite pass_eq. simpl. intros x Hx. apply elem_of_union. left.
      unfold scan. apply scan_safes. right. exists s. split; [done|].
      split.
      * unfold Sentence.known_mines. by rewrite bool_decide_eq_false_2.
      * by apply known_safes_elem.
  - intros Hres. apply Forall_forall. intros s' Hs' x Hx' Hx.
    destruct (pass_knowledge_cells ai s' x Hs' Hx') as (_ & _ & HnM & HnS).
    destruct Hres as [Hn|H0].
    + by apply HnM, HM.
    + specialize (HS H0 x Hx). apply elem_of_union in HS as [?|?]; done.
Qed.

Lemma pass_resolves_witness :
  mkSentence {[(0, 1)]} 1 ∈ knowledge (observe (0, 0) 1 (init 1 4))
  ∧ cells (mkSentence {[(0, 1)]} 1)
    ⊆ mines (pass (observe (0, 0) 1 (init 1 4))).1.
Proof.
  assert (mkSentence {[(0, 1)]} 1 ∈ knowledge (observe (0, 0) 1 (init 1 4)))
    as Hin by (vm_compute; left).
  split; [exact Hin|].
  apply (proj1 (pass_resolves (observe (0, 0) 1 (init 1 4)) _ Hin)).
  vm_compute. reflexivity.
Defined.

(** ** The inferences, as a whole *)

Lemma infer_NoDup kn upd : NoDup (infer kn upd).2.
Proof.
  unfold infer.
  apply (foldl_invariant (λ st : bool * list Sentence, NoDup st.2));
    [apply NoDup_nil_2|].
  intros st s1 _ Hst.
  apply (foldl_invariant (λ st : bool * list Sentence, NoDup st.2));
    [done|].
  intros st' s2 _ Hst'. rewrite infer_step_eq.
  case_decide as Hc; simpl; [|done].
  destruct Hc as (_ & _ & Hnew).
  apply NoDup_app. split; [done|]. split; [|apply NoDup_singleton].
  intros x Hx ->%list_elem_of_singleton. done.
Qed.

(** X9. Lines 262-271: a sentence is among the inferences exactly when it
    is not in the knowledge and is the difference of two sentences of the
    knowledge of which one's cells strictly include the other's; no
    inference occurs twice; and the flag is up afterwards exactly when it
    was up before or an inference was added. *)
Theorem infer_characterised (kn : list Sentence) (upd : bool) (i : Sentence) :
  (i ∈ (infer kn upd).2
   ↔ i ∉ kn ∧ ∃ s1 s2, s1 ∈ kn ∧ s2 ∈ kn ∧ cells s1 ≠ cells s2
                        ∧ cells s2 ⊆ cells s1
                        ∧ i = mkSentence (cells s1 ∖ cells s2)
                                         (count s1 - count s2))
  ∧ NoDup (infer kn upd).2
  ∧ ((infer kn upd).1 = true ↔ upd = true ∨ (infer kn upd).2 ≠ []).
Proof.
  split; [|split; [apply infer_NoDup | apply infer_flag]].
  split.
  - intros (Hnew & s1 & s2 & H1 & H2 & [Hne Hsub] & ->)%infer_sound.
    split; [done|]. exists s1, s2. done.
  - intros (Hnew & s1 & s2 & H1 & H2 & Hne & Hsub & ->).
    destruct (infer_complete kn upd s1 s2 H1 H2) as [Hin|Hin];
      [by split | done | done].
Qed.

(** ** [make_random_move], as the code has it *)

(** X10. [make_random_move] can return a cell exactly when the cell's first
    component is in [range(width)], its second one is in [range(height)]
    and it is neither a move made nor a known mine; it returns [None]
    exactly when there is no such cell. *)
Theorem make_random_move_characterised (ai : AI) (x : cell) :
  (make_random_move ai (Some x) ai
   ↔ (0 ≤ x.1 < width ai ∧ 0 ≤ x.2 < height ai)
     ∧ x ∉ moves_made ai ∧ x ∉ mines ai)
  ∧ (make_random_move ai None ai
     ↔ ∀ y, 0 ≤ y.1 < width ai → 0 ≤ y.2 < height ai →
            y ∈ moves_made ai ∨ y ∈ mines ai).
Proof.
  assert (∀ y, y ∈ available_cells ai
               ↔ (0 ≤ y.1 < width ai ∧ 0 ≤ y.2 < height ai)
                 ∧ y ∉ moves_made ai ∧ y ∉ mines ai) as Hav.
  { intros y. unfold available_cells.
    rewrite !elem_of_difference, all_cells_elem. tauto. }
  split; split.
  - intros Hmove. inversion Hmove as [x' rest Ht Hpop | Ht]; subst.
    apply set_pop_elem in Hpop. by apply Hav.
  - intros Hx. apply Hav in Hx.
    apply (random_move_pop ai x (available_cells ai ∖ {[x]})).
    + apply truthy_true. intros He. rewrite He in Hx.
      by apply not_elem_of_empty in Hx.
    + by constructor.
  - intros Hmove. inversion Hmove as [| Ht]; subst.
    apply truthy_false in Ht. intros y H1 H2.
    destruct (decide (y ∈ moves_made ai)) as [|Hn1]; [by left|].
    destruct (decide (y ∈ mines ai)) as [|Hn2]; [by right|].
    assert (y ∈ available_cells ai) as Hy by (by apply Hav).
    rewrite Ht in Hy. by apply not_elem_of_empty in Hy.
  - intros Hall. apply random_move_none. apply truthy_false.
    apply leibniz_equiv, elem_of_equiv_empty. intros y Hy.
    apply Hav in Hy as ([H1 H2] & Hn1 & Hn2).
    destruct (Hall y H1 H2); done.
Qed.

(** ** The sentence of a call, in closed form *)

(** X11. Lines 207-224: the sentence that a call builds holds the
    neighbours of the cell that are on the board and neither known mines
    nor safe cells, with the count less the number of known mines among
    the neighbours; the cell of the call is never one of its cells.  The
    order in which line 216 visits the neighbours plays no part. *)
Theorem new_sentence_closed_form (c : cell) (n : Z) (ai : AI) :
  let ai2 := mark_safe c (mkAI (height ai) (width ai) ({[c]} ∪ moves_made ai)
                            (mines ai) (safes ai) (knowledge ai)) in
  let nb := neighboring_cells (height ai) (width ai) c in
  new_sentence ai2 c n
  = mkSentence (nb ∖ (mines ai ∪ safes ai)) (n - len (nb ∩ mines ai))
  ∧ c ∉ cells (new_sentence ai2 c n)
  ∧ (∀ x, x ∈ nb ↔ x ≠ c ∧ on_board (height ai) (width ai) x
                   ∧ c.1 - 1 ≤ x.1 ≤ c.1 + 1 ∧ c.2 - 1 ≤ x.2 ≤ c.2 + 1)
  ∧ (new_sentence ai2 c n ∈ knowledge (observe c n ai)).
Proof.
  intros ai2 nb.
  assert (c ∉ nb) as Hc.
  { unfold nb. rewrite neighboring_cells_elem. by intros [? _]. }
  assert (new_sentence ai2 c n
          = mkSentence (nb ∖ (mines ai ∪ safes ai)) (n - len (nb ∩ mines ai)))
    as Heq.
  { rewrite new_sentence_eq. simpl. fold nb. f_equal.
    - clear -Hc. set_solver.
    - do 2 f_equal. clear. set_solver. }
  split; [done|]. split; [|split].
  - rewrite Heq. simpl. clear -Hc. set_solver.
  - intros x. apply neighboring_cells_elem.
  - unfold observe. fold ai2. unfold append_new.
    destruct (sentence_in _ _) eqn:Hin.
    + by apply sentence_in_true in Hin.
    + simpl. apply elem_of_app. right. by left.
Qed.

(** ** The operations of a sentence and the board *)

(** X12. When a sentence tells the truth about a board, every cell of
    [known_mines()] holds a mine and no cell of [known_safes()] does;
    [mark_mine] with a cell that holds a mine, [mark_safe] with a cell
    that holds none, and the difference with a true sentence over a
    subset of its cells all give a sentence that tells the truth, with
    [0 <= count <= len(cells)]. *)
Theorem sentence_operations_sound (g : Minesweeper) (s : Sentence) :
  truthful g s →
  (∀ c, c ∈ Sentence.known_mines s → mine_at g c = true)
  ∧ (∀ c, c ∈ Sentence.known_safes s → mine_at g c = false)
  ∧ (∀ c, mine_at g c = true →
          truthful g (Sentence.mark_mine c s)
          ∧ in_range (Sentence.mark_mine c s))
  ∧ (∀ c, mine_at g c = false →
          truthful g (Sentence.mark_safe c s)
          ∧ in_range (Sentence.mark_safe c s))
  ∧ (∀ s2, truthful g s2 → cells s2 ⊆ cells s →
           truthful g (mkSentence (cells s ∖ cells s2) (count s - count s2))
           ∧ in_range (mkSentence (cells s ∖ cells s2)
                                  (count s - count s2))).
Proof.
  intros Hs. split; [|split; [|split; [|split]]].
  - intros c. by apply truthful_known_mines.
  - intros c. by apply truthful_known_safes.
  - intros c Hc. pose proof (truthful_mark_mine g c s Hc Hs) as Ht.
    split; [done|]. by apply (truthful_in_range g).
  - intros c Hc. pose proof (truthful_mark_safe g c s Hc Hs) as Ht.
    split; [done|]. by apply (truthful_in_range g).
  - intros s2 Hs2 Hsub.
    pose proof (truthful_difference g s s2 Hsub Hs Hs2) as Ht.
    split; [done|]. by apply (truthful_in_range g).
Qed.

Lemma sentence_operations_sound_witness :
  truthful game_2x2 (mkSentence {[(0, 1); (1, 0); (1, 1)]} 1)
  ∧ truthful game_2x2
      (Sentence.mark_mine (1, 1) (mkSentence {[(0, 1); (1, 0); (1, 1)]} 1)).
Proof.
  assert (truthful game_2x2 (mkSentence {[(0, 1); (1, 0); (1, 1)]} 1)) as Ht
    by (vm_compute; reflexivity).
  split; [exact Ht|].
  destruct (sentence_operations_sound game_2x2 _ Ht) as (_ & _ & Hm & _).
  apply (Hm (1, 1)). vm_compute. reflexivity.
Defined.

(** ** The order of the marks *)

(** X13. The loops of lines 254-258 visit a set in an order that Python
    does not fix: marking the cells of two lists without repetition that
    hold the same cells gives the same player, the one whose sentences
    have lost those cells and, for mines, whose counts have dropped by the
    number of cells lost. *)
Theorem marks_order_independent (l l' : list cell) (ai : AI) :
  NoDup l → NoDup l' → (∀ x, x ∈ l ↔ x ∈ l') →
  foldl (λ acc x, mark_mine x acc) ai l
  = foldl (λ acc x, mark_mine x acc) ai l'
  ∧ foldl (λ acc x, mark_safe x acc) ai l
    = foldl (λ acc x, mark_safe x acc) ai l'
  ∧ foldl (λ acc x, mark_mine x acc) ai l
    = mkAI (height ai) (width ai) (moves_made ai)
           (list_to_set l ∪ mines ai) (safes ai)
           ((λ s, mkSentence (cells s ∖ list_to_set l)
                             (count s - len (cells s ∩ list_to_set l)))
              <$> knowledge ai).
Proof.
  intros Hl Hl' Hsame.
  assert (list_to_set l = (list_to_set l' : gset cell)) as Hset.
  { apply leibniz_equiv, set_equiv. intros x.
    by rewrite !elem_of_list_to_set. }
  assert (∀ l0, NoDup l0 →
            foldl (λ acc x, mark_mine x acc) ai l0
            = mkAI (height ai) (width ai) (moves_made ai)
                (list_to_set l0 ∪ mines ai) (safes ai)
                ((λ s, mkSentence (cells s ∖ list_to_set l0)
                         (count s - len (cells s ∩ list_to_set l0)))
                   <$> knowledge ai)) as Hmine.
  { intros l0 Hl0. rewrite foldl_mark_mine. f_equal.
    apply list_fmap_ext. intros i s _. by apply mark_mines_eq. }
  split; [|split].
  - by rewrite (Hmine l Hl), (Hmine l' Hl'), Hset.
  - rewrite !foldl_mark_safe. rewrite Hset. f_equal.
    apply list_fmap_ext. intros i s _. by rewrite !mark_safes_eq, Hset.
  - by apply Hmine.
Qed.

Lemma marks_order_independent_witness :
  foldl (λ acc x, mark_mine x acc) ai_game_2x2 [(0, 1); (1, 1)]
  = foldl (λ acc x, mark_mine x acc) ai_game_2x2 [(1, 1); (0, 1)].
Proof.
  apply (marks_order_independent [(0, 1); (1, 1)] [(1, 1); (0, 1)]
           ai_game_2x2).
  - by_evaluation.
  - by_evaluation.
  - intros x. rewrite !elem_of_cons, !elem_of_nil. tauto.
Defined.

(** ** Games: what the player knows is true *)

(** X14. In a game, every cell of [mines] holds a mine of the board, no
    cell of [safes] does, and every sentence of the knowledge counts the
    mines of its cells. *)
Theorem played_knowledge_sound (g : Minesweeper) (ai : AI) :
  played g ai →
  (∀ c, c ∈ mines ai → mine_at g c = true)
  ∧ (∀ c, c ∈ safes ai → mine_at g c = false)
  ∧ Forall (λ s, count s = mines_in g (cells s)) (knowledge ai).
Proof.
  intros [_ _ Hm Hs Ht _]%played_agrees. done.
Qed.

Lemma played_knowledge_sound_witness :
  played game_2x2 ai_game_2x2
  ∧ (∀ c, c ∈ mines ai_game_2x2 → mine_at game_2x2 c = true)
  ∧ (∀ c, c ∈ safes ai_game_2x2 → mine_at game_2x2 c = false)
  ∧ Forall (λ s, count s = mines_in game_2x2 (cells s))
      (knowledge ai_game_2x2).
Proof.
  split; [apply played_game_2x2|].
  apply (played_knowledge_sound game_2x2 ai_game_2x2).
  apply played_game_2x2.
Defined.

(** X15. In a game, the cell that [make_safe_move] returns holds no mine
    and has not been clicked; and [make_random_move] never returns a cell
    that the player knows to be a mine. *)
Theorem played_moves_avoid_mines (g : Minesweeper) (ai ai' : AI) (x : cell) :
  played g ai →
  (make_safe_move ai (Some x) ai' →
   mine_at g x = false ∧ x ∉ moves_made ai)
  ∧ (make_random_move ai (Some x) ai' → x ∉ mines ai ∧ x ∉ moves_made ai).
Proof.
  intros Hag%played_agrees. split.
  - intros Hmove. inversion Hmove as [x' rest Ht Hpop | Ht]; subst.
    apply set_pop_elem in Hpop.
    apply elem_of_difference in Hpop as [Hs Hn]. split; [|done].
    by apply (agrees_safes _ _ Hag).
  - intros Hmove. inversion Hmove as [x' rest Ht Hpop | Ht]; subst.
    apply set_pop_elem in Hpop. unfold available_cells in Hpop.
    apply elem_of_difference in Hpop as [Hpop Hn].
    apply elem_of_difference in Hpop as [_ Hmv]. done.
Qed.

Lemma played_game_1x3 : played game_1x3 ai_1x3.
Proof.
  apply (played_click game_1x3 (init 1 3) (0, 0) 2 ai_1x3).
  - apply (played_init game_1x3).
  - vm_compute. reflexivity.
  - vm_compute. reflexivity.
Qed.

Lemma played_moves_avoid_mines_witness :
  played game_1x3 ai_1x3
  ∧ make_safe_move ai_1x3 (Some (0, 1)) ai_1x3
  ∧ mine_at game_1x3 (0, 1) = false ∧ (0, 1) ∉ moves_made ai_1x3.
Proof.
  assert (make_safe_move ai_1x3 (Some (0, 1)) ai_1x3) as Hmove.
  { apply (safe_move_pop ai_1x3 (0, 1)
             ((safes ai_1x3 ∖ moves_made ai_1x3) ∖ {[(0, 1)]})).
    - vm_compute. reflexivity.
    - constructor. by_evaluation. }
  split; [apply played_game_1x3|]. split; [exact Hmove|].
  apply (proj1 (played_moves_avoid_mines game_1x3 ai_1x3 ai_1x3 (0, 1)
                  played_game_1x3) Hmove).
Defined.

(** ** The board game, as Python reads the board *)

Lemma py_index_in_range {A} (l : list A) (i : Z) :
  0 ≤ i < Z.of_nat (length l) → py_index l i = l !! Z.to_nat i
  ∧ is_Some (py_index l i).
Proof.
  intros Hi. unfold py_index. rewrite bool_decide_eq_true_2 by lia.
  split; [done|]. apply lookup_lt_is_Some. lia.
Qed.

Lemma py_index_wraps {A} (l : list A) (i : Z) :
  - Z.of_nat (length l) ≤ i < 0 →
  py_index l i = py_index l (Z.of_nat (length l) + i).
Proof.
  intros Hi. unfold py_index.
  rewrite bool_decide_eq_false_2 by lia.
  rewrite bool_decide_eq_true_2 by lia.
  by rewrite (bool_decide_eq_true_2 (0 ≤ _)) by lia.
Qed.

Lemma py_index_None {A} (l : list A) (i : Z) :
  py_index l i = None
  ↔ ¬ (- Z.of_nat (length l) ≤ i < Z.of_nat (length l)).
Proof.
  unfold py_index. repeat case_bool_decide.
  - rewrite lookup_ge_None. lia.
  - rewrite lookup_ge_None. lia.
  - split; [lia | done].
Qed.

Lemma well_formed_row g i row :
  well_formed g → py_index (board g) i = Some row →
  Z.of_nat (length row) = g_width g.
Proof.
  intros [_ Hrows] Hi. rewrite Forall_forall in Hrows. apply Hrows.
  unfold py_index in Hi. repeat case_bool_decide; try done;
    by eapply list_elem_of_lookup_2.
Qed.

(** X16. [is_mine] does not test its indexes.  On the board that
    [__init__] builds it returns the entry of a cell of the board; for a
    negative row or column down to [-height] or [-width] it returns the
    entry of the cell counted from the end, without an error; and it
    raises [IndexError] exactly when the row is outside
    [-height..height-1] or the column is outside [-width..width-1]. *)
Theorem is_mine_indexing (g : Minesweeper) (c : cell) :
  well_formed g →
  (on_board (g_height g) (g_width g) c →
   Board.is_mine g c = Some (is_mine g c))
  ∧ (- g_height g ≤ c.1 < 0 →
     Board.is_mine g c = Board.is_mine g (g_height g + c.1, c.2))
  ∧ (- g_height g ≤ c.1 < g_height g → - g_width g ≤ c.2 < 0 →
     Board.is_mine g c = Board.is_mine g (c.1, g_width g + c.2))
  ∧ (Board.is_mine g c = None
     ↔ ¬ (- g_height g ≤ c.1 < g_height g ∧ - g_width g ≤ c.2 < g_width g)).
Proof.
  intros Hwf. pose proof Hwf as [Hh Hrows].
  destruct c as [i j]. simpl. unfold Board.is_mine. simpl.
  split; [|split; [|split]].
  - intros [Hi Hj]. simpl in Hi, Hj.
    destruct (py_index_in_range (board g) i) as [Hrow [row Hsome]]; [lia|].
    rewrite Hsome. simpl.
    pose proof (well_formed_row g i row Hwf Hsome) as Hlen.
    destruct (py_index_in_range row j) as [Hb [b Hbs]]; [lia|].
    rewrite Hbs. unfold is_mine, board_at. simpl.
    rewrite <- Hrow, Hsome. simpl. by rewrite <- Hb, Hbs.
  - intros Hi. rewrite (py_index_wraps (board g) i) by lia.
    by rewrite Hh.
  - intros Hi Hj.
    destruct (py_index (board g) i) as [row|] eqn:Hrow; [|done]. simpl.
    pose proof (well_formed_row g i row Hwf Hrow) as Hlen.
    rewrite (py_index_wraps row j) by lia. by rewrite Hlen.
  - destruct (py_index (board g) i) as [row|] eqn:Hrow; simpl.
    + pose proof (well_formed_row g i row Hwf Hrow) as Hlen.
      rewrite py_index_None, Hlen.
      assert (- g_height g ≤ i < g_height g).
      { destruct (decide (- g_height g ≤ i < g_height g)) as [|Hn];
          [done|].
        rewrite <- Hh in Hn. apply py_index_None in Hn. congruence. }
      tauto.
    + apply py_index_None in Hrow. rewrite Hh in Hrow. tauto.
Qed.

Lemma well_formed_game_2x2 : well_formed game_2x2.
Proof. split; [done|]. repeat constructor. Qed.

Lemma is_mine_indexing_witness :
  well_formed game_2x2
  ∧ Board.is_mine game_2x2 (-1, -1) = Board.is_mine game_2x2 (1, -1)
  ∧ Board.is_mine game_2x2 (1, -1) = Board.is_mine game_2x2 (1, 1).
Proof.
  split; [apply well_formed_game_2x2|].
  destruct (is_mine_indexing game_2x2 (-1, -1) well_formed_game_2x2)
    as (_ & Hrow & _).
  destruct (is_mine_indexing game_2x2 (1, -1) well_formed_game_2x2)
    as (_ & _ & Hcol & _).
  split.
  - apply Hrow. simpl. lia.
  - apply Hcol; simpl; lia.
Defined.

Lemma board_read g i j :
  well_formed g → 0 ≤ i < g_height g → 0 ≤ j < g_width g →
  ∃ row, py_index (board g) i = Some row
         ∧ py_index row j = Some (board_at g i j).
Proof.
  intros Hwf Hi Hj. pose proof Hwf as [Hh _].
  destruct (py_index_in_range (board g) i) as [Hrow [row Hsome]]; [lia|].
  exists row. split; [done|].
  pose proof (well_formed_row g i row Hwf Hsome) as Hlen.
  destruct (py_index_in_range row j) as [Hb [b Hbs]]; [lia|].
  rewrite Hbs. unfold board_at. rewrite <- Hrow, Hsome. simpl.
  by rewrite <- Hb, Hbs.
Qed.

Lemma foldl_Some {A B} (f : option A → B → option A) (f' : A → B → A)
    (l : list B) (a : A) :
  (∀ a' x, f (Some a') x = Some (f' a' x)) →
  foldl f (Some a) l = Some (foldl f' a l).
Proof.
  intros Hf. revert a. induction l as [|x l IH]; intros a; simpl; [done|].
  by rewrite Hf, IH.
Qed.

(** X17. On the board that [__init__] builds, [nearby_mines] raises no
    error for any cell, on the board or not: every entry that it reads
    passed the test of line 74. *)
Theorem nearby_mines_never_raises (g : Minesweeper) (c : cell) :
  well_formed g → Board.nearby_mines g c = Some (nearby_mines g c).
Proof.
  intros Hwf. unfold Board.nearby_mines, nearby_mines.
  apply foldl_Some. intros n i. apply foldl_Some. intros n' j.
  unfold Board.nearby_step. simpl.
  case_bool_decide; [done|].
  destruct (bool_decide (0 ≤ i < g_height g)) eqn:Hi; simpl; [|done].
  destruct (bool_decide (0 ≤ j < g_width g)) eqn:Hj; simpl; [|done].
  apply bool_decide_eq_true in Hi. apply bool_decide_eq_true in Hj.
  destruct (board_read g i j Hwf Hi Hj) as (row & -> & Hb). simpl.
  by rewrite Hb.
Qed.

Lemma nearby_mines_never_raises_witness :
  well_formed game_2x2
  ∧ Board.nearby_mines game_2x2 (2, 2) = Some (nearby_mines game_2x2 (2, 2)).
Proof.
  split; [apply well_formed_game_2x2|].
  apply (nearby_mines_never_raises game_2x2 (2, 2)).
  apply well_formed_game_2x2.
Defined.

Lemma box_length c : length (box c) = 9%nat.
Proof. by destruct c. Qed.

Lemma box_self c : c ∈ box c.
Proof.
  destruct c as [r k]. unfold box, around. simpl.
  do 4 right. left.
Qed.

Lemma neighboring_cells_size h w c : len (neighboring_cells h w c) ≤ 8.
Proof.
  unfold len. rewrite neighboring_cells_box.
  rewrite size_list_to_set by apply NoDup_filter, box_NoDup.
  assert (length (filter (λ x, x ≠ c ∧ on_board h w x) (box c))
          < length (box c))%nat as Hlt.
  { apply (length_filter_lt _ _ c); [apply box_self|]. by intros [? _]. }
  rewrite box_length in Hlt. lia.
Qed.

(** X18. [nearby_mines] returns the number of mines among the cells of the
    board that are within one row and one column of the cell, the cell
    itself left out: a number between 0 and 8, whether or not the cell is
    on the board or holds a mine. *)
Theorem nearby_mines_counts_neighbours (g : Minesweeper) (c : cell) :
  nearby_mines g c
  = len (filter (λ x, is_mine g x = true)
           (neighboring_cells (g_height g) (g_width g) c))
  ∧ (∀ x, x ∈ neighboring_cells (g_height g) (g_width g) c
          ↔ x ≠ c ∧ on_board (g_height g) (g_width g) x
            ∧ c.1 - 1 ≤ x.1 ≤ c.1 + 1 ∧ c.2 - 1 ≤ x.2 ≤ c.2 + 1)
  ∧ 0 ≤ nearby_mines g c ≤ 8.
Proof.
  assert (nearby_mines g c
          = len (filter (λ x, is_mine g x = true)
                   (neighboring_cells (g_height g) (g_width g) c))) as Heq.
  { rewrite nearby_mines_eq. unfold mines_in. f_equal.
    apply leibniz_equiv, set_equiv. intros x.
    rewrite !elem_of_filter, neighboring_cells_elem. unfold mine_at, on_board.
    rewrite !andb_true_iff, !bool_decide_eq_true. tauto. }
  split; [done|]. split; [intros x; apply neighboring_cells_elem|].
  rewrite nearby_mines_eq.
  pose proof (mines_in_bounds g
    (neighboring_cells (g_height g) (g_width g) c)) as Hb.
  pose proof (neighboring_cells_size (g_height g) (g_width g) c). lia.
Qed.

(** ** Calling again *)

Lemma recorded_called h w hist ai : recorded h w hist ai → called h w ai.
Proof.
  induction 1 as [|hist ai c n fuel ai' _ IH Hrun]; [apply called_init|].
  by eapply called_add.
Qed.

Lemma mark_safe_eq c s :
  Sentence.mark_safe c s = mkSentence (cells s ∖ {[c]}) (count s).
Proof.
  unfold Sentence.mark_safe. case_bool_decide as Hc; [done|].
  destruct s as [X k]. simpl in *. f_equal. set_solver.
Qed.

Lemma sentence_for_mark_safe h w M S c n x :
  Sentence.mark_safe x (sentence_for h w M S c n)
  = sentence_for h w M ({[x]} ∪ S) c n.
Proof.
  rewrite mark_safe_eq. unfold sentence_for. simpl. f_equal. set_solver.
Qed.

Lemma sentence_for_new ai c n :
  new_sentence ai c n
  = sentence_for (height ai) (width ai) (mines ai) (safes ai) c n.
Proof. apply new_sentence_eq. Qed.

Lemma remembers_observe h w hist ai c n :
  height ai = h → width ai = w →
  remembers h w hist ai → remembers h w ((c, n) :: hist) (observe c n ai).
Proof.
  intros Hh Hw Hrem c0 n0 Hin.
  rewrite observe_moves_made, observe_mines, observe_safes.
  assert (sentence_for h w (mines ai) ({[c]} ∪ safes ai) c n
          ∈ knowledge (observe c n ai)) as Hnew.
  { unfold observe. set (ai2 := mark_safe c _).
    assert (new_sentence ai2 c n
            = sentence_for h w (mines ai) ({[c]} ∪ safes ai) c n) as <-.
    { rewrite sentence_for_new. simpl. by rewrite Hh, Hw. }
    unfold append_new. destruct (sentence_in _ _) eqn:E.
    - by apply sentence_in_true in E.
    - simpl. apply elem_of_app. right. by left. }
  apply elem_of_cons in Hin as [[= -> ->]|Hin].
  - split; [set_solver|]. by left.
  - destruct (Hrem c0 n0 Hin) as [Hmv [Hk|He]].
    + split; [set_solver|]. left.
      rewrite <- sentence_for_mark_safe.
      unfold observe, append_new.
      destruct (sentence_in _ _); simpl.
      * apply list_elem_of_fmap. eauto.
      * apply elem_of_app. left. apply list_elem_of_fmap. eauto.
    + split; [set_solver|]. right.
      unfold sentence_for in *. simpl in *. clear -He. set_solver.
Qed.

Lemma len_union_disjoint (X Y : gset cell) :
  X ## Y → len (X ∪ Y) = len X + len Y.
Proof. intros Hd. unfold len. rewrite size_union by done. lia. Qed.

(** The marks of a pass turn the sentence of a call into the sentence of
    the same call for the sets after the pass. *)
Lemma sentence_for_marks h w M S scM scS c n :
  scM ## M → scM ## S →
  mark_safes (elements scS) (mark_mines (elements scM)
    (purge M (sentence_for h w M S c n)))
  = sentence_for h w (scM ∪ M) (scS ∪ S) c n.
Proof.
  intros HM HS.
  rewrite purge_disjoint by (unfold sentence_for; simpl; set_solver).
  rewrite mark_safes_eq, mark_mines_eq by apply NoDup_elements.
  rewrite !list_to_set_elements_L. unfold sentence_for. simpl.
  set (nb := neighboring_cells h w c). f_equal; [set_solver|].
  assert (filter (λ x, x ∈ scM ∪ M) nb
          = filter (λ x, x ∈ M) nb ∪ (nb ∖ (M ∪ S)) ∩ scM) as ->.
  { apply leibniz_equiv, set_equiv. intros x.
    rewrite elem_of_union, !elem_of_filter, elem_of_intersection,
      elem_of_difference, !elem_of_union.
    split.
    - intros [[Hx|Hx] Hnb]; [|by left]. right.
      split; [|done]. split; [done|]. intros [?|?]; set_solver.
    - intros [[Hx Hnb]|[[Hnb _] Hx]]; auto. }
  rewrite len_union_disjoint.
  - assert ((nb ∖ (M ∪ S)) ∩ scM
            = nb ∖ (M ∪ S) ∩ list_to_set (elements scM)) as Hsame
      by (by rewrite list_to_set_elements_L).
    lia.
  - intros x [Hx _]%elem_of_filter Hx'. clear -Hx Hx'. set_solver.
Qed.

Lemma remembers_pass h w hist ai :
  tidy h w ai → remembers h w hist ai → remembers h w hist (pass ai).1.
Proof.
  intros Ht Hrem c n Hin. destruct (Hrem c n Hin) as [Hmv Hs].
  rewrite pass_moves_made. split; [done|].
  destruct Ht as [_ _ _ _ _ Hc]. rewrite Forall_forall in Hc.
  assert (sc_mines (scan ai) ## mines ai) as HM.
  { intros x (s & Hs0 & Hx)%scan_mines_cells Hx'.
    destruct (Hc s Hs0) as (Hd & _). by apply (Hd x). }
  assert (sc_mines (scan ai) ## safes ai) as HS.
  { intros x (s & Hs0 & Hx)%scan_mines_cells Hx'.
    destruct (Hc s Hs0) as (_ & Hd & _). by apply (Hd x). }
  rewrite pass_eq. simpl.
  set (s' := sentence_for h w (sc_mines (scan ai) ∪ mines ai)
               (sc_safes (scan ai) ∪ safes ai) c n).
  destruct (decide (cells s' = ∅)) as [He|Hne]; [by right|]. left.
  destruct Hs as [Hk|He].
  - apply elem_of_app. left. unfold marked. apply drop_empty_elem.
    split; [done|]. unfold s'.
    rewrite <- (sentence_for_marks h w _ _ _ _ c n HM HS).
    apply list_elem_of_fmap. eexists. split; [done|].
    apply list_elem_of_fmap. eexists. split; [done|].
    unfold scan. rewrite scan_done. simpl.
    apply list_elem_of_fmap. eauto.
  - exfalso. apply Hne. unfold s', sentence_for in *. simpl in *.
    clear -He. set_solver.
Qed.

Lemma remembers_infer_loop h w hist fuel ai ai' :
  tidy h w ai → remembers h w hist ai →
  infer_loop fuel ai = Some ai' → remembers h w hist ai'.
Proof.
  revert ai. induction fuel as [|fuel IH]; intros ai Ht Hrem; [done|].
  rewrite infer_loop_S.
  pose proof (tidy_pass h w ai Ht) as Ht'.
  pose proof (remembers_pass h w hist ai Ht Hrem) as Hrem'.
  destruct (pass ai).2; [by apply IH|]. by intros [= <-].
Qed.

Lemma recorded_remembers h w hist ai :
  recorded h w hist ai → remembers h w hist ai.
Proof.
  induction 1 as [|hist ai c n fuel ai' Hrec IH Hrun].
  - intros c n Hin. by apply elem_of_nil in Hin.
  - pose proof (called_tidy h w ai (recorded_called h w hist ai Hrec)) as Ht.
    eapply remembers_infer_loop; [|  |exact Hrun].
    + by apply tidy_observe.
    + apply remembers_observe; [apply Ht | apply Ht | done].
Qed.

Lemma mark_safe_absent c l :
  Forall (λ s, c ∉ cells s) l → Sentence.mark_safe c <$> l = l.
Proof.
  induction 1 as [|s l Hs _ IH]; [done|].
  rewrite fmap_cons, IH. f_equal. unfold Sentence.mark_safe.
  by rewrite bool_decide_eq_false_2.
Qed.

(** X19. Calling [add_knowledge] again with a cell and a count of an
    earlier call changes nothing: after any calls on a new player, the
    call returns after one pass with the player as it was. *)
Theorem call_again_changes_nothing (h w : Z) (hist : list (cell * Z))
    (ai : AI) (c : cell) (n : Z) (fuel : nat) :
  recorded h w hist ai → (c, n) ∈ hist →
  add_knowledge (S fuel) c n ai = Some ai.
Proof.
  intros Hrec Hin.
  pose proof (recorded_remembers h w hist ai Hrec c n Hin) as [Hmv Hs].
  pose proof (called_tidy h w ai (recorded_called h w hist ai Hrec))
    as [Hh Hw Hsub _ _ Hc].
  assert (pass ai = (ai, false)) as Hfix.
  { destruct Hrec as [|hist ai c0 n0 fuel0 ai' _ Hrun];
      [by apply elem_of_nil in Hin|].
    by apply infer_loop_fixed in Hrun. }
  assert (mark_safe c (mkAI (height ai) (width ai) ({[c]} ∪ moves_made ai)
            (mines ai) (safes ai) (knowledge ai)) = ai) as Hsame.
  { unfold mark_safe. simpl. rewrite mark_safe_absent.
    - rewrite <- (AI_eta ai) at 7. f_equal; set_solver.
    - eapply Forall_impl; [exact Hc|]. intros s (_ & Hd & _).
      intros Hx. apply (Hd c Hx). by apply Hsub. }
  unfold add_knowledge, observe. rewrite Hsame.
  rewrite sentence_for_new, Hh, Hw.
  set (s := sentence_for h w (mines ai) (safes ai) c n) in *.
  unfold append_new. destruct (sentence_in s (knowledge ai)) eqn:E.
  - by rewrite infer_loop_S, Hfix.
  - destruct Hs as [Hk|He]; [apply sentence_in_true in Hk; congruence|].
    rewrite infer_loop_S, (pass_snoc_empty _ _ _ _ _ _ _ He), AI_eta, Hfix.
    done.
Qed.

Lemma recorded_1x4 : recorded 1 4 [((0, 2), 0); ((0, 0), 1)] ai_1x4.
Proof.
  apply (recorded_add 1 4 [((0, 0), 1)] ai_1x4_first (0, 2) 0 1).
  - apply (recorded_add 1 4 [] (init 1 4) (0, 0) 1 2);
      [apply recorded_init|]. vm_compute. reflexivity.
  - vm_compute. reflexivity.
Qed.

Lemma call_again_changes_nothing_witness :
  recorded 1 4 [((0, 2), 0); ((0, 0), 1)] ai_1x4
  ∧ add_knowledge 1 (0, 0) 1 ai_1x4 = Some ai_1x4.
Proof.
  split; [apply recorded_1x4|].
  apply (call_again_changes_nothing 1 4 [((0, 2), 0); ((0, 0), 1)] ai_1x4
           (0, 0) 1 0 recorded_1x4).
  right. left.
Defined.

(** ** Building the board *)

Lemma range_length n : length (range n) = Z.to_nat n.
Proof. unfold range. by rewrite length_fmap, length_seq. Qed.













(** X21. When [mines] is 0, [__init__] draws nothing and returns the field
    with no mines; otherwise it raises the [ValueError] of [randrange]
    exactly when the height or the width is not positive; and for a
    negative [mines] it never returns. *)
Theorem new_game_edges (h w m : Z) (draws : list cell) :
  new_game h w 0 draws
  = Constructed (mkMinesweeper h w (empty_field h w)) ∅
  ∧ (new_game h w m draws = ValueError ↔ m ≠ 0 ∧ (h ≤ 0 ∨ w ≤ 0))
  ∧ (m < 0 → ∀ g M, new_game h w m draws ≠ Constructed g M).
Proof.
  split; [|split].
  - unfold new_game. destruct draws as [|[i j] draws]; simpl;
      by rewrite bool_decide_eq_true_2 by apply len_empty.
  - unfold new_game.
    destruct (decide (m = 0)) as [->|Hm].
    + split; [|by intros [? _]].
      destruct draws as [|[i j] draws]; simpl;
        by rewrite bool_decide_eq_true_2 by apply len_empty.
    + destruct (decide (0 < h ∧ 0 < w)) as [[Hh Hw]|Hn].
      * split; [|intros [_ ?]; lia].
        generalize (empty_field h w) (∅ : gset cell). revert draws.
        induction draws as [|[i j] draws IH]; intros b M; simpl.
        -- case_bool_decide; [done|].
           by rewrite !bool_decide_eq_true_2 by done.
        -- case_bool_decide; [done|].
           rewrite !bool_decide_eq_true_2 by done. simpl.
           destruct (board_at _ i j); apply IH.
      * split; [intros _; split; [done|lia]|]. intros _.
        assert (negb (bool_decide (0 < h) && bool_decide (0 < w)) = true)
          as Hneg.
        { apply negb_true_iff, andb_false_iff.
          rewrite !bool_decide_eq_false. lia. }
        destruct draws as [|[i j] draws]; simpl;
          rewrite bool_decide_eq_false_2, ?Hneg; try done;
          rewrite len_empty; congruence.
  - intros Hm g M. unfold new_game.
    generalize (empty_field h w) (∅ : gset cell). revert draws.
    induction draws as [|[i j] draws IH]; intros b M0; simpl.
    + rewrite bool_decide_eq_false_2
        by (pose proof (len_nonneg M0); lia).
      by destruct (negb _).
    + rewrite bool_decide_eq_false_2
        by (pose proof (len_nonneg M0); lia).
      destruct (negb _); [done|]. destruct (board_at _ i j); apply IH.
Qed.

(** ** Printing the board *)

Lemma range_lookup (n : Z) (k : nat) :
  (k < Z.to_nat n)%nat → range n !! k = Some (Z.of_nat k).
Proof.
  intros Hk. unfold range. rewrite list_lookup_fmap, lookup_seq_lt by done.
  done.
Qed.

(** Reading the two halves of a list made of pairs. *)
Lemma lookup_concat_pairs_add {A B} (f1 f2 : B → A) (l : list B) (k : nat) :
  concat ((λ x, [f1 x; f2 x]) <$> l) !! (k + k)%nat = f1 <$> l !! k
  ∧ concat ((λ x, [f1 x; f2 x]) <$> l) !! S (k + k) = f2 <$> l !! k.
Proof.
  revert k. induction l as [|x l IH]; intros k; [done|].
  destruct k as [|k]; [done|].
  rewrite Nat.add_succ_r. csimpl. apply IH.
Qed.

Lemma lookup_concat_pairs {A B} (f1 f2 : B → A) (l : list B) (k : nat) :
  concat ((λ x, [f1 x; f2 x]) <$> l) !! (2 * k)%nat = f1 <$> l !! k
  ∧ concat ((λ x, [f1 x; f2 x]) <$> l) !! (2 * k + 1)%nat = f2 <$> l !! k.
Proof.
  replace (2 * k)%nat with (k + k)%nat by lia.
  replace (k + k + 1)%nat with (S (k + k)) by lia.
  apply lookup_concat_pairs_add.
Qed.

Lemma length_concat_pairs {A B} (f1 f2 : B → A) (l : list B) :
  length (concat ((λ x, [f1 x; f2 x]) <$> l)) = (2 * length l)%nat.
Proof. induction l as [|x l IH]; csimpl; [done|]. rewrite IH. lia. Qed.

Lemma foldl_Some_in {A B} (f : option A → B → option A) (f' : A → B → A)
    (l : list B) (a : A) :
  (∀ a' x, x ∈ l → f (Some a') x = Some (f' a' x)) →
  foldl f (Some a) l = Some (foldl f' a l).
Proof.
  revert a. induction l as [|x l IH]; intros a Hf; simpl; [done|].
  rewrite Hf by left. apply IH. intros a' y Hy. apply Hf. by right.
Qed.

Lemma foldl_app_concat {A B} (f : B → list A) (l : list B) (t : list A) :
  foldl (λ t' x, t' ++ f x) t l = t ++ concat (f <$> l).
Proof.
  revert t. induction l as [|x l IH]; intros t; csimpl.
  - by rewrite app_nil_r.
  - by rewrite IH, <- app_assoc.
Qed.

Lemma print_row_eq g i :
  well_formed g → 0 ≤ i < g_height g →
  Printing.print_row g i = Some (row_text g i).
Proof.
  intros Hwf Hi. unfold Printing.print_row, row_text.
  rewrite (foldl_Some_in _
    (λ t j, t ++ ["|"%char; if board_at g i j then "X"%char else " "%char])).
  - simpl. by rewrite foldl_app_concat.
  - intros t j Hj%range_elem.
    destruct (board_read g i j Hwf Hi Hj) as (row & Hrow & Hb).
    rewrite Hrow. simpl. rewrite Hb. simpl. unfold entry_text.
    by destruct (board_at g i j).
Qed.

Lemma print_eq g :
  well_formed g →
  Printing.print g
  = Some (concat ((λ i, [border (g_width g); row_text g i])
                    <$> range (g_height g))
          ++ [border (g_width g)]).
Proof.
  intros Hwf. unfold Printing.print.
  rewrite (foldl_Some_in _
    (λ ls i, ls ++ [border (g_width g); row_text g i])).
  - simpl. by rewrite foldl_app_concat.
  - intros ls i Hi%range_elem. by rewrite print_row_eq.
Qed.

Lemma length_times s n : length (times s n) = (Z.to_nat n * length s)%nat.
Proof.
  unfold times. induction (Z.to_nat n) as [|k IH]; simpl; [done|].
  by rewrite length_app, IH.
Qed.

Lemma length_border w : length (border w) = (2 * Z.to_nat w + 1)%nat.
Proof. unfold border. rewrite length_app, length_times. simpl. lia. Qed.

Lemma length_row_text g i :
  length (row_text g i) = (2 * Z.to_nat (g_width g) + 1)%nat.
Proof.
  unfold row_text.
  rewrite length_app, (length_concat_pairs (λ _, "|"%char)), range_length.
  simpl. lia.
Qed.

(** X22. On the board that [__init__] builds, [print] raises no error and
    writes [2 * height + 1] lines of [2 * width + 1] characters each: a
    line of dashes, then for every row a line of the row and a line of
    dashes; in the line of the row [i], the character after the [j]-th
    bar is an X when the cell [(i, j)] holds a mine and a space when it
    holds none. *)
Theorem print_shape (g : Minesweeper) :
  well_formed g →
  ∃ lines,
    Printing.print g = Some lines
    ∧ length lines = (2 * Z.to_nat (g_height g) + 1)%nat
    ∧ Forall (λ line, length line = (2 * Z.to_nat (g_width g) + 1)%nat) lines
    ∧ (∀ k, (k ≤ Z.to_nat (g_height g))%nat →
            lines !! (2 * k)%nat = Some (border (g_width g)))
    ∧ ∀ i j, on_board (g_height g) (g_width g) (i, j) →
        ∃ line, lines !! (2 * Z.to_nat i + 1)%nat = Some line
                ∧ line !! (2 * Z.to_nat j)%nat = Some "|"%char
                ∧ line !! (2 * Z.to_nat j + 1)%nat
                  = Some (if is_mine g (i, j) then "X"%char else " "%char).
Proof.
  intros Hwf. eexists. split; [by apply print_eq|].
  set (body := concat ((λ i, [border (g_width g); row_text g i])
                         <$> range (g_height g))).
  assert (length body = (2 * Z.to_nat (g_height g))%nat) as Hbody
    by (unfold body; by rewrite length_concat_pairs, range_length).
  split; [|split; [|split]].
  - rewrite length_app, Hbody. simpl. lia.
  - apply Forall_app. split; [|apply Forall_singleton, length_border].
    apply Forall_forall. intros line Hline.
    apply list_elem_of_lookup in Hline as [n Hn].
    destruct (Nat.Even_or_Odd n) as [[k ->]|[k ->]].
    + unfold body in Hn.
      rewrite (proj1 (lookup_concat_pairs _ _ _ k)) in Hn.
      destruct (range (g_height g) !! k); [|done].
      injection Hn as <-. apply length_border.
    + unfold body in Hn.
      rewrite (proj2 (lookup_concat_pairs _ _ _ k)) in Hn.
      destruct (range (g_height g) !! k); [|done].
      injection Hn as <-. apply length_row_text.
  - intros k Hk. destruct (decide (k = Z.to_nat (g_height g))) as [->|Hne].
    + rewrite lookup_app_r by lia. rewrite Hbody, Nat.sub_diag. done.
    + rewrite lookup_app_l by lia. unfold body.
      rewrite (proj1 (lookup_concat_pairs _ _ _ k)).
      rewrite range_lookup by lia. done.
  - intros i j [Hi Hj]. simpl in Hi, Hj. exists (row_text g i).
    split; [|split].
    + rewrite lookup_app_l by lia. unfold body.
      rewrite (proj2 (lookup_concat_pairs _ _ _ (Z.to_nat i))).
      rewrite range_lookup by lia. simpl. by rewrite Z2Nat.id by lia.
    + unfold row_text.
      rewrite lookup_app_l
        by (rewrite (length_concat_pairs (λ _, "|"%char)), range_length; lia).
      rewrite (proj1 (lookup_concat_pairs (λ _, "|"%char) _ _ (Z.to_nat j))).
      by rewrite range_lookup by lia.
    + unfold row_text.
      rewrite lookup_app_l
        by (rewrite (length_concat_pairs (λ _, "|"%char)), range_length; lia).
      rewrite (proj2 (lookup_concat_pairs (λ _, "|"%char) _ _ (Z.to_nat j))).
      rewrite range_lookup by lia. simpl. by rewrite Z2Nat.id by lia.
Qed.

Lemma print_shape_witness :
  well_formed game_2x2
  ∧ ∃ lines, Printing.print game_2x2 = Some lines
             ∧ length lines = 5%nat.
Proof.
  split; [apply well_formed_game_2x2|].
  destruct (print_shape game_2x2 well_formed_game_2x2)
    as (lines & Hp & Hlen & _).
  exists lines. split; [exact Hp|]. exact Hlen.
Defined.
